(** * libvest: the vector core (vec.c) and the string layer (str.c)

    The C sources are embedded as executable Rocq functions.

    - [size_t] is a [Z] in [0, 2^64); every arithmetic operation of the
      source is written with its wrap-around.
    - A vector is the record [vec_obj_t] of the source.  The flexible array
      member [data] is the list of the bytes that follow the header in the
      allocated block; its length is what [malloc]/[realloc] handed out.
      The header lies in front of [data] in the same block, and a pointer
      that [vec_ptr_at] computes in front of [data] is followed into it.
    - The integer arguments of [str_format] are read at the C type of the
      directive: 32 bits for ["%i"], 64 bits for ["%l"] and ["%u"].
    - The allocator is an explicit script of answers threaded through every
      call: an allocation either fails (returns NULL) or succeeds and hands
      out memory whose fresh bytes are arbitrary.
    - A failed [assert], a NULL dereference and every access outside an
      allocated block have no result in C; here they are the outcome [Crash].
    - A handle that may be NULL is an [option]. *)

From Stdlib Require Import Strings.Byte Strings.String Strings.Ascii.
From Stdlib Require Import ZArith List Bool Lia DecimalString Sorted.
From Stdlib Require DecimalPos DecimalFacts.
Import ListNotations.
Local Open Scope Z_scope.

(* ================================================================== *)
(** * Machine model *)
(* ================================================================== *)

(** ** size_t *)

Definition SIZE_WIDTH : Z := 64.
Definition SIZE_MODULUS : Z := 18446744073709551616.
Definition SIZE_MAX : Z := 18446744073709551615.

Definition wrap (z : Z) : Z := z mod SIZE_MODULUS.

Definition size_add (a b : Z) : Z := wrap (a + b).
Definition size_sub (a b : Z) : Z := wrap (a - b).
Definition size_mul (a b : Z) : Z := wrap (a * b).

(** [(size_t)count] for an [int count]. *)
Definition size_of_int (c : Z) : Z := wrap c.

Definition is_size (z : Z) : Prop := 0 <= z < SIZE_MODULUS.

(** ** Outcomes and the allocation script *)

Inductive outcome (A : Type) : Type :=
| Done (a : A)
| Crash.
Arguments Done {A} a.
Arguments Crash {A}.

Inductive alloc_event : Type :=
| AllocFail
| AllocOk (garbage : nat -> byte).

(** The answers the allocator will give, in order.  A script that has run
    out answers every further request with a zeroed block. *)
Definition heap : Type := list alloc_event.

Definition M (A : Type) : Type := heap -> outcome (A * heap).

Definition ret {A} (a : A) : M A := fun h => Done (a, h).

Definition bind {A B} (m : M A) (k : A -> M B) : M B :=
  fun h => match m h with
           | Done (a, h') => k a h'
           | Crash => Crash
           end.

Definition crash {A} : M A := fun _ => Crash.

Definition lift {A} (o : outcome A) : M A :=
  fun h => match o with Done a => Done (a, h) | Crash => Crash end.

Declare Scope machine_scope.
Delimit Scope machine_scope with machine.
Notation "x <- m ;; k" := (bind m (fun x => k))
  (at level 61, m at next level, right associativity) : machine_scope.
Notation "' p <- m ;; k" := (bind m (fun x => match x with p => k end))
  (at level 61, p pattern, m at next level, right associativity) : machine_scope.
Local Open Scope machine_scope.

Definition next_alloc : M (option (nat -> byte)) :=
  fun h => match h with
           | [] => Done (Some (fun _ => x00), [])
           | AllocFail :: h' => Done (None, h')
           | AllocOk g :: h' => Done (Some g, h')
           end.

(** No allocation of the script fails. *)
Definition no_failure (h : heap) : Prop :=
  Forall (fun e => e <> AllocFail) h.

(** The answer to the next request. *)
Definition alloc_succeeds (h : heap) : bool :=
  match h with
  | AllocFail :: _ => false
  | _ => true
  end.

Definition garbage_of (h : heap) : nat -> byte :=
  match h with
  | AllocOk g :: _ => g
  | _ => fun _ => x00
  end.

(** ** Raw memory *)

Definition zlength {A} (l : list A) : Z := Z.of_nat (length l).

Definition fresh_bytes (g : nat -> byte) (from n : nat) : list byte :=
  map g (seq from n).

(** [n] bytes at offset [off] of a block. *)
Definition mem_read (m : list byte) (off n : Z) : outcome (list byte) :=
  if (0 <=? off) && (0 <=? n) && (off + n <=? zlength m)
  then Done (firstn (Z.to_nat n) (skipn (Z.to_nat off) m))
  else Crash.

(** [memcpy(m + off, bs, |bs|)]. *)
Definition mem_write (m : list byte) (off : Z) (bs : list byte)
  : outcome (list byte) :=
  if (0 <=? off) && (off + zlength bs <=? zlength m)
  then Done (firstn (Z.to_nat off) m ++ bs
             ++ skipn (Z.to_nat off + length bs) m)
  else Crash.

(** [memset(m + off, b, n)]. *)
Definition memset (m : list byte) (off : Z) (b : byte) (n : Z)
  : outcome (list byte) :=
  mem_write m off (repeat b (Z.to_nat n)).

(** ** vec.h / vec.c *)

Definition VEC_INIT_CAPACITY : Z := 128.

Record vec_obj_t : Type := mk_vec {
  unit_size : Z;
  capacity : Z;
  count : Z;
  data : list byte
}.

(** A handle as the API returns it: NULL or the address of [data]. *)
Definition vec_t : Type := option vec_obj_t.

(** [sizeof(vec_obj_t)]: three [size_t] fields. *)
Definition SIZEOF_VEC_OBJ : Z := 24.

Definition vec_size (usize cap : Z) : Z :=
  size_add SIZEOF_VEC_OBJ (size_mul usize cap).

(** [malloc(size)] of a block that starts with a [vec_obj_t] header: the
    result is the part of the block behind the header.  A block too small
    for the header is overrun as soon as the header is written. *)
Definition malloc_obj (size : Z) : M (option (list byte)) :=
  g <- next_alloc ;;
  match g with
  | None => ret None
  | Some g =>
      if size <? SIZEOF_VEC_OBJ then crash
      else ret (Some (fresh_bytes g 0 (Z.to_nat (size - SIZEOF_VEC_OBJ))))
  end.

(** [realloc(obj, size)]: the old bytes up to the new size, then fresh
    ones. *)
Definition realloc_obj (old : list byte) (size : Z) : M (option (list byte)) :=
  g <- next_alloc ;;
  match g with
  | None => ret None
  | Some g =>
      if size <? SIZEOF_VEC_OBJ then crash
      else
        let n := Z.to_nat (size - SIZEOF_VEC_OBJ) in
        ret (Some (firstn n old
                   ++ fresh_bytes g (length old) (n - length old)))
  end.

Definition vec_new_len (usize cnt : Z) : M vec_t :=
  obj <- malloc_obj (vec_size usize VEC_INIT_CAPACITY) ;;
  match obj with
  | None => ret None
  | Some raw =>
      d <- lift (memset raw 0 x00 (size_mul VEC_INIT_CAPACITY usize)) ;;
      ret (Some {| unit_size := usize;
                   capacity := VEC_INIT_CAPACITY;
                   count := cnt;
                   data := d |})
  end.

Definition vec_new (usize : Z) : M vec_t :=
  vec_new_len usize 0.

Definition vec_resize (self : vec_obj_t) (cnt : Z) : M vec_t :=
  let old_size := self.(count) in
  if cnt >=? self.(capacity) then
    let cap := size_mul self.(capacity) 2 in
    obj <- realloc_obj self.(data) (vec_size self.(unit_size) cap) ;;
    match obj with
    | None => ret None
    | Some raw =>
        d <- lift (memset raw (size_mul old_size self.(unit_size)) x00
                     (size_mul (size_sub cap old_size) self.(unit_size))) ;;
        ret (Some {| unit_size := self.(unit_size);
                     capacity := cap;
                     count := cnt;
                     data := d |})
    end
  else
    ret (Some {| unit_size := self.(unit_size);
                 capacity := self.(capacity);
                 count := cnt;
                 data := self.(data) |}).

Definition vec_unit_size (self : vec_obj_t) : Z := self.(unit_size).
Definition vec_count (self : vec_obj_t) : Z := self.(count).
Definition vec_capacity (self : vec_obj_t) : Z := self.(capacity).

Definition vec_extend (self : vec_obj_t) (cnt : Z) : M vec_t :=
  vec_resize self (size_add (vec_count self) cnt).

(** *** The block behind a handle *)

Definition byte_of_Z (z : Z) : byte :=
  match Byte.of_N (Z.to_N (z mod 256)) with
  | Some b => b
  | None => x00
  end.

Definition Z_of_byte (b : byte) : Z := Z.of_N (Byte.to_N b).

(** The object representation of a [size_t]: eight bytes, least
    significant first. *)
Fixpoint encode_le (n : nat) (z : Z) : list byte :=
  match n with
  | O => []
  | S n' => byte_of_Z z :: encode_le n' (z / 256)
  end.

Fixpoint decode_le (bs : list byte) : Z :=
  match bs with
  | [] => 0
  | b :: bs' => Z_of_byte b + 256 * decode_le bs'
  end.

Definition encode_size (z : Z) : list byte := encode_le 8 z.
Definition decode_size (bs : list byte) : Z := decode_le bs.

(** The [vec_obj_t] header as it lies in memory in front of [data]: the
    fields [unit_size], [capacity] and [count], in the order of the
    [struct]. *)
Definition header_bytes (self : vec_obj_t) : list byte :=
  encode_size self.(unit_size) ++ encode_size self.(capacity)
  ++ encode_size self.(count).

(** The allocated block: the header, then [data]. *)
Definition block_bytes (self : vec_obj_t) : list byte :=
  header_bytes self ++ self.(data).

(** The offset from the start of the block of the address [data + off].
    Addresses are 64 bits wide: an offset of [2^64 - k] from [data] is the
    address [k] bytes in front of [data]. *)
Definition block_offset (off : Z) : Z := wrap (SIZEOF_VEC_OBJ + off).

(** The pointer is returned as its byte offset from [data]; offset [0] is
    the handle itself. *)
Definition vec_ptr_at (self : vec_obj_t) (pos : Z) : Z :=
  if pos =? 0 then 0
  else if pos >=? self.(count)
       then size_mul (size_sub self.(count) 1) self.(unit_size)
       else size_mul pos self.(unit_size).

(** [items] is the memory that can be read from the source pointer on. *)
Definition vec_copy (self : vec_obj_t) (pos : Z) (items : list byte) (len : Z)
  : M vec_obj_t :=
  if len =? 0 then ret self
  else if pos >=? self.(count) then ret self
  else
    let tocopy := size_sub self.(count) pos in
    let len := if len >? tocopy then tocopy else len in
    buff <- vec_new_len self.(unit_size) len ;;
    match buff with
    | None => crash
    | Some buff =>
        let n := size_mul len self.(unit_size) in
        staged <- lift (mem_read items 0 n) ;;
        bdata <- lift (mem_write buff.(data) 0 staged) ;;
        staged' <- lift (mem_read bdata 0 n) ;;
        d <- lift (mem_write self.(data) (vec_ptr_at self pos) staged') ;;
        ret {| unit_size := self.(unit_size);
               capacity := self.(capacity);
               count := self.(count);
               data := d |}
    end.

Definition vec_set (self : vec_obj_t) (pos : Z) (item : list byte)
  : M vec_obj_t :=
  vec_copy self pos item 1.

(** The bytes copied into [item]: [unit_size] bytes from the pointer that
    [vec_ptr_at] returns.  The pointer is followed through the whole block,
    header included. *)
Definition vec_get (self : vec_obj_t) (pos : Z) : outcome (list byte) :=
  mem_read (block_bytes self) (block_offset (vec_ptr_at self pos))
    self.(unit_size).

(** ** C strings and [size_t] items in memory *)

(** A [const char *] argument is given by the bytes in front of its
    terminator; the array it points to is [cstr_mem]. *)
Definition cstr_mem (s : list byte) : list byte := s ++ [x00].

Fixpoint strlen_nat (s : list byte) : nat :=
  match s with
  | [] => O
  | c :: s' => if Byte.eqb c x00 then O else S (strlen_nat s')
  end.

Definition strlen (s : list byte) : Z := Z.of_nat (strlen_nat s).

(** One [char] of a block: [m[off]]. *)
Definition mem_get (m : list byte) (off : Z) : outcome byte :=
  if 0 <=? off then
    match nth_error m (Z.to_nat off) with
    | Some b => Done b
    | None => Crash
    end
  else Crash.

Definition cstr_at (s : list byte) (i : Z) : outcome byte :=
  mem_get (cstr_mem s) i.

(** The memory that can be read from [m + off] on. *)
Definition ptr_mem (m : list byte) (off : Z) : list byte :=
  skipn (Z.to_nat off) m.

Definition SIZEOF_SIZE_T : Z := 8.
Definition SIZEOF_CHAR : Z := 1.

(** [for (size_t i = lo; i < hi; i++) body], for a body that leaves [i] and
    [hi] alone. *)
Fixpoint for_range {S : Type} (n : nat) (i : Z) (body : Z -> S -> M S) (s : S)
  : M S :=
  match n with
  | O => ret s
  | Datatypes.S n' => s' <- body i s ;; for_range n' (i + 1) body s'
  end.

Definition for_loop {S : Type} (lo hi : Z) (body : Z -> S -> M S) (s : S)
  : M S :=
  for_range (Z.to_nat (hi - lo)) lo body s.

(** ** str.h / str.c *)

Definition BUFSIZE : Z := 64.

Definition set_data (self : vec_obj_t) (d : list byte) : vec_obj_t :=
  {| unit_size := self.(unit_size);
     capacity := self.(capacity);
     count := self.(count);
     data := d |}.

Definition str_length (self : vec_obj_t) : Z := vec_count self.

Definition str_resize (self : vec_obj_t) (size : Z) : M vec_t :=
  r <- vec_resize self (size_add size 1) ;;
  match r with
  | None => ret None
  | Some self =>
      d <- lift (mem_write self.(data) size [x00]) ;;
      vec_resize (set_data self d) size
  end.

Definition str_extend (self : vec_obj_t) (cnt : Z) : M vec_t :=
  str_resize self (size_add (str_length self) cnt).

Definition str_empty : M vec_t := vec_new SIZEOF_CHAR.

Definition str_new_len (cnt : Z) : M vec_t := vec_new_len SIZEOF_CHAR cnt.

Definition str_new (str : list byte) : M vec_t :=
  let len := strlen str in
  r <- str_new_len len ;;
  match r with
  | None => ret None
  | Some self =>
      self <- vec_copy self 0 (cstr_mem str) len ;;
      ret (Some self)
  end.

Definition str_insert (self : vec_obj_t) (pos : Z) (str : list byte)
  : M vec_t :=
  if pos >? str_length self then ret None
  else
    let str_len := strlen str in
    r <- str_extend self str_len ;;
    match r with
    | None => ret None
    | Some self =>
        self <- vec_copy self (size_add pos str_len)
                  (ptr_mem self.(data) (vec_ptr_at self pos))
                  (size_sub (str_length self) pos) ;;
        self <- vec_copy self pos (cstr_mem str) str_len ;;
        ret (Some self)
    end.

Definition str_append (self : vec_obj_t) (str : list byte) : M vec_t :=
  str_insert self (str_length self) str.

Definition str_clear (self : vec_obj_t) : M vec_t :=
  str_resize self 0.

(** The [while] loop of [kmp_compute_lps].  Every iteration advances [i] or
    lowers [len], so [2 * pat_len] iterations are never used up; [fuel]
    bounds the recursion. *)
Fixpoint kmp_lps_loop (fuel : nat) (pat : list byte) (pat_len : Z)
    (i len : Z) (lps : vec_obj_t) : M vec_obj_t :=
  match fuel with
  | O => crash
  | Datatypes.S fuel' =>
      if i <? pat_len then
        pi <- lift (cstr_at pat i) ;;
        pl <- lift (cstr_at pat len) ;;
        if Byte.eqb pi pl then
          let len := size_add len 1 in
          lps <- vec_set lps i (encode_size len) ;;
          kmp_lps_loop fuel' pat pat_len (size_add i 1) len lps
        else if negb (len =? 0) then
          w <- lift (vec_get lps (size_sub len 1)) ;;
          kmp_lps_loop fuel' pat pat_len i (decode_size w) lps
        else
          lps <- vec_set lps i (encode_size 0) ;;
          kmp_lps_loop fuel' pat pat_len (size_add i 1) len lps
      else ret lps
  end.

Definition kmp_compute_lps (pat : list byte) (pat_len : Z) (lps : vec_obj_t)
  : M vec_obj_t :=
  d <- lift (mem_write lps.(data) 0 (encode_size 0)) ;;
  kmp_lps_loop (2 * Z.to_nat pat_len + 1) pat pat_len 1 0 (set_data lps d).

(** The [while (i < n)] loop of [str_find]; [2 * i - j] grows with every
    iteration and never exceeds [2 * n]. *)
Fixpoint str_find_loop (fuel : nat) (self : vec_obj_t) (pat : list byte)
    (n m : Z) (lps : vec_obj_t) (i j : Z) (pos : vec_obj_t) : M vec_t :=
  match fuel with
  | O => crash
  | Datatypes.S fuel' =>
      if i <? n then
        si <- lift (mem_get self.(data) i) ;;
        pj <- lift (cstr_at pat j) ;;
        let '(i, j) := if Byte.eqb si pj
                       then (size_add i 1, size_add j 1) else (i, j) in
        if j =? m then
          r <- vec_extend pos 1 ;;
          match r with
          | None => ret None
          | Some pos =>
              pos <- vec_set pos (size_sub (vec_count pos) 1)
                       (encode_size (size_sub i j)) ;;
              w <- lift (vec_get lps (size_sub j 1)) ;;
              str_find_loop fuel' self pat n m lps i (decode_size w) pos
          end
        else if i <? n then
          si <- lift (mem_get self.(data) i) ;;
          pj <- lift (cstr_at pat j) ;;
          if negb (Byte.eqb si pj) then
            if negb (j =? 0) then
              w <- lift (vec_get lps (size_sub j 1)) ;;
              str_find_loop fuel' self pat n m lps i (decode_size w) pos
            else
              str_find_loop fuel' self pat n m lps (size_add i 1) j pos
          else
            str_find_loop fuel' self pat n m lps i j pos
        else
          str_find_loop fuel' self pat n m lps i j pos
      else ret (Some pos)
  end.

Definition str_find (self : vec_obj_t) (pat : list byte) : M vec_t :=
  let n := str_length self in
  let m := strlen pat in
  if m =? 0 then ret None
  else
    pos <- vec_new SIZEOF_SIZE_T ;;
    match pos with
    | None => ret None
    | Some pos =>
        lps <- vec_new_len SIZEOF_SIZE_T m ;;
        match lps with
        | None => ret (Some pos)
        | Some lps =>
            lps <- kmp_compute_lps pat m lps ;;
            str_find_loop (2 * Z.to_nat n + 1) self pat n m lps 0 0 pos
        end
    end.

(** [for (size_t j = i + 1; j < pos_count; j++)] of [str_replace]: the
    offsets not yet used move by [shift]. *)
Definition shift_offsets (pos : vec_obj_t) (i pos_count shift : Z)
  : M vec_obj_t :=
  for_loop (i + 1) pos_count
    (fun j pos =>
       w <- lift (vec_get pos j) ;;
       let val := size_add (decode_size w) shift in
       vec_set pos j (encode_size val))
    pos.

(** [for (size_t j = 0; j < len_new; j++) vec_set(self, index + j, new_str + j)]. *)
Definition write_new (self : vec_obj_t) (index len_new : Z)
    (new_str : list byte) : M vec_obj_t :=
  for_loop 0 len_new
    (fun j self =>
       vec_set self (size_add index j) (ptr_mem (cstr_mem new_str) j))
    self.

(** The outer [for] loop of [str_replace], [k] iterations from [i] on.  The
    result is the [self] that the function returns at [exit]. *)
Fixpoint str_replace_loop (k : nat) (i : Z) (self pos : vec_obj_t)
    (pos_count len_old len_new shift : Z) (new_str : list byte) (cnt : Z)
  : M vec_t :=
  match k with
  | O => ret (Some self)
  | Datatypes.S k' =>
      if i >=? size_of_int cnt then ret (Some self)
      else
        w <- lift (vec_get pos i) ;;
        let index := decode_size w in
        if negb (shift =? 0) then
          r <- str_extend self shift ;;
          match r with
          | None => ret None
          | Some self =>
              self <- vec_copy self (size_add index len_new)
                        (ptr_mem self.(data)
                           (vec_ptr_at self (size_add index len_old)))
                        (size_sub (str_length self) index) ;;
              pos <- shift_offsets pos i pos_count shift ;;
              self <- write_new self index len_new new_str ;;
              str_replace_loop k' (i + 1) self pos
                pos_count len_old len_new shift new_str cnt
          end
        else
          self <- write_new self index len_new new_str ;;
          str_replace_loop k' (i + 1) self pos
            pos_count len_old len_new shift new_str cnt
  end.

Definition str_replace (self : vec_obj_t) (old_str new_str : list byte)
    (cnt : Z) : M vec_t :=
  let len_old := strlen old_str in
  if len_old >? str_length self then ret None
  else
    pos <- str_find self old_str ;;
    match pos with
    | None => ret None
    | Some pos =>
        let pos_count := vec_count pos in
        if pos_count =? 0 then ret (Some self)
        else
          let len_new := strlen new_str in
          let shift := size_sub len_new len_old in
          str_replace_loop (Z.to_nat pos_count) 0 self pos
            pos_count len_old len_new shift new_str cnt
    end.

Definition str_remove (self : vec_obj_t) (str : list byte) : M vec_t :=
  str_replace self str [] (-1).

Definition str_repeat (self : vec_obj_t) (cnt : Z) : M vec_t :=
  if cnt =? 0 then ret (Some self)
  else
    let len := str_length self in
    r <- str_extend self (size_mul len cnt) ;;
    match r with
    | None => ret None
    | Some self =>
        self <- for_loop 0 cnt
                  (fun i self => vec_copy self (size_mul i len) self.(data) len)
                  self ;;
        ret (Some self)
    end.

(** *** str_format *)

(** One variadic argument.  An integer argument is given by the number the
    caller passed; [va_arg] reads it at the type the directive asks for
    ([int_value], [long_long_value], [unsigned_long_long_value] below).  The
    text that [snprintf] produces for ["%g"] is carried by the argument
    itself. *)
Inductive fmt_arg : Type :=
| ArgStr (s : list byte)
| ArgInt (d_num : Z)
| ArgLong (l_num : Z)
| ArgULong (u_num : Z)
| ArgDouble (g_text : list byte).

(** The value of a two's complement integer of [bits] bits that holds the
    low [bits] bits of [z]. *)
Definition signed_value (bits z : Z) : Z :=
  (z + 2 ^ (bits - 1)) mod 2 ^ bits - 2 ^ (bits - 1).

(** [va_arg(ap, int)], [va_arg(ap, long long)] and
    [va_arg(ap, unsigned long long)]. *)
Definition int_value (z : Z) : Z := signed_value 32 z.
Definition long_long_value (z : Z) : Z := signed_value 64 z.
Definition unsigned_long_long_value (z : Z) : Z := z mod 2 ^ 64.

Definition bytes_of_string (s : string) : list byte := list_byte_of_string s.

(** [snprintf(buf, BUFSIZE, "%d", z)] and its siblings: the digits of [z]. *)
Definition decimal (z : Z) : list byte :=
  bytes_of_string (DecimalString.NilZero.string_of_int (Z.to_int z)).

(** What is left in [buf] after [snprintf(buf, BUFSIZE, ...)] of [text]. *)
Definition snprintf_buf (text : list byte) : list byte :=
  firstn (Z.to_nat (BUFSIZE - 1)) text.

(** A call on a handle that must not be NULL. *)
Definition on_handle {A} (self : vec_t) (f : vec_obj_t -> M A) : M A :=
  match self with
  | None => crash
  | Some v => f v
  end.

Definition percent : byte := "%"%byte.

(** The [do ... while] loop of [str_format]; [fmt] is what is left of the
    format in front of its terminator. *)
Fixpoint str_format_loop (fmt : list byte) (self : vec_t) (pos : Z)
    (ap : list fmt_arg) : M vec_t :=
  match fmt with
  | [] => ret self
  | c :: rest =>
      if negb (Byte.eqb c percent) then
        self <- on_handle self (fun v => vec_extend v 1) ;;
        v <- on_handle self (fun v => vec_set v pos (cstr_mem fmt)) ;;
        str_format_loop rest (Some v) (size_add pos 1) ap
      else
        match rest with
        | [] => ret self
        | d :: rest' =>
            let directive (text : list byte) (ap' : list fmt_arg) :=
              self <- on_handle self
                        (fun v => str_append v (snprintf_buf text)) ;;
              str_format_loop rest' self (size_add pos (zlength text)) ap' in
            if Byte.eqb d "s"%byte then
              match ap with
              | ArgStr s :: ap' =>
                  self <- on_handle self (fun v => str_append v s) ;;
                  str_format_loop rest' self (size_add pos (strlen s)) ap'
              | _ => crash
              end
            else if Byte.eqb d "i"%byte then
              match ap with
              | ArgInt z :: ap' => directive (decimal (int_value z)) ap'
              | _ => crash
              end
            else if Byte.eqb d "l"%byte then
              match ap with
              | ArgLong z :: ap' => directive (decimal (long_long_value z)) ap'
              | _ => crash
              end
            else if Byte.eqb d "u"%byte then
              match ap with
              | ArgULong z :: ap' =>
                  directive (decimal (unsigned_long_long_value z)) ap'
              | _ => crash
              end
            else if Byte.eqb d "f"%byte then
              match ap with
              | ArgDouble g :: ap' => directive g ap'
              | _ => crash
              end
            else
              self <- on_handle self
                        (fun v => str_append v (bytes_of_string "???")) ;;
              str_format_loop rest' self (size_add pos 3) ap
        end
  end.

Definition str_format (self : vec_obj_t) (fmt : list byte)
    (ap : list fmt_arg) : M vec_t :=
  let fmt := firstn (strlen_nat fmt) fmt in
  match fmt with
  | [] => ret (Some self)
  | _ =>
      self <- str_clear self ;;
      str_format_loop fmt self 0 ap
  end.

(** ** Running the model on concrete inputs *)

(** The bytes a length-aware caller sees: [count] bytes from [data]. *)
Definition str_bytes (self : vec_obj_t) : list byte :=
  firstn (Z.to_nat self.(count)) self.(data).

(** The offsets held by an index sequence. *)
Fixpoint chunks (n : nat) (k : nat) (bs : list byte) : list (list byte) :=
  match k with
  | O => []
  | Datatypes.S k' => firstn n bs :: chunks n k' (skipn n bs)
  end.

Definition index_items (v : vec_obj_t) : list Z :=
  map decode_size (chunks 8 (Z.to_nat v.(count)) v.(data)).

Definition run {A} (m : M A) (h : heap) : outcome A :=
  match m h with
  | Done (a, _) => Done a
  | Crash => Crash
  end.

Definition new_then {A} (s : string) (f : vec_obj_t -> M A) : M A :=
  r <- str_new (bytes_of_string s) ;; on_handle r f.

Definition view (r : outcome vec_t) : outcome (option (list byte)) :=
  match r with
  | Done (Some v) => Done (Some (str_bytes v))
  | Done None => Done None
  | Crash => Crash
  end.

(** ** Invariants and specification vocabulary *)

(** [count <= capacity]. *)
Definition count_within_capacity (v : vec_obj_t) : Prop :=
  v.(count) <= v.(capacity).

(** The byte at offset [count] of a string is its terminator. *)
Definition terminated (v : vec_obj_t) : Prop :=
  mem_get v.(data) v.(count) = Done x00.

Definition all_zero (bs : list byte) : Prop :=
  Forall (fun b => b = x00) bs.

(** The bytes of the items at positions [from] and above. *)
Definition items_from (v : vec_obj_t) (from : Z) : list byte :=
  skipn (Z.to_nat (from * v.(unit_size))) v.(data).

(** Bytes at positions [[count, capacity)] are zero. *)
Definition tail_zero (v : vec_obj_t) : Prop :=
  all_zero (items_from v v.(count)).

(** A vector whose header describes its block: the block holds exactly
    [capacity] items, [count] of them in use, and fits the address space. *)
Record vec_wf (v : vec_obj_t) : Prop := {
  wf_unit : 1 <= v.(unit_size);
  wf_count : 0 <= v.(count) <= v.(capacity);
  wf_capacity : VEC_INIT_CAPACITY <= v.(capacity);
  wf_data : zlength v.(data) = v.(capacity) * v.(unit_size);
  wf_fits : v.(capacity) * v.(unit_size) + SIZEOF_VEC_OBJ < SIZE_MODULUS
}.

(** The block can be doubled once more. *)
Definition can_double (v : vec_obj_t) : Prop :=
  2 * (v.(capacity) * v.(unit_size)) + SIZEOF_VEC_OBJ < SIZE_MODULUS.

Definition zeros (n : Z) : list byte := repeat x00 (Z.to_nat n).

(** ** What the specification says about [find] and [replace] *)

(** The bytes of a [const char *] argument in front of its terminator. *)
Definition cstr_bytes (s : list byte) : list byte :=
  firstn (strlen_nat s) s.

(** [p] occurs in [t] at offset [s]. *)
Definition occurs_at (p t : list byte) (s : Z) : Prop :=
  0 <= s /\ s + zlength p <= zlength t
  /\ firstn (length p) (skipn (Z.to_nat s) t) = p.

Definition bytes_eqb (a b : list byte) : bool :=
  if list_eq_dec Byte.byte_eq_dec a b then true else false.

Definition occurs_atb (p t : list byte) (s : nat) : bool :=
  (s + length p <=? length t)%nat
  && bytes_eqb (firstn (length p) (skipn s t)) p.

(** Every starting offset of [p] in [t], in ascending order, overlapping
    occurrences included. *)
Definition spec_find (p t : list byte) : list Z :=
  map Z.of_nat (filter (occurs_atb p t) (seq 0 (length t))).

(** The replacements at the offsets [offs], left to right; every
    replacement moves the offsets behind it, by [moved] so far. *)
Fixpoint splice_each (t : list byte) (offs : list Z) (len_old : Z)
    (new : list byte) (moved : Z) : list byte :=
  match offs with
  | [] => t
  | o :: rest =>
      splice_each
        (firstn (Z.to_nat (o + moved)) t ++ new
         ++ skipn (Z.to_nat (o + moved + len_old)) t)
        rest len_old new (moved + (zlength new - len_old))
  end.

(** "applies replacements left to right at the occurrences reported by
    find, at most limit of them, where every negative limit means all
    occurrences". *)
Definition limited (limit : Z) (offs : list Z) : list Z :=
  if limit <? 0 then offs else firstn (Z.to_nat limit) offs.

Definition spec_replace (t old new : list byte) (limit : Z) : list byte :=
  splice_each t (limited limit (spec_find old t)) (zlength old) new 0.

(** ** Specifications of computations *)

(** When no allocation fails, [m] completes and its result satisfies [Q]. *)
Definition yields {A} (m : M A) (Q : A -> Prop) : Prop :=
  forall h, no_failure h ->
    exists a h', m h = Done (a, h') /\ no_failure h' /\ Q a.

(** When no allocation fails and [m] completes, its result satisfies [Q]. *)
Definition ensures {A} (m : M A) (Q : A -> Prop) : Prop :=
  forall h a h', no_failure h -> m h = Done (a, h') ->
    no_failure h' /\ Q a.

(** ** Index sequences: vectors of [size_t] *)

(** Item [k] of a vector of [size_t]. *)
Definition slot (v : vec_obj_t) (k : Z) : Z :=
  decode_size (firstn 8 (skipn (Z.to_nat (8 * k)) v.(data))).

Definition set_slot (v : vec_obj_t) (k x : Z) : vec_obj_t :=
  set_data v (firstn (Z.to_nat (8 * k)) v.(data) ++ encode_size x
              ++ skipn (Z.to_nat (8 * (k + 1))) v.(data)).

Definition index_wf (v : vec_obj_t) : Prop :=
  vec_wf v /\ v.(unit_size) = SIZEOF_SIZE_T.

(** [v] holds the offsets [xs]. *)
Definition holds_items (v : vec_obj_t) (xs : list Z) : Prop :=
  v.(count) = zlength xs
  /\ forall k, 0 <= k < zlength xs -> slot v k = nth (Z.to_nat k) xs 0.

Definition str_wf (v : vec_obj_t) : Prop :=
  vec_wf v /\ v.(unit_size) = SIZEOF_CHAR.

(** ** Borders: the vocabulary of Knuth, Morris and Pratt *)

(** Byte [i] of a byte sequence. *)
Definition bat (l : list byte) (i : Z) : byte := nth (Z.to_nat i) l x00.

(** [t[s .. s + j)] equals [p[0 .. j)]. *)
Definition matches_upto (p t : list byte) (s j : Z) : Prop :=
  forall k, 0 <= k < j -> bat t (s + k) = bat p k.

(** The first [b] bytes of [p[0 .. q)] are also its last [b] bytes. *)
Definition border (p : list byte) (q b : Z) : Prop :=
  0 <= b <= q /\ forall k, 0 <= k < b -> bat p k = bat p (q - b + k).

(** [b] is the length of the longest proper prefix of [p[0 .. q)] that is
    also a suffix of it. *)
Definition lps_at (p : list byte) (q b : Z) : Prop :=
  border p q b /\ b < q /\ forall c, c < q -> border p q c -> c <= b.

(** Entries [0 .. i) of the table hold the longest borders of the prefixes
    of [p] of lengths [1 .. i]. *)
Definition lps_table (p : list byte) (lps : vec_obj_t) (i : Z) : Prop :=
  forall k, 0 <= k < i -> lps_at p (k + 1) (slot lps k).

(** [found] lists, in ascending order, the occurrences of [p] in [t] that
    start below [bound]. *)
Definition found_below (p t : list byte) (found : list Z) (bound : Z) : Prop :=
  StronglySorted Z.lt found
  /\ forall s, In s found <-> occurs_at p t s /\ s < bound.

(** [found] lists, in ascending order, every occurrence of [p] in [t]. *)
Definition found_all (p t : list byte) (found : list Z) : Prop :=
  StronglySorted Z.lt found
  /\ forall s, In s found <-> occurs_at p t s.

(** [w] has the header of [v]. *)
Definition same_header (v w : vec_obj_t) : Prop :=
  w.(unit_size) = v.(unit_size) /\ w.(capacity) = v.(capacity)
  /\ w.(count) = v.(count).

(** ** tests/test_vec.c *)

(** [sizeof(int)]. *)
Definition SIZEOF_INT : Z := 4.

(** The loop of [test_vec_extend], for [rounds] rounds in place of the 2048
    of the source.  An [assert] that fails ends the program. *)
Definition test_vec_extend_loop (rounds : Z) (vec : vec_obj_t) : M vec_obj_t :=
  for_loop 0 rounds
    (fun _ vec =>
       let old_count := vec_count vec in
       r <- vec_extend vec 1 ;;
       match r with
       | None => crash
       | Some vec =>
           if vec_count vec =? size_add old_count 1 then ret vec else crash
       end)
    vec.

Definition test_vec_extend : M unit :=
  r <- vec_new SIZEOF_INT ;;
  _ <- on_handle r (test_vec_extend_loop 2048) ;;
  ret tt.

(** ** str.c: prefixes, suffixes and ranges *)

(** [strncmp(s1, s2, n)] on the memory that can be read from the two
    pointers: the difference of the first two bytes that differ, [0] when
    the strings end or [n] bytes were compared before that. *)
Fixpoint strncmp (s1 s2 : list byte) (n : nat) {struct n} : outcome Z :=
  match n with
  | O => Done 0
  | Datatypes.S n' =>
      match s1, s2 with
      | c1 :: r1, c2 :: r2 =>
          if negb (Byte.eqb c1 c2) then Done (Z_of_byte c1 - Z_of_byte c2)
          else if Byte.eqb c1 x00 then Done 0
          else strncmp r1 r2 n'
      | _, _ => Crash
      end
  end.

Definition str_startswith (self : vec_obj_t) (sub : list byte)
  : outcome bool :=
  let str_len := str_length self in
  let sub_len := strlen sub in
  if sub_len >? str_len then Done false
  else
    match strncmp self.(data) (cstr_mem sub) (Z.to_nat sub_len) with
    | Crash => Crash
    | Done r => if negb (r =? 0) then Done false else Done true
    end.

Definition str_endswith (self : vec_obj_t) (sub : list byte)
  : outcome bool :=
  let str_len := str_length self in
  let sub_len := strlen sub in
  if sub_len >? str_len then Done false
  else
    match strncmp (ptr_mem self.(data) (str_len - sub_len)) (cstr_mem sub)
            (Z.to_nat sub_len) with
    | Crash => Crash
    | Done r => if negb (r =? 0) then Done false else Done true
    end.

Definition str_range (self : vec_obj_t) (start end_ : Z) : M vec_t :=
  r <- str_empty ;;
  match r with
  | None => ret None
  | Some str =>
      if start =? end_ then ret (Some str)
      else
        let len := str_length self in
        let start := if start >? len then len else start in
        let end_ := if end_ >? len then len else end_ in
        let '(start, end_) :=
          if start >? end_ then (end_, start) else (start, end_) in
        let range_size := size_sub end_ start in
        r <- str_extend str range_size ;;
        match r with
        | None => ret None
        | Some str =>
            str <- vec_copy str 0
                     (ptr_mem self.(data) (vec_ptr_at self start))
                     range_size ;;
            ret (Some str)
        end
  end.

(** [p] is what [t] starts with, or ends with. *)
Definition is_prefix (p t : list byte) : Prop := exists rest, t = p ++ rest.
Definition is_suffix (p t : list byte) : Prop := exists front, t = front ++ p.

(** ** What [str_format] writes *)

(** The text that [snprintf] printed fits [buf], terminator included, and is
    read back whole by [str_append]. *)
Definition fits_buf (text : list byte) : Prop :=
  strlen (snprintf_buf text) = zlength text.

(** No byte of the text is a terminator. *)
Definition nonzero_bytes (l : list byte) : Prop :=
  Forall (fun b => b <> x00) l.

(** What [str_format] asks of an argument: a string is not longer than the
    staging buffer of [vec_copy], the text of a double fits [buf].  The
    text of an integer always does ([arg_text_fits]). *)
Definition arg_fits (a : fmt_arg) : Prop :=
  match a with
  | ArgStr s => strlen s <= VEC_INIT_CAPACITY
  | ArgInt _ | ArgLong _ | ArgULong _ => True
  | ArgDouble g => fits_buf g
  end.

(** The text a format stands for: every byte that is not ['%'] for itself,
    ["%s"], ["%i"], ["%l"], ["%u"] and ["%f"] for the next argument, which
    must be of that kind, any other ["%x"] for ["???"], and a ['%'] that
    ends the format for nothing. *)
Fixpoint render (fmt : list byte) (ap : list fmt_arg) : option (list byte) :=
  match fmt with
  | [] => Some []
  | c :: rest =>
      if negb (Byte.eqb c percent) then option_map (cons c) (render rest ap)
      else
        match rest with
        | [] => Some []
        | d :: rest' =>
            if Byte.eqb d "s"%byte then
              match ap with
              | ArgStr s :: ap' =>
                  option_map (app (cstr_bytes s)) (render rest' ap')
              | _ => None
              end
            else if Byte.eqb d "i"%byte then
              match ap with
              | ArgInt z :: ap' =>
                  option_map (app (decimal (int_value z))) (render rest' ap')
              | _ => None
              end
            else if Byte.eqb d "l"%byte then
              match ap with
              | ArgLong z :: ap' =>
                  option_map (app (decimal (long_long_value z)))
                    (render rest' ap')
              | _ => None
              end
            else if Byte.eqb d "u"%byte then
              match ap with
              | ArgULong z :: ap' =>
                  option_map (app (decimal (unsigned_long_long_value z)))
                    (render rest' ap')
              | _ => None
              end
            else if Byte.eqb d "f"%byte then
              match ap with
              | ArgDouble g :: ap' =>
                  option_map (app g) (render rest' ap')
              | _ => None
              end
            else
              option_map (app (bytes_of_string "???")) (render rest' ap)
        end
  end.

(** A string with room for its terminator, in a block that was at most
    doubled from [cap0] items to hold what the string holds. *)
Definition str_room (cap0 : Z) (v : vec_obj_t) : Prop :=
  str_wf v /\ v.(count) < v.(capacity)
  /\ v.(capacity) <= Z.max cap0 (2 * (v.(count) + 1)).

(** What is left of a format is rendered behind what the string holds, as
    long as the result has at most [N] bytes. *)
Definition renders_rest (cap0 N : Z) (fmt : list byte) : Prop :=
  forall v ap out h,
    str_room cap0 v -> Forall arg_fits ap ->
    render fmt ap = Some out -> v.(count) + zlength out <= N ->
    no_failure h ->
    exists w h',
      str_format_loop fmt (Some v) v.(count) ap h = Done (Some w, h')
      /\ no_failure h' /\ str_room cap0 w
      /\ str_bytes w = str_bytes v ++ out.

(** ** str.c: splitting *)

(** [sizeof(str_t)]. *)
Definition SIZEOF_PTR : Z := 8.

(** [strchr(set, c) != NULL] for a [c] that is not the terminator. *)
Definition in_set (set : list byte) (c : byte) : bool :=
  existsb (Byte.eqb c) (cstr_bytes set).

(** The number of bytes at the start of the memory [m] that satisfy [f];
    a scan that leaves the block has no result. *)
Fixpoint count_while (f : byte -> bool) (m : list byte) : outcome Z :=
  match m with
  | [] => Crash
  | c :: m' =>
      if f c then
        match count_while f m' with
        | Done n => Done (n + 1)
        | Crash => Crash
        end
      else Done 0
  end.

Definition strspn (m accept : list byte) : outcome Z :=
  count_while (fun c => negb (Byte.eqb c x00) && in_set accept c) m.

Definition strcspn (m reject : list byte) : outcome Z :=
  count_while (fun c => negb (Byte.eqb c x00) && negb (in_set reject c)) m.

(** [strtok] on the block [m], continuing at offset [s] (offset [0] for the
    first call, the saved offset for the calls with NULL): the offset of
    the token or NULL, the block, in which the separator that ended the
    token is overwritten, and the offset saved for the next call. *)
Definition strtok (m : list byte) (s : Z) (delim : list byte)
  : M (option Z * list byte * Z) :=
  n <- lift (strspn (ptr_mem m s) delim) ;;
  let s := s + n in
  c <- lift (mem_get m s) ;;
  if Byte.eqb c x00 then ret (None, m, s)
  else
    k <- lift (strcspn (ptr_mem m s) delim) ;;
    let e := s + k in
    c' <- lift (mem_get m e) ;;
    if Byte.eqb c' x00 then ret (Some s, m, e)
    else
      m' <- lift (mem_write m e [x00]) ;;
      ret (Some s, m', e + 1).

(** The strings that the pointers of a [vec_str_t] point to are kept beside
    the vector, in the order of their creation: the pointer to the [k]-th
    of them is [k + 1], and NULL is [0]. *)
Definition str_ptr (store : list vec_obj_t) (r : vec_t)
  : Z * list vec_obj_t :=
  match r with
  | None => (0, store)
  | Some s => (zlength store + 1, store ++ [s])
  end.

(** The [while (token)] loop of [str_split].  Every token has at least one
    byte of the block for itself, so [fuel] bounds the recursion.  The
    result is the vector with its strings, or NULL, and the block of
    [self]. *)
Fixpoint str_split_loop (fuel : nat) (sep m : list byte) (token : option Z)
    (save : Z) (vec_str : vec_obj_t) (store : list vec_obj_t)
  : M (option (vec_obj_t * list vec_obj_t) * list byte) :=
  match fuel with
  | O => crash
  | Datatypes.S fuel' =>
      match token with
      | None => ret (Some (vec_str, store), m)
      | Some tok =>
          tmp <- vec_extend vec_str 1 ;;
          match tmp with
          | None => ret (None, m)
          | Some vec_str =>
              r <- str_new (ptr_mem m tok) ;;
              let '(p, store) := str_ptr store r in
              d <- lift (mem_write vec_str.(data)
                           (size_mul (size_sub (vec_count vec_str) 1)
                              SIZEOF_PTR)
                           (encode_size p)) ;;
              let vec_str := set_data vec_str d in
              ' (token, m, save) <- strtok m save sep ;;
              str_split_loop fuel' sep m token save vec_str store
          end
      end
  end.

(** The result is the vector with its strings, or NULL, and [self], whose
    block [strtok] has written to. *)
Definition str_split (self : vec_obj_t) (sep : list byte)
  : M (option (vec_obj_t * list vec_obj_t) * vec_obj_t) :=
  r <- vec_new SIZEOF_PTR ;;
  match r with
  | None => ret (None, self)
  | Some vec_str =>
      ' (token, m, save) <- strtok self.(data) 0 sep ;;
      ' (res, m) <- str_split_loop (length self.(data) + 1) sep m token save
                      vec_str [] ;;
      ret (res, set_data self m)
  end.


(** The tokens of [t]: the longest runs of bytes that are not in [sep];
    [cur] is the run that is being read. *)
Fixpoint spec_split (sep t cur : list byte) : list (list byte) :=
  match t with
  | [] => match cur with [] => [] | _ => [cur] end
  | c :: t' =>
      if in_set sep c then
        match cur with
        | [] => spec_split sep t' []
        | _ => cur :: spec_split sep t' []
        end
      else spec_split sep t' (cur ++ [c])
  end.

(** The memory at offset [s] of [m] holds the C string [text]. *)
Definition cstring_at (m : list byte) (s : Z) (text : list byte) : Prop :=
  0 <= s /\ Forall (fun c => c <> x00) text
  /\ exists tail, skipn (Z.to_nat s) m = text ++ x00 :: tail.

(** [m'] is [m] with some separators overwritten by terminators. *)
Definition cut_at_separators (sep m m' : list byte) : Prop :=
  length m' = length m
  /\ forall i, nth i m' x00 = nth i m x00
               \/ (nth i m' x00 = x00 /\ in_set sep (nth i m x00) = true).

(** The pointers to the first [n] strings created. *)
Definition ptrs_upto (n : nat) : list Z := map Z.of_nat (seq 1 n).

(* ================================================================== *)
(** * Properties *)
(* ================================================================== *)

(** ** Arithmetic on [size_t] *)

Lemma wrap_small (z : Z) : 0 <= z < SIZE_MODULUS -> wrap z = z.
Proof. intros H. unfold wrap. apply Z.mod_small. exact H. Qed.

Lemma wrap_range (z : Z) : 0 <= wrap z < SIZE_MODULUS.
Proof. unfold wrap. apply Z.mod_pos_bound. reflexivity. Qed.

Lemma size_add_small (a b : Z) :
  0 <= a + b < SIZE_MODULUS -> size_add a b = a + b.
Proof. apply wrap_small. Qed.

Lemma size_sub_small (a b : Z) :
  0 <= a - b < SIZE_MODULUS -> size_sub a b = a - b.
Proof. apply wrap_small. Qed.

Lemma size_mul_small (a b : Z) :
  0 <= a * b < SIZE_MODULUS -> size_mul a b = a * b.
Proof. apply wrap_small. Qed.

Lemma size_sub_zero_one : size_sub 0 1 = SIZE_MAX.
Proof. reflexivity. Qed.

(** ** The allocation script *)

Lemma no_failure_tl (h : heap) : no_failure h -> no_failure (tl h).
Proof.
  intros H. destruct h as [|e h']; simpl; [exact H|].
  inversion H; assumption.
Qed.

Lemma next_alloc_spec (h : heap) :
  next_alloc h
  = Done (if alloc_succeeds h then Some (garbage_of h) else None, tl h).
Proof. destruct h as [|[|g] h']; reflexivity. Qed.

Lemma no_failure_succeeds (h : heap) :
  no_failure h -> alloc_succeeds h = true.
Proof.
  intros H. destruct h as [|[|g] h']; try reflexivity.
  inversion H as [|? ? He]. now contradiction He.
Qed.

(** ** Raw memory *)

Lemma zlength_nonneg {A} (l : list A) : 0 <= zlength l.
Proof. unfold zlength. lia. Qed.

Lemma zlength_app {A} (l1 l2 : list A) :
  zlength (l1 ++ l2) = zlength l1 + zlength l2.
Proof. unfold zlength. rewrite length_app. lia. Qed.

Lemma zlength_zeros (n : Z) : 0 <= n -> zlength (zeros n) = n.
Proof. intros H. unfold zlength, zeros. rewrite repeat_length. lia. Qed.

Lemma length_fresh_bytes g from n : length (fresh_bytes g from n) = n.
Proof. unfold fresh_bytes. now rewrite length_map, length_seq. Qed.

Lemma mem_write_ok (m : list byte) (off : Z) (bs : list byte) :
  0 <= off -> off + zlength bs <= zlength m ->
  mem_write m off bs
  = Done (firstn (Z.to_nat off) m ++ bs
          ++ skipn (Z.to_nat off + length bs) m).
Proof.
  intros H1 H2. unfold mem_write.
  replace (0 <=? off) with true by (symmetry; apply Z.leb_le; exact H1).
  replace (off + zlength bs <=? zlength m) with true
    by (symmetry; apply Z.leb_le; exact H2).
  reflexivity.
Qed.

Lemma mem_read_ok (m : list byte) (off n : Z) :
  0 <= off -> 0 <= n -> off + n <= zlength m ->
  mem_read m off n = Done (firstn (Z.to_nat n) (skipn (Z.to_nat off) m)).
Proof.
  intros H1 H2 H3. unfold mem_read.
  replace (0 <=? off) with true by (symmetry; apply Z.leb_le; exact H1).
  replace (0 <=? n) with true by (symmetry; apply Z.leb_le; exact H2).
  replace (off + n <=? zlength m) with true
    by (symmetry; apply Z.leb_le; exact H3).
  reflexivity.
Qed.

Lemma mem_write_length (m : list byte) (off : Z) (bs m' : list byte) :
  mem_write m off bs = Done m' -> length m' = length m.
Proof.
  unfold mem_write.
  destruct (0 <=? off) eqn:E1; [|discriminate].
  destruct (off + zlength bs <=? zlength m) eqn:E2; [|discriminate].
  simpl. intros H. injection H as <-.
  apply Z.leb_le in E1, E2. unfold zlength in E2.
  rewrite !length_app, length_firstn, length_skipn. lia.
Qed.

Lemma skipn_length_nil {A} (n : nat) (l : list A) :
  (length l <= n)%nat -> skipn n l = [].
Proof. intros H. apply skipn_all2. exact H. Qed.

Lemma vec_size_small (usize cap : Z) :
  0 <= usize * cap -> usize * cap + SIZEOF_VEC_OBJ < SIZE_MODULUS ->
  vec_size usize cap = usize * cap + SIZEOF_VEC_OBJ.
Proof.
  intros H1 H2. unfold vec_size, SIZEOF_VEC_OBJ, SIZE_MODULUS in *.
  rewrite size_mul_small by (unfold SIZE_MODULUS; lia).
  rewrite size_add_small by (unfold SIZE_MODULUS; lia). lia.
Qed.

Lemma vec_new_len_spec (usize cnt : Z) (h : heap) :
  0 <= usize ->
  VEC_INIT_CAPACITY * usize + SIZEOF_VEC_OBJ < SIZE_MODULUS ->
  vec_new_len usize cnt h
  = Done (if alloc_succeeds h
          then Some (mk_vec usize VEC_INIT_CAPACITY cnt
                       (zeros (VEC_INIT_CAPACITY * usize)))
          else None, tl h).
Proof.
  intros Hu Hfit.
  unfold vec_new_len, malloc_obj, bind.
  rewrite next_alloc_spec.
  destruct (alloc_succeeds h); [|reflexivity].
  assert (Hc : 0 <= VEC_INIT_CAPACITY * usize) by (unfold VEC_INIT_CAPACITY; lia).
  rewrite vec_size_small by lia.
  replace (usize * VEC_INIT_CAPACITY + SIZEOF_VEC_OBJ <? SIZEOF_VEC_OBJ)
    with false by (symmetry; apply Z.ltb_ge; lia).
  unfold ret, lift, memset.
  rewrite size_mul_small by (unfold SIZEOF_VEC_OBJ in *; lia).
  rewrite mem_write_ok.
  - simpl firstn. rewrite app_nil_l.
    rewrite skipn_length_nil.
    + rewrite app_nil_r. reflexivity.
    + rewrite length_fresh_bytes, repeat_length. lia.
  - lia.
  - unfold zlength. rewrite length_fresh_bytes, repeat_length. lia.
Qed.

Lemma vec_new_len_ok (usize cnt : Z) (h : heap) :
  0 <= usize ->
  VEC_INIT_CAPACITY * usize + SIZEOF_VEC_OBJ < SIZE_MODULUS ->
  no_failure h ->
  vec_new_len usize cnt h
  = Done (Some (mk_vec usize VEC_INIT_CAPACITY cnt
                  (zeros (VEC_INIT_CAPACITY * usize))), tl h).
Proof.
  intros Hu Hfit Hh. rewrite vec_new_len_spec by assumption.
  rewrite no_failure_succeeds by exact Hh. reflexivity.
Qed.

Lemma geb_true (a b : Z) : b <= a -> (a >=? b) = true.
Proof. intros H. rewrite Z.geb_leb. apply Z.leb_le. exact H. Qed.

Lemma geb_false (a b : Z) : a < b -> (a >=? b) = false.
Proof. intros H. rewrite Z.geb_leb. apply Z.leb_gt. exact H. Qed.

Lemma gtb_true (a b : Z) : b < a -> (a >? b) = true.
Proof. intros H. rewrite Z.gtb_ltb. apply Z.ltb_lt. exact H. Qed.

Lemma gtb_false (a b : Z) : a <= b -> (a >? b) = false.
Proof. intros H. rewrite Z.gtb_ltb. apply Z.ltb_ge. exact H. Qed.

Lemma vec_resize_keep (v : vec_obj_t) (cnt : Z) (h : heap) :
  cnt < v.(capacity) ->
  vec_resize v cnt h
  = Done (Some (mk_vec v.(unit_size) v.(capacity) cnt v.(data)), h).
Proof.
  intros H. unfold vec_resize.
  rewrite geb_false by lia.
  reflexivity.
Qed.

Lemma firstn_app_l {A} (n : nat) (l1 l2 : list A) :
  (n <= length l1)%nat -> firstn n (l1 ++ l2) = firstn n l1.
Proof.
  intros H. rewrite firstn_app.
  replace (n - length l1)%nat with O by lia.
  simpl. apply app_nil_r.
Qed.

Lemma vec_resize_grow_spec (v : vec_obj_t) (cnt : Z) (h : heap) :
  vec_wf v -> can_double v -> v.(capacity) <= cnt ->
  vec_resize v cnt h
  = Done (if alloc_succeeds h
          then Some (mk_vec v.(unit_size) (2 * v.(capacity)) cnt
                  (firstn (Z.to_nat (v.(count) * v.(unit_size))) v.(data)
                   ++ zeros ((2 * v.(capacity) - v.(count)) * v.(unit_size))))
          else None,
          tl h).
Proof.
  intros [Hu Hc Hcap Hd Hfit] Hdbl Hge.
  unfold can_double, VEC_INIT_CAPACITY, SIZEOF_VEC_OBJ in *.
  unfold vec_resize.
  rewrite geb_true by lia.
  assert (Hcu : 0 <= capacity v * unit_size v) by nia.
  assert (Hnu : 0 <= count v * unit_size v <= capacity v * unit_size v) by nia.
  rewrite (size_mul_small (capacity v) 2) by (unfold SIZE_MODULUS in *; nia).
  unfold realloc_obj, bind.
  rewrite next_alloc_spec.
  destruct (alloc_succeeds h); [|reflexivity].
  rewrite vec_size_small by (unfold SIZEOF_VEC_OBJ in *; nia).
  replace (unit_size v * (capacity v * 2) + SIZEOF_VEC_OBJ <? SIZEOF_VEC_OBJ)
    with false by (symmetry; apply Z.ltb_ge; unfold SIZEOF_VEC_OBJ; nia).
  unfold ret, lift, memset.
  rewrite (size_mul_small (count v)) by (unfold SIZE_MODULUS in *; nia).
  rewrite size_sub_small by (unfold SIZE_MODULUS in *; nia).
  rewrite size_mul_small by (unfold SIZE_MODULUS in *; nia).
  unfold zlength in Hd.
  rewrite mem_write_ok.
  - rewrite skipn_length_nil.
    + rewrite app_nil_r.
      rewrite firstn_app_l.
      * rewrite firstn_firstn.
        replace (Init.Nat.min (Z.to_nat (count v * unit_size v))
                   (Z.to_nat (unit_size v * (capacity v * 2) + SIZEOF_VEC_OBJ - SIZEOF_VEC_OBJ)))
          with (Z.to_nat (count v * unit_size v)) by nia.
        unfold zeros.
        replace (capacity v * 2) with (2 * capacity v) by lia.
        reflexivity.
      * rewrite length_firstn. nia.
    + rewrite length_app, length_firstn, length_fresh_bytes, repeat_length. nia.
  - lia.
  - unfold zlength.
    rewrite length_app, length_firstn, length_fresh_bytes, repeat_length. nia.
Qed.

Lemma vec_resize_grow (v : vec_obj_t) (cnt : Z) (h : heap) :
  vec_wf v -> can_double v -> v.(capacity) <= cnt -> no_failure h ->
  vec_resize v cnt h
  = Done (Some (mk_vec v.(unit_size) (2 * v.(capacity)) cnt
                  (firstn (Z.to_nat (v.(count) * v.(unit_size))) v.(data)
                   ++ zeros ((2 * v.(capacity) - v.(count)) * v.(unit_size)))),
          tl h).
Proof.
  intros Hwf Hdbl Hge Hh. rewrite vec_resize_grow_spec by assumption.
  rewrite no_failure_succeeds by exact Hh. reflexivity.
Qed.

(** ** vec_ptr_at *)

Lemma vec_ptr_at_zero (v : vec_obj_t) : vec_ptr_at v 0 = 0.
Proof. reflexivity. Qed.

Lemma vec_ptr_at_inside (v : vec_obj_t) (pos : Z) :
  0 <= pos < v.(count) -> 0 <= v.(unit_size) ->
  v.(count) * v.(unit_size) < SIZE_MODULUS ->
  vec_ptr_at v pos = pos * v.(unit_size).
Proof.
  intros Hp Hu Hfit. unfold vec_ptr_at.
  destruct (pos =? 0) eqn:E.
  - apply Z.eqb_eq in E. subst. reflexivity.
  - rewrite geb_false by lia.
    apply size_mul_small. nia.
Qed.

Lemma vec_ptr_at_clamp (v : vec_obj_t) (pos : Z) :
  1 <= v.(count) -> v.(count) <= pos -> 0 <= v.(unit_size) ->
  v.(count) * v.(unit_size) < SIZE_MODULUS ->
  v.(count) < SIZE_MODULUS ->
  vec_ptr_at v pos = (v.(count) - 1) * v.(unit_size).
Proof.
  intros Hc Hp Hu Hfit Hcs. unfold vec_ptr_at.
  replace (pos =? 0) with false by (symmetry; apply Z.eqb_neq; lia).
  rewrite geb_true by lia.
  rewrite size_sub_small by lia.
  apply size_mul_small. nia.
Qed.

Lemma vec_ptr_at_empty (v : vec_obj_t) (pos : Z) :
  v.(count) = 0 -> 0 < pos ->
  vec_ptr_at v pos = size_mul SIZE_MAX v.(unit_size).
Proof.
  intros Hc Hp. unfold vec_ptr_at.
  replace (pos =? 0) with false by (symmetry; apply Z.eqb_neq; lia).
  rewrite geb_true by lia. rewrite Hc. reflexivity.
Qed.

Lemma size_mul_max (u : Z) :
  1 <= u < SIZE_MODULUS -> size_mul SIZE_MAX u = SIZE_MODULUS - u.
Proof.
  intros H. unfold size_mul, wrap, SIZE_MAX.
  replace (18446744073709551615 * u)
    with ((SIZE_MODULUS - u) + (u - 1) * SIZE_MODULUS)
    by (unfold SIZE_MODULUS; lia).
  rewrite Z.mod_add by (unfold SIZE_MODULUS; lia).
  apply Z.mod_small. lia.
Qed.

Lemma mem_read_crash (m : list byte) (off n : Z) :
  zlength m < off + n -> mem_read m off n = Crash.
Proof.
  intros H. unfold mem_read.
  replace (off + n <=? zlength m) with false by (symmetry; apply Z.leb_gt; lia).
  rewrite andb_false_r. reflexivity.
Qed.

(** ** The header in front of [data] *)

Lemma length_encode_le (n : nat) (z : Z) : length (encode_le n z) = n.
Proof. revert z. induction n as [|n IH]; intros z; simpl; [|rewrite IH]; reflexivity. Qed.

Lemma length_encode_size (z : Z) : length (encode_size z) = 8%nat.
Proof. apply length_encode_le. Qed.

Lemma length_header_bytes (v : vec_obj_t) : length (header_bytes v) = 24%nat.
Proof.
  unfold header_bytes. rewrite !length_app, !length_encode_size. reflexivity.
Qed.

Lemma zlength_block_bytes (v : vec_obj_t) :
  zlength (block_bytes v) = SIZEOF_VEC_OBJ + zlength v.(data).
Proof.
  unfold block_bytes, zlength, SIZEOF_VEC_OBJ.
  rewrite length_app, length_header_bytes. lia.
Qed.

(** A read through a pointer into [data] is a read of [data]. *)
Lemma mem_read_block (v : vec_obj_t) (off n : Z) :
  0 <= off -> off + SIZEOF_VEC_OBJ < SIZE_MODULUS ->
  mem_read (block_bytes v) (block_offset off) n = mem_read v.(data) off n.
Proof.
  intros H0 Hfit. unfold block_offset.
  rewrite wrap_small by (unfold SIZEOF_VEC_OBJ in *; lia).
  unfold mem_read. rewrite zlength_block_bytes.
  unfold SIZEOF_VEC_OBJ.
  replace (0 <=? 24 + off) with true by (symmetry; apply Z.leb_le; lia).
  replace (0 <=? off) with true by (symmetry; apply Z.leb_le; lia).
  replace (24 + off + n <=? 24 + zlength (data v))
    with (off + n <=? zlength (data v))
    by (destruct (off + n <=? zlength (data v)) eqn:E; symmetry;
        [apply Z.leb_le; apply Z.leb_le in E
        |apply Z.leb_gt; apply Z.leb_gt in E]; lia).
  destruct ((true && (0 <=? n)) && (off + n <=? zlength (data v))); [|reflexivity].
  f_equal. f_equal. unfold block_bytes.
  rewrite skipn_app, length_header_bytes.
  rewrite skipn_all2 by (rewrite length_header_bytes; lia).
  cbn [app]. f_equal. lia.
Qed.

Lemma vec_get_in_data (v : vec_obj_t) (pos : Z) :
  0 <= vec_ptr_at v pos -> vec_ptr_at v pos + SIZEOF_VEC_OBJ < SIZE_MODULUS ->
  vec_get v pos = mem_read v.(data) (vec_ptr_at v pos) v.(unit_size).
Proof. intros H0 Hfit. unfold vec_get. apply mem_read_block; assumption. Qed.

(** A pointer of at most [sizeof(vec_obj_t)] bytes in front of [data] lies
    in the header. *)
Lemma block_offset_header (k : Z) :
  1 <= k <= SIZEOF_VEC_OBJ ->
  block_offset (SIZE_MODULUS - k) = SIZEOF_VEC_OBJ - k.
Proof.
  intros H. unfold block_offset, wrap.
  replace (SIZEOF_VEC_OBJ + (SIZE_MODULUS - k))
    with (SIZEOF_VEC_OBJ - k + 1 * SIZE_MODULUS) by lia.
  rewrite Z.mod_add by (unfold SIZE_MODULUS; lia).
  apply Z.mod_small. unfold SIZEOF_VEC_OBJ, SIZE_MODULUS in *. lia.
Qed.

(** A pointer further in front of [data] lies in front of the block. *)
Lemma block_offset_before (k : Z) :
  SIZEOF_VEC_OBJ < k < SIZE_MODULUS ->
  block_offset (SIZE_MODULUS - k) = SIZE_MODULUS + SIZEOF_VEC_OBJ - k.
Proof.
  intros H. unfold block_offset.
  rewrite wrap_small by (unfold SIZEOF_VEC_OBJ, SIZE_MODULUS in *; lia).
  lia.
Qed.

Lemma mem_read_header_tail (v : vec_obj_t) (k : Z) :
  1 <= k <= SIZEOF_VEC_OBJ ->
  mem_read (block_bytes v) (SIZEOF_VEC_OBJ - k) k
  = Done (skipn (Z.to_nat (SIZEOF_VEC_OBJ - k)) (header_bytes v)).
Proof.
  intros H. pose proof (zlength_nonneg (data v)) as Hd.
  rewrite mem_read_ok by (rewrite ?zlength_block_bytes; lia).
  f_equal. unfold block_bytes, SIZEOF_VEC_OBJ in *.
  rewrite skipn_app, length_header_bytes.
  replace (Z.to_nat (24 - k) - 24)%nat with 0%nat by lia.
  cbn [skipn].
  replace (Z.to_nat k)
    with (length (skipn (Z.to_nat (24 - k)) (header_bytes v)))
    by (rewrite length_skipn, length_header_bytes; lia).
  rewrite firstn_app, Nat.sub_diag, firstn_all. cbn [firstn].
  apply app_nil_r.
Qed.

(** C10.  [vec_ptr_at] clamps instead of failing: position [0] is the
    handle itself, and on a vector with at least one item every position
    yields the address of item [min(pos, count - 1)], which lies inside the
    items in use.  On an empty vector a position above [0] is clamped to
    item [count - 1], which wraps around to [SIZE_MAX]: the address is
    [SIZE_MAX * unit_size] (modulo 2^64), that is [unit_size] bytes in front
    of [data] and no item of the vector.  What [vec_get] copies from there
    is no item either: for items of at most [sizeof(vec_obj_t)] bytes it is
    the end of the header of the vector (for a vector of [size_t], its
    [count] field), and for larger items the read starts in front of the
    allocated block. *)
Theorem vec_ptr_at_clamps_to_last_item (v : vec_obj_t) (pos : Z) :
  0 <= pos < SIZE_MODULUS ->
  1 <= v.(unit_size) < SIZE_MODULUS ->
  0 <= v.(count) ->
  v.(count) * v.(unit_size) < SIZE_MODULUS ->
  zlength v.(data) < SIZE_MODULUS ->
  (pos = 0 -> vec_ptr_at v pos = 0)
  /\ (1 <= v.(count) ->
      vec_ptr_at v pos = Z.min pos (v.(count) - 1) * v.(unit_size)
      /\ vec_ptr_at v pos + v.(unit_size) <= v.(count) * v.(unit_size))
  /\ (v.(count) = 0 -> 0 < pos ->
      size_sub v.(count) 1 = SIZE_MAX
      /\ vec_ptr_at v pos = size_mul SIZE_MAX v.(unit_size)
      /\ vec_ptr_at v pos = SIZE_MODULUS - v.(unit_size)
      /\ (v.(unit_size) <= SIZEOF_VEC_OBJ ->
          block_offset (vec_ptr_at v pos) = SIZEOF_VEC_OBJ - v.(unit_size)
          /\ vec_get v pos
             = Done (skipn (Z.to_nat (SIZEOF_VEC_OBJ - v.(unit_size)))
                       (header_bytes v)))
      /\ (v.(unit_size) = SIZEOF_SIZE_T ->
          vec_get v pos = Done (encode_size v.(count)))
      /\ (SIZEOF_VEC_OBJ < v.(unit_size) -> vec_get v pos = Crash)).
Proof.
  intros Hpos Hu Hc Hfit Hlen.
  assert (Hcs : v.(count) < SIZE_MODULUS) by nia.
  split; [|split].
  - intros ->. reflexivity.
  - intros H1.
    assert (E : vec_ptr_at v pos = Z.min pos (count v - 1) * unit_size v).
    { destruct (Z_lt_ge_dec pos (count v)) as [Hlt|Hge].
      + rewrite vec_ptr_at_inside by lia. f_equal. lia.
      + rewrite vec_ptr_at_clamp by lia. f_equal. lia. }
    split; [exact E|]. rewrite E. nia.
  - intros H0 Hp.
    assert (E : vec_ptr_at v pos = SIZE_MODULUS - unit_size v).
    { rewrite vec_ptr_at_empty by assumption. apply size_mul_max. lia. }
    assert (Hhdr : unit_size v <= SIZEOF_VEC_OBJ ->
              block_offset (vec_ptr_at v pos) = SIZEOF_VEC_OBJ - unit_size v
              /\ vec_get v pos
                 = Done (skipn (Z.to_nat (SIZEOF_VEC_OBJ - unit_size v))
                           (header_bytes v))).
    { intros Hsmall.
      assert (Eo : block_offset (vec_ptr_at v pos)
                   = SIZEOF_VEC_OBJ - unit_size v).
      { rewrite E. apply block_offset_header. lia. }
      split; [exact Eo|].
      unfold vec_get. rewrite Eo. apply mem_read_header_tail. lia. }
    split; [rewrite H0; reflexivity|].
    split; [apply vec_ptr_at_empty; assumption|].
    split; [exact E|].
    split; [exact Hhdr|]. split.
    + intros H8. unfold SIZEOF_SIZE_T, SIZEOF_VEC_OBJ in *.
      destruct Hhdr as [_ ->]; [lia|].
      rewrite H8. unfold header_bytes.
      rewrite app_assoc.
      change (Z.to_nat (24 - 8)) with (8 + 8)%nat.
      rewrite <- (length_encode_size (unit_size v)) at 1.
      rewrite <- (length_encode_size (capacity v)) at 1.
      rewrite <- length_app, skipn_app, skipn_all, Nat.sub_diag.
      reflexivity.
    + intros Hbig. unfold vec_get. rewrite E.
      rewrite block_offset_before by lia.
      apply mem_read_crash. rewrite zlength_block_bytes. lia.
Qed.

Lemma vec_ptr_at_clamps_to_last_item_witness :
  vec_ptr_at (mk_vec 8 128 3 (zeros 1024)) 7 = Z.min 7 (3 - 1) * 8
  /\ vec_get (mk_vec 8 128 0 (zeros 1024)) 5 = Done (encode_size 0).
Proof.
  split.
  - refine (proj1 (proj1 (proj2
      (@vec_ptr_at_clamps_to_last_item (mk_vec 8 128 3 (zeros 1024)) 7
         _ _ _ _ _)) _)).
    + unfold SIZE_MODULUS; lia.
    + simpl; unfold SIZE_MODULUS; lia.
    + simpl; lia.
    + simpl; unfold SIZE_MODULUS; lia.
    + vm_compute; reflexivity.
    + simpl; lia.
  - refine (proj1 (proj2 (proj2 (proj2 (proj2 (proj2 (proj2
      (@vec_ptr_at_clamps_to_last_item (mk_vec 8 128 0 (zeros 1024)) 5
         _ _ _ _ _)) _ _))))) _).
    + unfold SIZE_MODULUS; lia.
    + simpl; unfold SIZE_MODULUS; lia.
    + simpl; lia.
    + simpl; unfold SIZE_MODULUS; lia.
    + vm_compute; reflexivity.
    + reflexivity.
    + lia.
    + reflexivity.
Defined.

(** ** vec_copy, vec_set, vec_get *)

Lemma length_firstn_le {A} (n : nat) (l : list A) :
  (n <= length l)%nat -> length (firstn n l) = n.
Proof. intros H. rewrite length_firstn. lia. Qed.

Lemma vec_copy_nothing (v : vec_obj_t) (pos : Z) (items : list byte) (h : heap) :
  vec_copy v pos items 0 h = Done (v, h).
Proof. reflexivity. Qed.

Lemma vec_copy_outside (v : vec_obj_t) (pos : Z) (items : list byte)
    (len : Z) (h : heap) :
  v.(count) <= pos -> vec_copy v pos items len h = Done (v, h).
Proof.
  intros H. unfold vec_copy.
  destruct (len =? 0); [reflexivity|].
  rewrite geb_true by lia. reflexivity.
Qed.

Lemma vec_copy_ok (v : vec_obj_t) (pos : Z) (items : list byte)
    (len : Z) (h : heap) :
  vec_wf v -> 0 <= pos < v.(count) -> 1 <= len ->
  Z.min len (v.(count) - pos) <= VEC_INIT_CAPACITY ->
  Z.min len (v.(count) - pos) * v.(unit_size) <= zlength items ->
  no_failure h ->
  vec_copy v pos items len h
  = Done (set_data v
            (firstn (Z.to_nat (pos * v.(unit_size))) v.(data)
             ++ firstn (Z.to_nat (Z.min len (v.(count) - pos) * v.(unit_size)))
                  items
             ++ skipn (Z.to_nat ((pos + Z.min len (v.(count) - pos))
                                 * v.(unit_size))) v.(data)),
          tl h).
Proof.
  intros [Hu Hc Hcap Hd Hfit] Hpos Hlen Hsmall Hitems Hh.
  unfold VEC_INIT_CAPACITY, SIZEOF_VEC_OBJ in *.
  unfold vec_copy.
  replace (len =? 0) with false by (symmetry; apply Z.eqb_neq; lia).
  rewrite geb_false by lia.
  rewrite size_sub_small by (unfold SIZE_MODULUS in *; nia).
  set (len' := if len >? count v - pos then count v - pos else len).
  assert (El : len' = Z.min len (count v - pos)).
  { unfold len'. destruct (Z_le_gt_dec len (count v - pos)).
    - rewrite gtb_false by lia. lia.
    - rewrite gtb_true by lia. lia. }
  rewrite <- El in *. clearbody len'.
  assert (Hl' : 1 <= len' <= 128) by lia.
  unfold bind.
  rewrite vec_new_len_ok;
    [| lia | unfold VEC_INIT_CAPACITY, SIZEOF_VEC_OBJ; nia | exact Hh].
  cbn [data unit_size].
  rewrite size_mul_small by (unfold SIZE_MODULUS in *; nia).
  unfold lift, ret.
  rewrite mem_read_ok by nia.
  rewrite skipn_O.
  unfold zlength in Hitems, Hd.
  assert (Hst : length (firstn (Z.to_nat (len' * unit_size v)) items)
                = Z.to_nat (len' * unit_size v)).
  { apply length_firstn_le. nia. }
  rewrite mem_write_ok;
    [| lia | rewrite zlength_zeros by (unfold VEC_INIT_CAPACITY; lia);
             unfold zlength; rewrite Hst;
             unfold VEC_INIT_CAPACITY; nia].
  rewrite mem_read_ok;
    [| lia | nia
     | rewrite !zlength_app, Hst;
       match goal with |- context [zlength (skipn ?a ?b)] =>
         pose proof (zlength_nonneg (skipn a b)) end;
       unfold zlength at 1 2; rewrite Hst;
       simpl firstn; simpl length; nia].
  rewrite skipn_O. simpl firstn at 2. rewrite app_nil_l.
  rewrite firstn_app_l by lia.
  rewrite firstn_all2 by lia.
  assert (Hp : vec_ptr_at v pos = pos * unit_size v).
  { apply vec_ptr_at_inside; [lia|lia|unfold SIZE_MODULUS in *; nia]. }
  rewrite Hp.
  rewrite mem_write_ok; [| nia | unfold zlength; rewrite Hst; nia].
  rewrite Hst.
  replace (Z.to_nat (pos * unit_size v) + Z.to_nat (len' * unit_size v))%nat
    with (Z.to_nat ((pos + len') * unit_size v)) by nia.
  reflexivity.
Qed.

(** ** Zero-filled tails *)

Lemma all_zero_zeros (n : Z) : all_zero (zeros n).
Proof.
  unfold all_zero, zeros. apply Forall_forall. intros b Hb.
  apply repeat_spec in Hb. exact Hb.
Qed.

Lemma all_zero_skipn (n : nat) (bs : list byte) :
  all_zero bs -> all_zero (skipn n bs).
Proof.
  unfold all_zero. revert bs. induction n as [|n IH]; intros bs H.
  - exact H.
  - destruct bs as [|b bs]; [constructor|].
    simpl. apply IH. inversion H; assumption.
Qed.

Lemma all_zero_app (l1 l2 : list byte) :
  all_zero l1 -> all_zero l2 -> all_zero (l1 ++ l2).
Proof. unfold all_zero. intros H1 H2. apply Forall_app. split; assumption. Qed.

Lemma vec_new_len_header (usize cnt : Z) (h : heap) (v : vec_obj_t) (h' : heap) :
  vec_new_len usize cnt h = Done (Some v, h') ->
  v.(unit_size) = usize /\ v.(count) = cnt /\ v.(capacity) = VEC_INIT_CAPACITY.
Proof.
  unfold vec_new_len, bind.
  destruct (malloc_obj _ h) as [[[raw|] h1]|]; try discriminate.
  unfold lift. destruct (memset _ _ _ _); try discriminate.
  unfold ret. intros H. injection H as <- _. simpl. auto.
Qed.

Lemma vec_resize_header (v : vec_obj_t) (cnt : Z) (h : heap)
    (w : vec_obj_t) (h' : heap) :
  vec_resize v cnt h = Done (Some w, h') ->
  w.(unit_size) = v.(unit_size) /\ w.(count) = cnt
  /\ w.(capacity) = (if cnt >=? v.(capacity)
                     then size_mul v.(capacity) 2 else v.(capacity)).
Proof.
  unfold vec_resize, bind.
  destruct (cnt >=? capacity v).
  - destruct (realloc_obj _ _ h) as [[[raw|] h1]|]; try discriminate.
    unfold lift. destruct (memset _ _ _ _); try discriminate.
    unfold ret. intros H. injection H as <- _. simpl. auto.
  - unfold ret. intros H. injection H as <- _. simpl. auto.
Qed.

Lemma mem_read_length (m : list byte) (off n : Z) (bs : list byte) :
  mem_read m off n = Done bs -> length bs = Z.to_nat n.
Proof.
  unfold mem_read.
  destruct (0 <=? off) eqn:E1; [|discriminate].
  destruct (0 <=? n) eqn:E2; [|discriminate].
  destruct (off + n <=? zlength m) eqn:E3; [|discriminate].
  simpl. intros H. injection H as <-.
  apply Z.leb_le in E1, E2, E3. unfold zlength in E3.
  rewrite length_firstn, length_skipn. lia.
Qed.

Lemma mem_write_inv (m : list byte) (off : Z) (bs m' : list byte) :
  mem_write m off bs = Done m' ->
  0 <= off /\ off + zlength bs <= zlength m
  /\ m' = firstn (Z.to_nat off) m ++ bs ++ skipn (Z.to_nat off + length bs) m.
Proof.
  unfold mem_write.
  destruct (0 <=? off) eqn:E1; [|discriminate].
  destruct (off + zlength bs <=? zlength m) eqn:E2; [|discriminate].
  simpl. intros H. injection H as <-.
  apply Z.leb_le in E1, E2. auto.
Qed.

Lemma skipn_write_above (m bs : list byte) (off k : nat) :
  (off + length bs <= k)%nat -> (off + length bs <= length m)%nat ->
  skipn k (firstn off m ++ bs ++ skipn (off + length bs) m) = skipn k m.
Proof.
  intros H1 H2.
  rewrite app_assoc.
  rewrite skipn_app.
  rewrite skipn_length_nil
    by (rewrite length_app, length_firstn; lia).
  rewrite length_app, length_firstn_le by lia.
  simpl. rewrite skipn_skipn. f_equal. lia.
Qed.

(** [vec_copy] writes below [count] only: the header and every byte from
    item [count] on are as before. *)
Lemma vec_copy_frame (v : vec_obj_t) (pos : Z) (items : list byte) (len : Z)
    (h : heap) (w : vec_obj_t) (h' : heap) :
  vec_wf v -> 0 <= pos -> 0 <= len ->
  vec_copy v pos items len h = Done (w, h') ->
  w.(unit_size) = v.(unit_size) /\ w.(capacity) = v.(capacity)
  /\ w.(count) = v.(count)
  /\ length w.(data) = length v.(data)
  /\ items_from w v.(count) = items_from v v.(count).
Proof.
  intros [Hu Hc Hcap Hd Hfit] Hpos Hlen.
  unfold VEC_INIT_CAPACITY, SIZEOF_VEC_OBJ in *.
  unfold vec_copy.
  destruct (len =? 0); [intros H; injection H as <- _; auto|].
  destruct (pos >=? count v) eqn:E; [intros H; injection H as <- _; auto|].
  rewrite Z.geb_leb in E. apply Z.leb_gt in E.
  rewrite size_sub_small by (unfold SIZE_MODULUS in *; nia).
  set (len' := if len >? count v - pos then count v - pos else len).
  assert (Hl' : 0 <= len' <= count v - pos).
  { unfold len'. destruct (Z_le_gt_dec len (count v - pos)).
    - rewrite gtb_false by lia. lia.
    - rewrite gtb_true by lia. lia. }
  clearbody len'.
  unfold bind.
  destruct (vec_new_len _ _ h) as [[[buff|] h1]|]; try discriminate.
  unfold lift.
  destruct (mem_read items 0 _) as [staged|]; try discriminate.
  destruct (mem_write (data buff) 0 staged) as [bdata|]; try discriminate.
  destruct (mem_read bdata 0 _) as [staged'|] eqn:Er; try discriminate.
  destruct (mem_write (data v) _ staged') as [d|] eqn:Ew; try discriminate.
  unfold ret. intros H. injection H as <- _. simpl.
  repeat split; try reflexivity.
  - eapply mem_write_length; eassumption.
  - apply mem_read_length in Er.
    apply mem_write_inv in Ew. destruct Ew as (Ho & Hb & ->).
    rewrite vec_ptr_at_inside in * by (try lia; unfold SIZE_MODULUS in *; nia).
    unfold items_from. simpl.
    unfold zlength in *.
    rewrite size_mul_small in * by (unfold SIZE_MODULUS in *; nia).
    apply skipn_write_above; nia.
Qed.

Lemma tail_zero_resize_grow (v : vec_obj_t) (cnt : Z) (h : heap) :
  vec_wf v -> can_double v -> tail_zero v -> v.(count) <= cnt ->
  no_failure h ->
  exists w h', vec_resize v cnt h = Done (Some w, h')
               /\ w.(count) = cnt /\ tail_zero w /\ no_failure h'.
Proof.
  intros Hwf Hdbl Hz Hle Hh.
  destruct (Z_lt_ge_dec cnt (capacity v)) as [Hlt|Hge].
  - rewrite vec_resize_keep by exact Hlt.
    eexists. eexists. split; [reflexivity|]. split; [reflexivity|].
    split; [|exact Hh].
    destruct Hwf as [Hu Hc Hcap Hd Hfit].
    unfold tail_zero, items_from in *. simpl.
    replace (Z.to_nat (cnt * unit_size v))
      with ((Z.to_nat (cnt * unit_size v) - Z.to_nat (count v * unit_size v))
            + Z.to_nat (count v * unit_size v))%nat by nia.
    rewrite <- skipn_skipn. apply all_zero_skipn. exact Hz.
  - rewrite vec_resize_grow by (try assumption; lia).
    eexists. eexists. split; [reflexivity|]. split; [reflexivity|].
    split; [|apply no_failure_tl; exact Hh].
    destruct Hwf as [Hu Hc Hcap Hd Hfit].
    unfold tail_zero, items_from. simpl.
    rewrite skipn_app. unfold zlength in Hd.
    apply all_zero_app.
    + rewrite skipn_length_nil; [constructor|].
      rewrite length_firstn. nia.
    + apply all_zero_skipn, all_zero_zeros.
Qed.

(** C7, as stated, fails: a resize to a smaller count changes [count] only.
    One item ['A'] is written and the vector is resized to 0 items: the
    byte at position 0, now in [[count, capacity)], is still ['A']. *)
Lemma vec_resize_shrink_leaves_bytes :
  exists v w,
    run (r <- vec_new_len 1 1 ;;
         on_handle r (fun v => vec_set v 0 ["A"%byte])) [] = Done v
    /\ tail_zero v
    /\ run (vec_resize v 0) [] = Done (Some w)
    /\ w.(count) = 0
    /\ mem_get w.(data) 0 = Done "A"%byte
    /\ ~ tail_zero w.
Proof.
  eexists. eexists.
  split; [vm_compute; reflexivity|].
  split; [unfold tail_zero, items_from; simpl; apply (all_zero_zeros 127)|].
  split; [vm_compute; reflexivity|].
  split; [reflexivity|]. split; [reflexivity|].
  unfold tail_zero, items_from, all_zero. simpl.
  intros H. inversion H as [|? ? Hb _]. discriminate Hb.
Qed.

(** C7, amended.  Bytes at positions [[count, capacity)] are zero after
    [vec_new_len] (the whole block is zeroed), and they stay zero through
    every [vec_resize] that does not lower [count] and through every
    [vec_copy]; a [vec_resize] below the capacity, so every resize to a
    smaller count, changes [count] only and leaves every byte as it was. *)
Theorem tail_zero_unless_shrunk :
  (forall usize cnt h,
      1 <= usize ->
      VEC_INIT_CAPACITY * usize + SIZEOF_VEC_OBJ < SIZE_MODULUS ->
      no_failure h ->
      exists v h', vec_new_len usize cnt h = Done (Some v, h')
                   /\ v.(count) = cnt /\ all_zero v.(data) /\ tail_zero v)
  /\ (forall v cnt h,
      vec_wf v -> can_double v -> tail_zero v -> v.(count) <= cnt ->
      no_failure h ->
      exists w h', vec_resize v cnt h = Done (Some w, h')
                   /\ w.(count) = cnt /\ tail_zero w)
  /\ (forall v cnt h,
      cnt < v.(capacity) ->
      exists w, vec_resize v cnt h = Done (Some w, h)
                /\ w.(count) = cnt /\ w.(capacity) = v.(capacity)
                /\ w.(data) = v.(data))
  /\ (forall v pos items len h w h',
      vec_wf v -> tail_zero v -> 0 <= pos -> 0 <= len ->
      vec_copy v pos items len h = Done (w, h') ->
      w.(count) = v.(count) /\ tail_zero w).
Proof.
  split; [|split; [|split]].
  - intros usize cnt h Hu Hfit Hh.
    rewrite vec_new_len_ok by (try assumption; lia).
    eexists. eexists. split; [reflexivity|]. split; [reflexivity|].
    simpl. split; [apply all_zero_zeros|].
    unfold tail_zero, items_from. simpl. apply all_zero_skipn, all_zero_zeros.
  - intros v cnt h Hwf Hdbl Hz Hle Hh.
    destruct (tail_zero_resize_grow v cnt h Hwf Hdbl Hz Hle Hh) as (w & h' & H1 & H2 & H3 & _).
    exists w, h'. auto.
  - intros v cnt h Hlt. rewrite vec_resize_keep by exact Hlt.
    eexists. split; [reflexivity|]. simpl. auto.
  - intros v pos items len h w h' Hwf Hz Hpos Hlen Hc.
    destruct (vec_copy_frame _ _ _ _ _ _ _ Hwf Hpos Hlen Hc) as (Hu & Hcap & Hcnt & _ & Hfr).
    split; [exact Hcnt|].
    unfold tail_zero. rewrite Hcnt, Hfr. exact Hz.
Qed.

Lemma tail_zero_unless_shrunk_witness :
  exists w h', vec_resize (mk_vec 1 128 3 (zeros 128)) 200 [] = Done (Some w, h')
               /\ w.(count) = 200 /\ tail_zero w.
Proof.
  apply (proj1 (proj2 tail_zero_unless_shrunk)).
  - constructor; simpl; try lia; try reflexivity.
  - unfold can_double; simpl. unfold SIZEOF_VEC_OBJ, SIZE_MODULUS; lia.
  - unfold tail_zero, items_from; simpl. apply (all_zero_zeros 125).
  - simpl; lia.
  - constructor.
Defined.

(** ** The defects, run on concrete inputs *)

(** C9 (defect of the code).  [str_format] returns before it clears the
    string when the format is empty, although str.h documents "String is
    cleared before usage": the prior content survives. *)
Theorem str_format_empty_fmt_skips_clear :
  (forall v ap h, str_format v [] ap h = Done (Some v, h))
  /\ view (run (new_then "hello" (fun v => str_format v (bytes_of_string "") []))
             [])
     = Done (Some (bytes_of_string "hello"))
  /\ view (run (new_then "hello" (fun v => str_format v (bytes_of_string "%") []))
             [])
     = Done (Some []).
Proof.
  split; [reflexivity|]. split; vm_compute; reflexivity.
Qed.

(** ** Rules for [yields] and [ensures] *)

Lemma yields_ret {A} (a : A) (Q : A -> Prop) : Q a -> yields (ret a) Q.
Proof. intros H h Hh. exists a, h. auto. Qed.

Lemma yields_bind {A B} (m : M A) (k : A -> M B) (P : A -> Prop)
    (Q : B -> Prop) :
  yields m P -> (forall a, P a -> yields (k a) Q) -> yields (bind m k) Q.
Proof.
  intros Hm Hk h Hh. destruct (Hm h Hh) as (a & h1 & E & Hh1 & Pa).
  destruct (Hk a Pa h1 Hh1) as (b & h2 & E2 & Hh2 & Qb).
  exists b, h2. unfold bind. rewrite E. auto.
Qed.

Lemma yields_lift {A} (o : outcome A) (a : A) (Q : A -> Prop) :
  o = Done a -> Q a -> yields (lift o) Q.
Proof. intros -> H h Hh. exists a, h. auto. Qed.

Lemma yields_weaken {A} (m : M A) (P Q : A -> Prop) :
  yields m P -> (forall a, P a -> Q a) -> yields m Q.
Proof.
  intros Hm HPQ h Hh. destruct (Hm h Hh) as (a & h1 & E & Hh1 & Pa).
  exists a, h1. auto.
Qed.

Lemma yields_eq {A} (m : M A) (a : A) (Q : A -> Prop) :
  (forall h, no_failure h -> exists h', m h = Done (a, h') /\ no_failure h') ->
  Q a -> yields m Q.
Proof.
  intros Hm Qa h Hh. destruct (Hm h Hh) as (h' & E & Hh').
  exists a, h'. auto.
Qed.

Lemma ensures_ret {A} (a : A) (Q : A -> Prop) : Q a -> ensures (ret a) Q.
Proof. intros H h b h' Hh E. injection E as <- <-. auto. Qed.

Lemma ensures_crash {A} (Q : A -> Prop) : ensures crash Q.
Proof. intros h b h' Hh E. discriminate E. Qed.

Lemma ensures_bind {A B} (m : M A) (k : A -> M B) (P : A -> Prop)
    (Q : B -> Prop) :
  ensures m P -> (forall a, P a -> ensures (k a) Q) -> ensures (bind m k) Q.
Proof.
  intros Hm Hk h b h' Hh E. unfold bind in E.
  destruct (m h) as [[a h1]|] eqn:Em; [|discriminate].
  destruct (Hm h a h1 Hh Em) as [Hh1 Pa].
  exact (Hk a Pa h1 b h' Hh1 E).
Qed.

Lemma ensures_lift {A} (o : outcome A) :
  ensures (lift o) (fun a => o = Done a).
Proof.
  intros h b h' Hh E. unfold lift in E.
  destruct o; [|discriminate]. injection E as <- <-. auto.
Qed.

Lemma ensures_weaken {A} (m : M A) (P Q : A -> Prop) :
  ensures m P -> (forall a, P a -> Q a) -> ensures m Q.
Proof.
  intros Hm HPQ h a h' Hh E. destruct (Hm h a h' Hh E). auto.
Qed.

Lemma ensures_next_alloc : ensures next_alloc (fun g => g <> None).
Proof.
  intros h g h' Hh E. rewrite next_alloc_spec in E.
  rewrite no_failure_succeeds in E by exact Hh.
  injection E as <- <-. split; [apply no_failure_tl; exact Hh|discriminate].
Qed.

(** Splits a goal [ensures m Q] along the structure of [m]. *)
Ltac ensures_step :=
  match goal with
  | |- ensures (bind (lift _) _) _ =>
      eapply ensures_bind; [apply ensures_lift|intros ? ?]
  | |- ensures (bind _ _) _ => eapply ensures_bind; [|intros ? ?]
  | |- ensures (ret _) _ => apply ensures_ret
  | |- ensures crash _ => apply ensures_crash
  | |- ensures (lift _) _ =>
      eapply ensures_weaken; [apply ensures_lift|intros ? ?]
  | |- ensures (if ?b then _ else _) _ => destruct b eqn:?
  | |- ensures (match ?x with Some _ => _ | None => _ end) _ => destruct x eqn:?
  | |- ensures (on_handle ?x _) _ => destruct x eqn:?; unfold on_handle
  end.

(** Closes a goal that is an inequality between constructors or has a
    hypothesis [x <> x]. *)
Ltac discharge :=
  try (match goal with H : ?x <> ?x |- _ => exfalso; apply H; reflexivity end);
  try discriminate; try congruence; auto.

Lemma ensures_malloc_obj (size : Z) :
  ensures (malloc_obj size) (fun r => r <> None).
Proof.
  unfold malloc_obj. ensures_step; [apply ensures_next_alloc|].
  simpl in *. repeat ensures_step; discharge.
Qed.

Lemma ensures_realloc_obj (old : list byte) (size : Z) :
  ensures (realloc_obj old size) (fun r => r <> None).
Proof.
  unfold realloc_obj. ensures_step; [apply ensures_next_alloc|].
  simpl in *. repeat ensures_step; discharge.
Qed.

Lemma ensures_vec_new_len (usize cnt : Z) :
  ensures (vec_new_len usize cnt) (fun r => r <> None).
Proof.
  unfold vec_new_len. ensures_step; [apply ensures_malloc_obj|].
  simpl in *. repeat ensures_step; discharge.
Qed.

Lemma ensures_vec_resize (v : vec_obj_t) (cnt : Z) :
  ensures (vec_resize v cnt) (fun r => r <> None).
Proof.
  unfold vec_resize. ensures_step.
  - ensures_step; [apply ensures_realloc_obj|].
    simpl in *. repeat ensures_step; discharge.
  - ensures_step. discharge.
Qed.

Lemma ensures_vec_copy (v : vec_obj_t) (pos : Z) (items : list byte) (len : Z) :
  ensures (vec_copy v pos items len) (fun _ => True).
Proof.
  unfold vec_copy.
  ensures_step; [ensures_step; exact I|].
  ensures_step; [ensures_step; exact I|].
  ensures_step; [apply ensures_vec_new_len|].
  simpl in *. repeat ensures_step; exact I.
Qed.


Lemma ensures_vec_set (v : vec_obj_t) (pos : Z) (item : list byte) :
  ensures (vec_set v pos item) (fun _ => True).
Proof. apply ensures_vec_copy. Qed.

Lemma ensures_vec_extend (v : vec_obj_t) (cnt : Z) :
  ensures (vec_extend v cnt) (fun r => r <> None).
Proof. apply ensures_vec_resize. Qed.



Lemma ensures_kmp_lps_loop (pat : list byte) (pat_len : Z) (fuel : nat) :
  forall i len lps,
    ensures (kmp_lps_loop fuel pat pat_len i len lps) (fun _ => True).
Proof.
  induction fuel as [|fuel IH]; intros i len lps; simpl.
  - apply ensures_crash.
  - repeat ensures_step;
      first [exact I | apply IH | apply ensures_vec_set].
Qed.

Lemma ensures_kmp_compute_lps (pat : list byte) (pat_len : Z) (lps : vec_obj_t) :
  ensures (kmp_compute_lps pat pat_len lps) (fun _ => True).
Proof.
  unfold kmp_compute_lps. ensures_step. apply ensures_kmp_lps_loop.
Qed.

Lemma ensures_str_find_loop (self : vec_obj_t) (pat : list byte) (n m : Z)
    (lps : vec_obj_t) (fuel : nat) :
  forall i j pos,
    ensures (str_find_loop fuel self pat n m lps i j pos)
      (fun r => r <> None).
Proof.
  induction fuel as [|fuel IH]; intros i j pos; simpl.
  - apply ensures_crash.
  - ensures_step; [|ensures_step; discharge].
    ensures_step. ensures_step.
    destruct (if Byte.eqb a a0 then (size_add i 1, size_add j 1) else (i, j))
      as [i' j'].
    ensures_step.
    + ensures_step; [apply ensures_vec_extend|].
      simpl in *. ensures_step; [|ensures_step; discharge].
      ensures_step; [apply ensures_vec_set|].
      ensures_step. apply IH.
    + repeat ensures_step; apply IH.
Qed.

(** Without a failed allocation [str_find] returns NULL for the empty
    pattern only. *)
Lemma ensures_str_find (self : vec_obj_t) (pat : list byte) :
  ensures (str_find self pat) (fun r => strlen pat <> 0 -> r <> None).
Proof.
  unfold str_find.
  ensures_step.
  - ensures_step. intros H. apply Z.eqb_eq in Heqb. contradiction.
  - ensures_step; [apply ensures_vec_new_len|].
    simpl in *. ensures_step; [|ensures_step; discharge].
    ensures_step; [apply ensures_vec_new_len|].
    simpl in *. ensures_step; [|ensures_step; discharge].
    ensures_step; [apply ensures_kmp_compute_lps|].
    eapply ensures_weaken; [apply ensures_str_find_loop|].
    simpl. auto.
Qed.





(** ** [size_t] items in memory *)

Lemma Z_of_byte_of_Z (z : Z) : Z_of_byte (byte_of_Z z) = z mod 256.
Proof.
  unfold Z_of_byte, byte_of_Z.
  assert (Hr : 0 <= z mod 256 < 256) by (apply Z.mod_pos_bound; lia).
  destruct (Byte.of_N (Z.to_N (z mod 256))) as [b|] eqn:E.
  - apply Byte.to_of_N in E. rewrite E. lia.
  - apply Byte.of_N_None_iff in E. lia.
Qed.

Lemma decode_encode_le (n : nat) (z : Z) :
  0 <= z < 256 ^ Z.of_nat n -> decode_le (encode_le n z) = z.
Proof.
  revert z. induction n as [|n IH]; intros z Hz.
  - simpl in *. lia.
  - cbn [encode_le decode_le]. rewrite Z_of_byte_of_Z.
    rewrite IH.
    + pose proof (Z.div_mod z 256). lia.
    + rewrite Nat2Z.inj_succ, Z.pow_succ_r in Hz by lia.
      split; [apply Z.div_pos; lia|].
      apply Z.div_lt_upper_bound; lia.
Qed.

Lemma decode_encode_size (z : Z) :
  0 <= z < SIZE_MODULUS -> decode_size (encode_size z) = z.
Proof. intros H. apply (decode_encode_le 8). exact H. Qed.



(** ** Reading and writing the items of an index sequence *)

Lemma firstn_skipn_write_same (m bs : list byte) (off : nat) :
  (off + length bs <= length m)%nat ->
  firstn (length bs)
    (skipn off (firstn off m ++ bs ++ skipn (off + length bs) m)) = bs.
Proof.
  intros H.
  rewrite skipn_app, length_firstn_le by lia.
  rewrite skipn_length_nil by (rewrite length_firstn; lia).
  replace (off - off)%nat with O by lia. simpl.
  rewrite firstn_app_l by lia. apply firstn_all.
Qed.

Lemma firstn_skipn_write_below (m bs : list byte) (off k n : nat) :
  (off + length bs <= length m)%nat -> (k + n <= off)%nat ->
  firstn n (skipn k (firstn off m ++ bs ++ skipn (off + length bs) m))
  = firstn n (skipn k m).
Proof.
  intros H1 H2.
  rewrite skipn_app, length_firstn_le by lia.
  replace (k - off)%nat with O by lia. rewrite skipn_O.
  rewrite firstn_app_l by (rewrite length_skipn, length_firstn; lia).
  rewrite skipn_firstn_comm, firstn_firstn.
  f_equal. lia.
Qed.

Lemma firstn_skipn_write_above (m bs : list byte) (off k n : nat) :
  (off + length bs <= length m)%nat -> (off + length bs <= k)%nat ->
  firstn n (skipn k (firstn off m ++ bs ++ skipn (off + length bs) m))
  = firstn n (skipn k m).
Proof.
  intros H1 H2. rewrite skipn_write_above by lia. reflexivity.
Qed.

Lemma set_slot_header (v : vec_obj_t) (k x : Z) :
  (set_slot v k x).(unit_size) = v.(unit_size)
  /\ (set_slot v k x).(capacity) = v.(capacity)
  /\ (set_slot v k x).(count) = v.(count).
Proof. auto. Qed.

Lemma set_slot_length (v : vec_obj_t) (k x : Z) :
  index_wf v -> 0 <= k < v.(capacity) ->
  length (set_slot v k x).(data) = length v.(data).
Proof.
  intros [[Hu Hc Hcap Hd Hfit] H8] Hk.
  unfold SIZEOF_SIZE_T, zlength in *. rewrite H8 in *.
  unfold set_slot, set_data. cbn [data].
  rewrite !length_app, length_firstn, length_skipn, length_encode_size. lia.
Qed.

Lemma set_slot_wf (v : vec_obj_t) (k x : Z) :
  index_wf v -> 0 <= k < v.(capacity) -> index_wf (set_slot v k x).
Proof.
  intros Hwf Hk. pose proof (set_slot_length v k x Hwf Hk) as Hl.
  destruct Hwf as [[Hu Hc Hcap Hd Hfit] H8].
  split; [|exact H8].
  constructor; try assumption.
  unfold zlength in *. rewrite Hl. exact Hd.
Qed.

Lemma slot_set_slot_same (v : vec_obj_t) (k x : Z) :
  index_wf v -> 0 <= k < v.(capacity) -> 0 <= x < SIZE_MODULUS ->
  slot (set_slot v k x) k = x.
Proof.
  intros [[Hu Hc Hcap Hd Hfit] H8] Hk Hx.
  unfold SIZEOF_SIZE_T, zlength in *. rewrite H8 in *.
  unfold slot, set_slot, set_data. cbn [data].
  replace (Z.to_nat (8 * (k + 1)))
    with (Z.to_nat (8 * k) + length (encode_size x))%nat
    by (rewrite length_encode_size; lia).
  rewrite <- (length_encode_size x) at 1.
  rewrite firstn_skipn_write_same by (rewrite length_encode_size; lia).
  apply decode_encode_size. exact Hx.
Qed.

Lemma slot_set_slot_other (v : vec_obj_t) (k x j : Z) :
  index_wf v -> 0 <= k < v.(capacity) -> 0 <= j -> j <> k ->
  slot (set_slot v k x) j = slot v j.
Proof.
  intros [[Hu Hc Hcap Hd Hfit] H8] Hk Hj Hne.
  unfold SIZEOF_SIZE_T, zlength in *. rewrite H8 in *.
  unfold slot, set_slot, set_data. cbn [data]. f_equal.
  replace (Z.to_nat (8 * (k + 1)))
    with (Z.to_nat (8 * k) + length (encode_size x))%nat
    by (rewrite length_encode_size; lia).
  destruct (Z_lt_ge_dec j k).
  - apply firstn_skipn_write_below; rewrite ?length_encode_size; lia.
  - apply firstn_skipn_write_above; rewrite ?length_encode_size; lia.
Qed.

Lemma vec_set_index (v : vec_obj_t) (k x : Z) :
  index_wf v -> 0 <= k < v.(count) ->
  yields (vec_set v k (encode_size x)) (fun w => w = set_slot v k x).
Proof.
  intros [Hwf H8] Hk h Hh.
  pose proof Hwf as [Hu Hc Hcap Hd Hfit].
  unfold SIZEOF_SIZE_T in *.
  exists (set_slot v k x), (tl h).
  split; [|split; [apply no_failure_tl; exact Hh|reflexivity]].
  unfold vec_set. rewrite vec_copy_ok; try assumption; try lia.
  - unfold set_slot. rewrite H8.
    replace (Z.min 1 (count v - k)) with 1 by lia.
    rewrite <- (length_encode_size x) at 1.
    replace (Z.to_nat (1 * 8)) with (length (encode_size x))
      by (rewrite length_encode_size; reflexivity).
    rewrite firstn_all.
    replace (k * 8) with (8 * k) by lia.
    replace ((k + 1) * 8) with (8 * (k + 1)) by lia.
    reflexivity.
  - unfold VEC_INIT_CAPACITY. lia.
  - unfold zlength. rewrite length_encode_size, H8. lia.
Qed.

Lemma vec_get_index (v : vec_obj_t) (k : Z) :
  index_wf v -> 0 <= k < v.(count) ->
  exists w, vec_get v k = Done w /\ decode_size w = slot v k.
Proof.
  intros [[Hu Hc Hcap Hd Hfit] H8] Hk.
  unfold SIZEOF_SIZE_T in *.
  assert (E : vec_ptr_at v k = k * unit_size v).
  { apply vec_ptr_at_inside; try lia.
    unfold SIZEOF_VEC_OBJ, SIZE_MODULUS in *; nia. }
  rewrite vec_get_in_data by (rewrite E; unfold SIZEOF_VEC_OBJ in *; nia).
  rewrite E.
  unfold SIZEOF_VEC_OBJ in *.
  rewrite H8. rewrite mem_read_ok by nia.
  eexists. split; [reflexivity|].
  unfold slot. replace (k * 8) with (8 * k) by lia. reflexivity.
Qed.

Lemma yields_vec_get_index (v : vec_obj_t) (k : Z) :
  index_wf v -> 0 <= k < v.(count) ->
  yields (lift (vec_get v k)) (fun w => decode_size w = slot v k).
Proof.
  intros Hwf Hk. destruct (vec_get_index v k Hwf Hk) as (w & E & Hw).
  eapply yields_lift; eassumption.
Qed.

(** ** Borders *)

Lemma border_zero (p : list byte) (q : Z) : 0 <= q -> border p q 0.
Proof. intros H. split; [lia|]. intros k Hk. lia. Qed.

Lemma border_extend (p : list byte) (i len : Z) :
  border p i len -> bat p i = bat p len -> border p (i + 1) (len + 1).
Proof.
  intros [Hr Hb] He. split; [lia|]. intros k Hk.
  destruct (Z.eq_dec k len) as [->|Hne].
  - replace (i + 1 - (len + 1) + len) with i by lia. symmetry. exact He.
  - rewrite Hb by lia. f_equal. lia.
Qed.

Lemma border_shrink (p : list byte) (i c : Z) :
  border p (i + 1) c -> 1 <= c ->
  border p i (c - 1) /\ bat p (c - 1) = bat p i.
Proof.
  intros [Hr Hb] Hc. split.
  - split; [lia|]. intros k Hk. rewrite Hb by lia. f_equal. lia.
  - rewrite Hb by lia. f_equal. lia.
Qed.

Lemma border_trans (p : list byte) (i len b : Z) :
  border p i len -> border p len b -> border p i b.
Proof.
  intros [Hr1 Hb1] [Hr2 Hb2]. split; [lia|]. intros k Hk.
  rewrite Hb2 by lia. rewrite Hb1 by lia. f_equal. lia.
Qed.

Lemma border_of_border (p : list byte) (i len b : Z) :
  border p i len -> border p i b -> b <= len -> border p len b.
Proof.
  intros [Hr1 Hb1] [Hr2 Hb2] Hle. split; [lia|]. intros k Hk.
  rewrite Hb2 by lia. rewrite (Hb1 (len - b + k)) by lia. f_equal. lia.
Qed.

Lemma lps_at_unique (p : list byte) (q b c : Z) :
  lps_at p q b -> lps_at p q c -> b = c.
Proof.
  intros (Hb1 & Hb2 & Hb3) (Hc1 & Hc2 & Hc3).
  pose proof (Hb3 c Hc2 Hc1). pose proof (Hc3 b Hb2 Hb1). lia.
Qed.

(** The entry for position [i] when [pat[i] == pat[len]]. *)
Lemma lps_at_extend (p : list byte) (i len : Z) :
  0 <= len < i -> border p i len -> bat p i = bat p len ->
  (forall c, border p i c -> c < i -> len < c -> bat p c <> bat p i) ->
  lps_at p (i + 1) (len + 1).
Proof.
  intros Hr Hb He Href. split; [|split].
  - apply border_extend; assumption.
  - lia.
  - intros c Hc Hbc.
    destruct (Z_le_gt_dec c (len + 1)) as [?|Hgt]; [assumption|exfalso].
    destruct (border_shrink p i c Hbc) as [Hb' He']; [lia|].
    apply (Href (c - 1)); try assumption; lia.
Qed.

(** The entry for position [i] when no border can be extended. *)
Lemma lps_at_none (p : list byte) (i : Z) :
  0 < i -> bat p i <> bat p 0 ->
  (forall c, border p i c -> c < i -> 0 < c -> bat p c <> bat p i) ->
  lps_at p (i + 1) 0.
Proof.
  intros Hi Hne Href. split; [|split].
  - apply border_zero. lia.
  - lia.
  - intros c Hc Hbc.
    destruct (Z_le_gt_dec c 0) as [?|Hgt]; [assumption|exfalso].
    destruct (border_shrink p i c Hbc) as [Hb' He']; [lia|].
    destruct (Z.eq_dec c 1) as [->|Hc1].
    + apply Hne. symmetry. exact He'.
    + apply (Href (c - 1)); try assumption; lia.
Qed.

(** The candidates that remain after a mismatch at [len]. *)
Lemma border_fallback (p : list byte) (i len len' : Z) :
  0 < len < i -> border p i len -> bat p i <> bat p len ->
  (forall c, border p i c -> c < i -> len < c -> bat p c <> bat p i) ->
  lps_at p len len' ->
  border p i len'
  /\ 0 <= len' < len
  /\ (forall c, border p i c -> c < i -> len' < c -> bat p c <> bat p i).
Proof.
  intros Hr Hb Hne Href (Hb' & Hlt & Hmax).
  split; [eapply border_trans; eassumption|].
  split; [destruct Hb'; lia|].
  intros c Hbc Hci Hc.
  destruct (Z_lt_ge_dec len c) as [Hgt|Hle]; [apply Href; assumption|].
  destruct (Z.eq_dec c len) as [->|Hcl]; [congruence|].
  exfalso.
  assert (Hbl : border p len c) by (eapply border_of_border; eauto; lia).
  pose proof (Hmax c ltac:(lia) Hbl). lia.
Qed.

(** ** Reading the text and the pattern *)

Lemma strlen_nat_le (s : list byte) : (strlen_nat s <= length s)%nat.
Proof.
  induction s as [|c s IH]; simpl; [lia|].
  destruct (Byte.eqb c x00); simpl; lia.
Qed.

Lemma zlength_cstr_bytes (s : list byte) : zlength (cstr_bytes s) = strlen s.
Proof.
  unfold zlength, cstr_bytes, strlen.
  rewrite length_firstn_le by apply strlen_nat_le. reflexivity.
Qed.

Lemma strlen_nonneg (s : list byte) : 0 <= strlen s.
Proof. unfold strlen. lia. Qed.

Lemma mem_get_nth (m : list byte) (i : Z) :
  0 <= i < zlength m -> mem_get m i = Done (bat m i).
Proof.
  intros H. unfold mem_get, bat, zlength in *.
  replace (0 <=? i) with true by (symmetry; apply Z.leb_le; lia).
  rewrite (nth_error_nth' m x00) by lia. reflexivity.
Qed.

Lemma bat_firstn (m : list byte) (n : nat) (i : Z) :
  0 <= i < Z.of_nat n -> bat (firstn n m) i = bat m i.
Proof.
  intros H. unfold bat. rewrite nth_firstn.
  replace (Z.to_nat i <? n)%nat with true
    by (symmetry; apply Nat.ltb_lt; lia).
  reflexivity.
Qed.

Lemma bat_app_l (l1 l2 : list byte) (i : Z) :
  0 <= i < zlength l1 -> bat (l1 ++ l2) i = bat l1 i.
Proof.
  intros H. unfold bat, zlength in *. apply app_nth1. lia.
Qed.

Lemma cstr_at_pat (pat : list byte) (j : Z) :
  0 <= j < strlen pat -> cstr_at pat j = Done (bat (cstr_bytes pat) j).
Proof.
  intros H. unfold cstr_at, cstr_mem.
  pose proof (strlen_nat_le pat) as Hle. unfold strlen in H.
  rewrite mem_get_nth by (rewrite zlength_app; unfold zlength; simpl; lia).
  rewrite bat_app_l by (unfold zlength; lia).
  unfold cstr_bytes. rewrite bat_firstn by lia. reflexivity.
Qed.

Lemma mem_get_str (self : vec_obj_t) (i : Z) :
  str_wf self -> 0 <= i < self.(count) ->
  mem_get self.(data) i = Done (bat (str_bytes self) i).
Proof.
  intros [[Hu Hc Hcap Hd Hfit] H1] Hi. unfold SIZEOF_CHAR in *.
  rewrite mem_get_nth by lia.
  unfold str_bytes. rewrite bat_firstn by lia. reflexivity.
Qed.

Lemma zlength_str_bytes (self : vec_obj_t) :
  str_wf self -> zlength (str_bytes self) = self.(count).
Proof.
  intros [[Hu Hc Hcap Hd Hfit] H1]. unfold SIZEOF_CHAR, zlength, str_bytes in *.
  rewrite length_firstn_le by lia. lia.
Qed.

Lemma byte_eqb_true (a b : byte) : Byte.eqb a b = true <-> a = b.
Proof.
  split; [apply Byte.byte_dec_bl|apply Byte.byte_dec_lb].
Qed.

Lemma byte_eqb_false (a b : byte) : Byte.eqb a b = false <-> a <> b.
Proof.
  split; [apply Byte.eqb_false|].
  intros H. destruct (Byte.eqb a b) eqn:E; [|reflexivity].
  apply byte_eqb_true in E. contradiction.
Qed.

Lemma yields_bind_lift {A B} (o : outcome A) (a : A) (k : A -> M B)
    (Q : B -> Prop) :
  o = Done a -> yields (k a) Q -> yields (bind (lift o) k) Q.
Proof.
  intros -> Hk h Hh. destruct (Hk h Hh) as (b & h' & E & Hh' & Qb).
  exists b, h'. unfold bind, lift. auto.
Qed.

Lemma ltb_true (a b : Z) : a < b -> (a <? b) = true.
Proof. apply Z.ltb_lt. Qed.

Lemma ltb_false (a b : Z) : b <= a -> (a <? b) = false.
Proof. apply Z.ltb_ge. Qed.

Lemma eqb_false (a b : Z) : a <> b -> (a =? b) = false.
Proof. apply Z.eqb_neq. Qed.

(** *** kmp_compute_lps *)

Lemma kmp_lps_loop_yields (pat : list byte) (m : Z) (fuel : nat) :
  m = strlen pat ->
  forall i len lps,
    index_wf lps -> lps.(count) = m ->
    1 <= i <= m -> 0 <= len < i ->
    border (cstr_bytes pat) i len ->
    (i < m -> forall c, border (cstr_bytes pat) i c -> c < i -> len < c ->
              bat (cstr_bytes pat) c <> bat (cstr_bytes pat) i) ->
    lps_table (cstr_bytes pat) lps i ->
    2 * (m - i) + len < Z.of_nat fuel ->
    yields (kmp_lps_loop fuel pat m i len lps)
      (fun lps' => index_wf lps' /\ lps'.(count) = m
                   /\ lps_table (cstr_bytes pat) lps' m).
Proof.
  intros Hm. set (p := cstr_bytes pat).
  induction fuel as [|fuel IH];
    intros i len lps Hwf Hcnt Hi Hlen Hb Href Htab Hfuel; [lia|].
  assert (Hms : m + 1 < SIZE_MODULUS).
  { destruct Hwf as [[? ? ? ? ?] H8]. unfold SIZEOF_SIZE_T, SIZEOF_VEC_OBJ in *.
    unfold SIZE_MODULUS in *. nia. }
  assert (Hcap : m <= lps.(capacity)) by (destruct Hwf as [[? ? ? ? ?] ?]; lia).
  cbn [kmp_lps_loop].
  destruct (Z_lt_ge_dec i m) as [Hlt|Hge].
  - rewrite ltb_true by lia.
    eapply yields_bind_lift; [apply cstr_at_pat; lia|].
    eapply yields_bind_lift; [apply cstr_at_pat; lia|].
    fold p. specialize (Href Hlt).
    destruct (Byte.eqb (bat p i) (bat p len)) eqn:E.
    + apply byte_eqb_true in E.
      rewrite !size_add_small by lia.
      assert (Hnew : lps_at p (i + 1) (len + 1))
        by (apply lps_at_extend; assumption).
      eapply yields_bind; [apply vec_set_index; [exact Hwf|lia]|].
      intros w ->. apply IH.
      * apply set_slot_wf; [exact Hwf|lia].
      * exact Hcnt.
      * lia.
      * lia.
      * apply border_extend; assumption.
      * intros _ c Hbc Hc1 Hc2. exfalso.
        destruct Hnew as (_ & _ & Hmax). specialize (Hmax c Hc1 Hbc). lia.
      * intros k Hk. destruct (Z.eq_dec k i) as [->|Hne].
        -- rewrite slot_set_slot_same by (try exact Hwf; lia). exact Hnew.
        -- rewrite slot_set_slot_other by (try exact Hwf; lia).
           apply Htab. lia.
      * lia.
    + apply byte_eqb_false in E.
      destruct (Z.eq_dec len 0) as [->|Hl0].
      * cbn [Z.eqb negb].
        rewrite !size_add_small by lia.
        assert (Hnew : lps_at p (i + 1) 0).
        { apply lps_at_none; [lia|exact E|].
          intros c Hbc Hc1 Hc2. apply Href; assumption. }
        eapply yields_bind; [apply vec_set_index; [exact Hwf|lia]|].
        intros w ->. apply IH.
        -- apply set_slot_wf; [exact Hwf|lia].
        -- exact Hcnt.
        -- lia.
        -- lia.
        -- apply border_zero. lia.
        -- intros _ c Hbc Hc1 Hc2. exfalso.
           destruct Hnew as (_ & _ & Hmax). specialize (Hmax c Hc1 Hbc). lia.
        -- intros k Hk. destruct (Z.eq_dec k i) as [->|Hne].
           ++ rewrite slot_set_slot_same
                by (try exact Hwf; unfold SIZE_MODULUS; lia).
              exact Hnew.
           ++ rewrite slot_set_slot_other by (try exact Hwf; lia).
              apply Htab. lia.
        -- lia.
      * rewrite eqb_false by exact Hl0. cbn [negb].
        rewrite size_sub_small by lia.
        destruct (vec_get_index lps (len - 1) Hwf ltac:(lia)) as (w & Ew & Hw).
        eapply yields_bind_lift; [exact Ew|]. rewrite Hw.
        pose proof (Htab (len - 1) ltac:(lia)) as Hl.
        replace (len - 1 + 1) with len in Hl by lia.
        destruct (border_fallback p i len (slot lps (len - 1)))
          as (Hb' & Hr' & Href'); try assumption; try lia.
        apply IH; try assumption; try lia.
        intros _. exact Href'.
  - rewrite ltb_false by lia.
    apply yields_ret. split; [exact Hwf|]. split; [exact Hcnt|].
    replace m with i by lia. exact Htab.
Qed.

Lemma kmp_compute_lps_yields (pat : list byte) (m : Z) (lps : vec_obj_t) :
  m = strlen pat -> 1 <= m -> index_wf lps -> lps.(count) = m ->
  yields (kmp_compute_lps pat m lps)
    (fun lps' => index_wf lps' /\ lps'.(count) = m
                 /\ lps_table (cstr_bytes pat) lps' m).
Proof.
  intros Hm Hm1 Hwf Hcnt. unfold kmp_compute_lps.
  pose proof Hwf as [[Hu Hc Hcap Hd Hfit] H8].
  unfold SIZEOF_SIZE_T, VEC_INIT_CAPACITY in *.
  eapply yields_bind_lift.
  { apply mem_write_ok; [lia|].
    unfold zlength at 1. rewrite length_encode_size. lia. }
  change (set_data lps _) with (set_slot lps 0 0).
  apply kmp_lps_loop_yields; try assumption; try lia.
  - apply set_slot_wf; [exact Hwf|lia].
  - apply border_zero. lia.
  - intros k Hk. replace k with 0 by lia.
    rewrite slot_set_slot_same by (try exact Hwf; unfold SIZE_MODULUS; lia).
    split; [apply border_zero; lia|]. split; [lia|].
    intros c Hc1 _. lia.
Qed.

(** ** Occurrences *)

Lemma occurs_at_pointwise (p t : list byte) (s : Z) :
  occurs_at p t s
  <-> 0 <= s /\ s + zlength p <= zlength t
      /\ matches_upto p t s (zlength p).
Proof.
  unfold occurs_at, matches_upto, zlength, bat. split.
  - intros (H0 & H1 & H2). split; [exact H0|]. split; [exact H1|].
    intros k Hk.
    transitivity (nth (Z.to_nat k)
                    (firstn (length p) (skipn (Z.to_nat s) t)) x00);
      [|rewrite H2; reflexivity].
    rewrite nth_firstn.
    replace (Z.to_nat k <? length p)%nat with true
      by (symmetry; apply Nat.ltb_lt; lia).
    rewrite nth_skipn. f_equal. lia.
  - intros (H0 & H1 & H2). split; [exact H0|]. split; [exact H1|].
    apply (nth_ext _ _ x00 x00).
    + rewrite length_firstn, length_skipn. lia.
    + intros k Hk. rewrite length_firstn, length_skipn in Hk.
      rewrite nth_firstn.
      replace (k <? length p)%nat with true
        by (symmetry; apply Nat.ltb_lt; lia).
      rewrite nth_skipn.
      specialize (H2 (Z.of_nat k) ltac:(lia)).
      rewrite Nat2Z.id in H2. rewrite <- H2. f_equal. lia.
Qed.

Lemma matches_extend (p t : list byte) (i j : Z) :
  0 <= j -> matches_upto p t (i - j) j -> bat t i = bat p j ->
  matches_upto p t (i + 1 - (j + 1)) (j + 1).
Proof.
  intros Hj Hm He k Hk. replace (i + 1 - (j + 1)) with (i - j) by lia.
  destruct (Z.eq_dec k j) as [->|Hne].
  - replace (i - j + j) with i by lia. exact He.
  - apply Hm. lia.
Qed.

Lemma matches_fallback (p t : list byte) (i j b : Z) :
  matches_upto p t (i - j) j -> border p j b ->
  matches_upto p t (i - b) b.
Proof.
  intros Hm [Hr Hb] k Hk.
  rewrite (Hb k) by lia. rewrite <- Hm by lia. f_equal. lia.
Qed.

(** A mismatch behind [j] matched bytes rules out the occurrence at
    [i - j]. *)
Lemma no_occurrence_at_mismatch (p t : list byte) (i j : Z) :
  0 <= j < zlength p -> bat t i <> bat p j -> ~ occurs_at p t (i - j).
Proof.
  intros Hj Hne Ho. apply occurs_at_pointwise in Ho.
  destruct Ho as (_ & _ & Hm). apply Hne.
  rewrite <- Hm by lia. f_equal. lia.
Qed.

(** Between the candidate [i - j] and the one the table falls back to,
    nothing can start. *)
Lemma no_occurrence_between (p t : list byte) (i j b s : Z) :
  matches_upto p t (i - j) j -> j <= zlength p -> lps_at p j b ->
  i - j < s < i - b -> ~ occurs_at p t s.
Proof.
  intros Hm Hj (Hb & Hbj & Hmax) Hs Ho.
  apply occurs_at_pointwise in Ho. destruct Ho as (Hs0 & Hsn & Hms).
  assert (Hbc : border p j (i - s)).
  { destruct Hb as [Hbr _]. split; [lia|]. intros k Hk.
    rewrite <- Hms by lia. rewrite <- Hm by lia. f_equal. lia. }
  specialize (Hmax (i - s) ltac:(lia) Hbc). lia.
Qed.

Lemma found_below_skip (p t : list byte) (found : list Z) (b b' : Z) :
  found_below p t found b -> b <= b' ->
  (forall s, b <= s < b' -> ~ occurs_at p t s) ->
  found_below p t found b'.
Proof.
  intros [Hs Hin] Hle Hno. split; [exact Hs|].
  intros s. rewrite Hin. split.
  - intros [Ho Hlt]. split; [exact Ho|lia].
  - intros [Ho Hlt]. split; [exact Ho|].
    destruct (Z_lt_ge_dec s b) as [?|Hge]; [assumption|].
    exfalso. apply (Hno s); [lia|exact Ho].
Qed.

Lemma StronglySorted_snoc (l : list Z) (x : Z) :
  StronglySorted Z.lt l -> (forall y, In y l -> y < x) ->
  StronglySorted Z.lt (l ++ [x]).
Proof.
  induction l as [|a l IH]; intros Hs Hlt; simpl.
  - constructor; constructor.
  - inversion Hs as [|? ? Hs' Ha]; subst. constructor.
    + apply IH; [exact Hs'|]. intros y Hy. apply Hlt. right. exact Hy.
    + apply Forall_app. split; [exact Ha|].
      constructor; [|constructor]. apply Hlt. left. reflexivity.
Qed.

Lemma found_below_record (p t : list byte) (found : list Z) (s : Z) :
  found_below p t found s -> occurs_at p t s ->
  found_below p t (found ++ [s]) (s + 1).
Proof.
  intros [Hs Hin] Ho. split.
  - apply StronglySorted_snoc; [exact Hs|].
    intros y Hy. apply Hin in Hy. lia.
  - intros x. rewrite in_app_iff, Hin. simpl. split.
    + intros [[Hox Hlt]|[<-|[]]]; split; try assumption; lia.
    + intros [Hox Hlt]. destruct (Z.eq_dec x s) as [->|Hne].
      * right. left. reflexivity.
      * left. split; [exact Hox|lia].
Qed.

(** ** Growing an index sequence *)

Lemma slot_grown (v : vec_obj_t) (k : Z) (tail : list byte) :
  index_wf v -> 0 <= k < v.(count) ->
  decode_size
    (firstn 8 (skipn (Z.to_nat (8 * k))
                 (firstn (Z.to_nat (v.(count) * 8)) v.(data) ++ tail)))
  = slot v k.
Proof.
  intros [[Hu Hc Hcap Hd Hfit] H8] Hk.
  unfold SIZEOF_SIZE_T, zlength in *. rewrite H8 in *.
  unfold slot. f_equal.
  rewrite skipn_app.
  rewrite firstn_app_l by (rewrite length_skipn, length_firstn; lia).
  rewrite skipn_firstn_comm, firstn_firstn. f_equal. lia.
Qed.

Lemma vec_extend_index (pos : vec_obj_t) :
  index_wf pos -> can_double pos ->
  yields (vec_extend pos 1)
    (fun r => exists pos',
         r = Some pos' /\ index_wf pos'
         /\ pos'.(count) = pos.(count) + 1
         /\ (forall k, 0 <= k < pos.(count) -> slot pos' k = slot pos k)
         /\ pos'.(capacity) <= Z.max pos.(capacity) (2 * (pos.(count) + 1))).
Proof.
  intros Hwf Hdbl h Hh.
  pose proof Hwf as [Hv H8]. pose proof Hv as [Hu Hc Hcap Hd Hfit].
  pose proof Hdbl as Hdbl'.
  unfold can_double, SIZEOF_SIZE_T, SIZEOF_VEC_OBJ, VEC_INIT_CAPACITY
    in Hu, Hc, Hcap, Hd, Hfit, Hdbl', H8.
  rewrite H8 in Hu, Hd, Hfit, Hdbl'.
  unfold vec_extend, vec_count.
  rewrite size_add_small by (unfold SIZE_MODULUS in *; lia).
  destruct (Z_lt_ge_dec (count pos + 1) (capacity pos)) as [Hlt|Hge].
  - rewrite vec_resize_keep by exact Hlt.
    eexists. exists h. split; [reflexivity|]. split; [exact Hh|].
    eexists. split; [reflexivity|].
    split; [|split; [reflexivity|split; [intros; reflexivity|cbn [capacity]; lia]]].
    split; [|exact H8].
    constructor; cbn [unit_size capacity count data]; rewrite ?H8;
      unfold SIZEOF_VEC_OBJ, VEC_INIT_CAPACITY; lia.
  - rewrite vec_resize_grow by (try assumption; lia). rewrite H8.
    eexists. exists (tl h). split; [reflexivity|].
    split; [apply no_failure_tl; exact Hh|].
    eexists. split; [reflexivity|].
    split; [|split; [reflexivity|split; [|cbn [capacity]; lia]]].
    + split; [|reflexivity].
      constructor; cbn [unit_size capacity count data]; rewrite ?H8;
        try (unfold SIZEOF_VEC_OBJ, VEC_INIT_CAPACITY; lia).
      rewrite zlength_app, zlength_zeros by lia.
      unfold zlength in *. rewrite length_firstn_le by lia. lia.
    + intros k Hk. unfold slot at 1. cbn [data].
      apply slot_grown; [exact Hwf|exact Hk].
Qed.

Lemma holds_items_snoc (pos pos' : vec_obj_t) (found : list Z) (s : Z) :
  holds_items pos found -> index_wf pos' ->
  pos'.(count) = pos.(count) + 1 ->
  (forall k, 0 <= k < pos.(count) -> slot pos' k = slot pos k) ->
  0 <= s < SIZE_MODULUS ->
  holds_items (set_slot pos' pos.(count) s) (found ++ [s]).
Proof.
  intros [Hc Hs] Hwf Hc' Hk Hsr.
  assert (Hcap : pos.(count) < pos'.(capacity))
    by (destruct Hwf as [[? ? ? ? ?] ?]; lia).
  pose proof (zlength_nonneg found) as Hn.
  split.
  - rewrite zlength_app. simpl. unfold zlength at 2. simpl. lia.
  - intros k Hkr. rewrite zlength_app in Hkr. unfold zlength at 2 in Hkr.
    simpl in Hkr.
    destruct (Z.eq_dec k (count pos)) as [->|Hne].
    + rewrite slot_set_slot_same by (try exact Hwf; lia).
      rewrite Hc. unfold zlength. rewrite Nat2Z.id.
      rewrite nth_middle. reflexivity.
    + rewrite slot_set_slot_other by (try exact Hwf; lia).
      rewrite Hk by lia. rewrite Hs by lia.
      rewrite app_nth1 by (unfold zlength in *; lia). reflexivity.
Qed.

(** *** str_find *)

Section StrFindLoop.
Variables (self : vec_obj_t) (pat : list byte) (lps : vec_obj_t).
Let n := self.(count).
Let m := strlen pat.
Let t := str_bytes self.
Let p := cstr_bytes pat.
Hypothesis Hself : str_wf self.
Hypothesis Hm : 1 <= m.
Hypothesis Hlps : index_wf lps.
Hypothesis Hlps_count : lps.(count) = m.
Hypothesis Htable : lps_table p lps m.
Hypothesis Hroom : 32 * n + 4096 < SIZE_MODULUS.

Lemma str_find_loop_yields (fuel : nat) :
  forall i j pos found,
    index_wf pos -> holds_items pos found ->
    pos.(capacity) <= Z.max VEC_INIT_CAPACITY (2 * pos.(count)) ->
    zlength found <= i ->
    0 <= j <= i -> i <= n -> j < m ->
    matches_upto p t (i - j) j ->
    found_below p t found (i - j) ->
    2 * (n - i) + j < Z.of_nat fuel ->
    yields (str_find_loop fuel self pat n m lps i j pos)
      (fun r => exists pos' found',
           r = Some pos' /\ index_wf pos' /\ holds_items pos' found'
           /\ found_all p t found').
Proof.
  assert (Hzp : zlength p = m) by apply zlength_cstr_bytes.
  assert (Hzt : zlength t = n) by (apply zlength_str_bytes; exact Hself).
  assert (Hmc : m <= lps.(capacity))
    by (destruct Hlps as [[? ? ? ? ?] ?]; lia).
  assert (Hms : m < SIZE_MODULUS).
  { destruct Hlps as [[? ? ? ? ?] H8].
    unfold SIZEOF_SIZE_T, SIZEOF_VEC_OBJ, SIZE_MODULUS in *. nia. }
  assert (Hns : n + 1 < SIZE_MODULUS) by (unfold SIZE_MODULUS in *; lia).
  induction fuel as [|fuel IH];
    intros i j pos found Hpos Hitems Hcapb Hfi Hj Hi Hjm Hmat Hfb Hfuel;
    [lia|].
  assert (Hcp : 0 <= pos.(count))
    by (destruct Hpos as [[? ? ? ? ?] ?]; lia).
  cbn [str_find_loop].
  destruct (Z_lt_ge_dec i n) as [Hlt|Hge].
  2:{ rewrite ltb_false by lia. apply yields_ret.
      exists pos, found. split; [reflexivity|]. split; [exact Hpos|].
      split; [exact Hitems|].
      destruct Hfb as [Hs Hin]. split; [exact Hs|].
      intros s. rewrite Hin. split; [tauto|].
      intros Ho. split; [exact Ho|].
      pose proof Ho as (_ & Hb & _). lia. }
  rewrite ltb_true by lia.
  eapply yields_bind_lift; [apply mem_get_str; [exact Hself|lia]|].
  eapply yields_bind_lift; [apply cstr_at_pat; fold m; lia|].
  fold t p.
  (* what a mismatch at state (i', j') leads to *)
  assert (Hmis : forall i' j' fnd,
    0 <= j' <= i' -> i' < n -> j' < m -> zlength fnd <= i' ->
    (2 * (n - i') + j' < Z.of_nat fuel + 1) ->
    found = fnd ->
    matches_upto p t (i' - j') j' ->
    found_below p t fnd (i' - j') ->
    bat t i' <> bat p j' ->
    yields
      (if negb (j' =? 0)
       then w <- lift (vec_get lps (size_sub j' 1)) ;;
            str_find_loop fuel self pat n m lps i' (decode_size w) pos
       else str_find_loop fuel self pat n m lps (size_add i' 1) j' pos)
      (fun r => exists pos' found',
           r = Some pos' /\ index_wf pos' /\ holds_items pos' found'
           /\ found_all p t found')).
  { intros i' j' fnd Hj' Hi' Hjm' Hfi' Hfuel' <- Hmat' Hfb' Hne.
    destruct (Z.eq_dec j' 0) as [->|Hj0].
    - cbn [Z.eqb negb]. rewrite size_add_small by lia.
      apply (IH (i' + 1) 0 pos found); try assumption; try lia.
      + intros k Hk. lia.
      + replace (i' + 1 - 0) with (i' - 0 + 1) by lia.
        apply (found_below_skip p t found (i' - 0)); [exact Hfb'|lia|].
        intros s Hs. replace s with (i' - 0) by lia.
        apply no_occurrence_at_mismatch; [lia|exact Hne].
    - rewrite eqb_false by exact Hj0. cbn [negb].
      rewrite size_sub_small by lia.
      destruct (vec_get_index lps (j' - 1) Hlps ltac:(lia)) as (w & Ew & Hw).
      eapply yields_bind_lift; [exact Ew|]. rewrite Hw.
      pose proof (Htable (j' - 1) ltac:(lia)) as Hl.
      replace (j' - 1 + 1) with j' in Hl by lia.
      pose proof Hl as ([Hbr Hbb] & Hblt & Hbmax).
      apply (IH i' (slot lps (j' - 1)) pos found); try assumption; try lia.
      + apply (matches_fallback p t i' j'); [exact Hmat'|apply Hl].
      + apply (found_below_skip p t found (i' - j')); [exact Hfb'|lia|].
        intros s Hs. destruct (Z.eq_dec s (i' - j')) as [->|Hsn].
        * apply no_occurrence_at_mismatch; [lia|exact Hne].
        * apply (no_occurrence_between p t i' j' (slot lps (j' - 1)));
            [exact Hmat'|lia|exact Hl|lia]. }
  destruct (Byte.eqb (bat t i) (bat p j)) eqn:E.
  - apply byte_eqb_true in E.
    rewrite !size_add_small by lia.
    assert (Hmat1 : matches_upto p t (i + 1 - (j + 1)) (j + 1))
      by (apply matches_extend; [lia|exact Hmat|exact E]).
    destruct (Z.eq_dec (j + 1) m) as [Hfull|Hpart].
    + (* a full match: record it *)
      replace (j + 1 =? m) with true by (symmetry; apply Z.eqb_eq; lia).
      assert (Hdbl : can_double pos).
      { destruct Hitems as [Hc _]. unfold can_double.
        destruct Hpos as [_ H8]. rewrite H8.
        unfold SIZEOF_SIZE_T, SIZEOF_VEC_OBJ, VEC_INIT_CAPACITY,
          SIZE_MODULUS in *. lia. }
      eapply yields_bind; [apply vec_extend_index; assumption|].
      intros r (pos' & -> & Hpos' & Hc' & Hk' & Hcap').
      unfold vec_count. rewrite Hc'.
      rewrite !size_sub_small by (destruct Hitems as [Hc _];
                                  pose proof (zlength_nonneg found); lia).
      replace (count pos + 1 - 1) with (count pos) by lia.
      eapply yields_bind;
        [apply vec_set_index;
         [exact Hpos'|destruct Hitems as [Hc _];
                      pose proof (zlength_nonneg found); lia]|].
      intros w ->.
      destruct (vec_get_index lps (j + 1 - 1) Hlps ltac:(lia))
        as (w & Ew & Hw).
      eapply yields_bind_lift; [exact Ew|]. rewrite Hw.
      pose proof (Htable (j + 1 - 1) ltac:(lia)) as Hl.
      replace (j + 1 - 1 + 1) with (j + 1) in Hl by lia.
      pose proof Hl as ([Hbr Hbb] & Hblt & Hbmax).
      assert (Hocc : occurs_at p t (i + 1 - (j + 1))).
      { apply occurs_at_pointwise. rewrite Hzp, Hzt.
        split; [lia|]. split; [lia|]. rewrite <- Hfull. exact Hmat1. }
      apply (IH (i + 1) (slot lps (j + 1 - 1))
               (set_slot pos' (count pos) (i + 1 - (j + 1)))
               (found ++ [i + 1 - (j + 1)])).
      * apply set_slot_wf; [exact Hpos'|].
        destruct Hpos' as [[? ? ? ? ?] ?]. lia.
      * apply holds_items_snoc; try assumption. lia.
      * destruct (set_slot_header pos' (count pos) (i + 1 - (j + 1)))
          as (_ & -> & ->). lia.
      * rewrite zlength_app. unfold zlength at 2. simpl. lia.
      * lia.
      * lia.
      * lia.
      * apply (matches_fallback p t (i + 1) (j + 1)); [exact Hmat1|apply Hl].
      * apply (found_below_skip p t _ (i + 1 - (j + 1) + 1)).
        -- apply found_below_record; [|exact Hocc].
           replace (i + 1 - (j + 1)) with (i - j) by lia. exact Hfb.
        -- lia.
        -- intros s Hs.
           apply (no_occurrence_between p t (i + 1) (j + 1)
                    (slot lps (j + 1 - 1)));
             [exact Hmat1|lia|exact Hl|lia].
      * lia.
    + replace (j + 1 =? m) with false by (symmetry; apply Z.eqb_neq; lia).
      assert (Hfb1 : found_below p t found (i + 1 - (j + 1)))
        by (replace (i + 1 - (j + 1)) with (i - j) by lia; exact Hfb).
      destruct (Z_lt_ge_dec (i + 1) n) as [Hlt1|Hge1].
      * rewrite ltb_true by lia.
        eapply yields_bind_lift; [apply mem_get_str; [exact Hself|lia]|].
        eapply yields_bind_lift; [apply cstr_at_pat; fold m; lia|].
        fold t p.
        destruct (Byte.eqb (bat t (i + 1)) (bat p (j + 1))) eqn:E1.
        -- cbn [negb].
           apply (IH (i + 1) (j + 1) pos found); try assumption; lia.
        -- cbn [negb]. apply byte_eqb_false in E1.
           replace (i + 1 + 1) with (size_add (i + 1) 1)
             by (rewrite size_add_small; lia).
           apply (Hmis (i + 1) (j + 1) found); try assumption; try lia.
           reflexivity.
      * rewrite ltb_false by lia.
        apply (IH (i + 1) (j + 1) pos found); try assumption; lia.
  - pose proof E as E'. apply byte_eqb_false in E'.
    rewrite eqb_false by lia.
    rewrite ltb_true by lia.
    eapply yields_bind_lift; [apply mem_get_str; [exact Hself|lia]|].
    eapply yields_bind_lift; [apply cstr_at_pat; fold m; lia|].
    fold t p. rewrite E. cbn [negb].
    apply (Hmis i j found); try assumption; try lia. reflexivity.
Qed.
End StrFindLoop.

(** ** The offsets held by an index sequence *)

Lemma length_chunks (n k : nat) (bs : list byte) :
  length (chunks n k bs) = k.
Proof.
  revert bs. induction k as [|k IH]; intros bs; simpl; [|rewrite IH]; reflexivity.
Qed.

Lemma nth_chunks (n k i : nat) (bs : list byte) :
  (i < k)%nat ->
  nth i (chunks n k bs) [] = firstn n (skipn (n * i) bs).
Proof.
  revert i bs. induction k as [|k IH]; intros i bs Hi; [lia|].
  destruct i as [|i]; simpl.
  - rewrite Nat.mul_0_r. reflexivity.
  - rewrite IH by lia. rewrite skipn_skipn. do 2 f_equal. lia.
Qed.

Lemma index_items_holds (v : vec_obj_t) (xs : list Z) :
  0 <= v.(count) -> holds_items v xs -> index_items v = xs.
Proof.
  intros Hc [Hcnt Hs]. unfold index_items, zlength in *.
  apply (nth_ext _ _ 0 0).
  - rewrite length_map, length_chunks. lia.
  - intros k Hk. rewrite length_map, length_chunks in Hk.
    rewrite <- (Nat2Z.id k) at 2. rewrite <- Hs by lia.
    change 0 with (decode_size []) at 1. rewrite map_nth.
    rewrite nth_chunks by lia.
    unfold slot. do 3 f_equal. lia.
Qed.

(** ** The reference search *)

Lemma bytes_eqb_true (a b : list byte) : bytes_eqb a b = true <-> a = b.
Proof.
  unfold bytes_eqb. destruct (list_eq_dec Byte.byte_eq_dec a b); split;
    intros; congruence.
Qed.

Lemma occurs_atb_spec (p t : list byte) (s : nat) :
  occurs_atb p t s = true <-> occurs_at p t (Z.of_nat s).
Proof.
  unfold occurs_atb, occurs_at, zlength.
  rewrite andb_true_iff, Nat.leb_le, bytes_eqb_true, Nat2Z.id.
  split.
  - intros [H1 H2]. split; [lia|]. split; [lia|exact H2].
  - intros (H0 & H1 & H2). split; [lia|exact H2].
Qed.

Lemma StronglySorted_seq (a n : nat) :
  StronglySorted Z.lt (map Z.of_nat (seq a n)).
Proof.
  revert a. induction n as [|n IH]; intros a; simpl; constructor.
  - apply IH.
  - apply Forall_forall. intros x Hx. apply in_map_iff in Hx.
    destruct Hx as (y & <- & Hy). apply in_seq in Hy. lia.
Qed.

Lemma StronglySorted_map_filter (f : nat -> bool) (l : list nat) :
  StronglySorted Z.lt (map Z.of_nat l) ->
  StronglySorted Z.lt (map Z.of_nat (filter f l)).
Proof.
  induction l as [|a l IH]; intros Hs; simpl; [constructor|].
  simpl in Hs. inversion Hs as [|? ? Hs' Ha]; subst.
  destruct (f a); simpl.
  - constructor; [apply IH; exact Hs'|].
    apply Forall_forall. intros x Hx. apply in_map_iff in Hx.
    destruct Hx as (y & <- & Hy). apply filter_In in Hy.
    rewrite Forall_forall in Ha. apply Ha. apply in_map. apply Hy.
  - apply IH. exact Hs'.
Qed.

Lemma spec_find_found_all (p t : list byte) :
  1 <= zlength p -> found_all p t (spec_find p t).
Proof.
  intros Hp. unfold spec_find. split.
  - apply StronglySorted_map_filter, StronglySorted_seq.
  - intros s. rewrite in_map_iff. split.
    + intros (k & <- & Hk). apply filter_In in Hk.
      apply occurs_atb_spec. apply Hk.
    + intros Ho. exists (Z.to_nat s).
      pose proof Ho as (H0 & H1 & _). unfold zlength in *.
      split; [lia|]. apply filter_In. split.
      * apply in_seq. lia.
      * apply occurs_atb_spec. rewrite Z2Nat.id by lia. exact Ho.
Qed.

Lemma sorted_same_members (l1 l2 : list Z) :
  StronglySorted Z.lt l1 -> StronglySorted Z.lt l2 ->
  (forall x, In x l1 <-> In x l2) -> l1 = l2.
Proof.
  revert l2. induction l1 as [|a l1 IH]; intros l2 H1 H2 Hin.
  - destruct l2 as [|b l2]; [reflexivity|].
    exfalso. apply (Hin b). left. reflexivity.
  - destruct l2 as [|b l2].
    + exfalso. apply (Hin a). left. reflexivity.
    + inversion H1 as [|? ? H1' Ha]; subst.
      inversion H2 as [|? ? H2' Hb]; subst.
      rewrite Forall_forall in Ha, Hb.
      assert (a = b).
      { destruct (proj1 (Hin a) (or_introl eq_refl)) as [->|Ha2];
          [reflexivity|].
        destruct (proj2 (Hin b) (or_introl eq_refl)) as [->|Hb1];
          [reflexivity|].
        specialize (Ha _ Hb1). specialize (Hb _ Ha2). lia. }
      subst b. f_equal. apply IH; try assumption.
      intros x. split; intros Hx.
      * destruct (proj1 (Hin x) (or_intror Hx)) as [->|?]; [|assumption].
        specialize (Ha _ Hx). lia.
      * destruct (proj2 (Hin x) (or_intror Hx)) as [->|?]; [|assumption].
        specialize (Hb _ Hx). lia.
Qed.

Lemma found_all_unique (p t : list byte) (l1 l2 : list Z) :
  found_all p t l1 -> found_all p t l2 -> l1 = l2.
Proof.
  intros [H1 I1] [H2 I2]. apply sorted_same_members; try assumption.
  intros x. rewrite I1, I2. tauto.
Qed.

Lemma fresh_index_wf (cnt : Z) :
  0 <= cnt <= VEC_INIT_CAPACITY ->
  index_wf (mk_vec SIZEOF_SIZE_T VEC_INIT_CAPACITY cnt
              (zeros (VEC_INIT_CAPACITY * SIZEOF_SIZE_T))).
Proof.
  intros H. split; [|reflexivity].
  constructor; cbn [unit_size capacity count data];
    unfold SIZEOF_SIZE_T, VEC_INIT_CAPACITY, SIZEOF_VEC_OBJ, SIZE_MODULUS in *;
    try lia.
  rewrite zlength_zeros; lia.
Qed.

Lemma yields_vec_new_len (usize cnt : Z) :
  0 <= usize ->
  VEC_INIT_CAPACITY * usize + SIZEOF_VEC_OBJ < SIZE_MODULUS ->
  yields (vec_new_len usize cnt)
    (fun r => r = Some (mk_vec usize VEC_INIT_CAPACITY cnt
                          (zeros (VEC_INIT_CAPACITY * usize)))).
Proof.
  intros Hu Hfit h Hh. eexists. exists (tl h).
  split; [apply vec_new_len_ok; assumption|].
  split; [apply no_failure_tl; exact Hh|reflexivity].
Qed.

(** [str_find] on a well-formed string and a pattern of 1 to
    [VEC_INIT_CAPACITY] bytes: when no allocation fails it returns an index
    sequence that holds every offset at which the pattern occurs, in
    ascending order, overlapping occurrences included. *)
Lemma str_find_finds_all (self : vec_obj_t) (pat : list byte) :
  str_wf self ->
  1 <= strlen pat <= VEC_INIT_CAPACITY ->
  32 * self.(count) + 4096 < SIZE_MODULUS ->
  yields (str_find self pat)
    (fun r => exists pos,
         r = Some pos /\ index_wf pos
         /\ index_items pos = spec_find (cstr_bytes pat) (str_bytes self)).
Proof.
  intros Hself Hm Hroom. unfold str_find.
  rewrite eqb_false by lia.
  eapply yields_bind.
  { apply yields_vec_new_len; [unfold SIZEOF_SIZE_T; lia|].
    unfold VEC_INIT_CAPACITY, SIZEOF_SIZE_T, SIZEOF_VEC_OBJ, SIZE_MODULUS. lia. }
  intros r ->.
  eapply yields_bind.
  { apply yields_vec_new_len; [unfold SIZEOF_SIZE_T; lia|].
    unfold VEC_INIT_CAPACITY, SIZEOF_SIZE_T, SIZEOF_VEC_OBJ, SIZE_MODULUS. lia. }
  intros r ->.
  eapply yields_bind.
  { apply kmp_compute_lps_yields; [reflexivity|lia| |reflexivity].
    apply fresh_index_wf. lia. }
  intros lps (Hlps & Hlc & Htab).
  assert (Hn : 0 <= self.(count)) by (destruct Hself as [[? ? ? ? ?] ?]; lia).
  eapply yields_weaken.
  { apply (str_find_loop_yields self pat lps Hself ltac:(lia) Hlps Hlc Htab
             Hroom (2 * Z.to_nat (str_length self) + 1) 0 0 _ []).
    - apply fresh_index_wf. unfold VEC_INIT_CAPACITY. lia.
    - split; [reflexivity|]. intros k Hk. unfold zlength in Hk. simpl in Hk. lia.
    - cbn [capacity count]. lia.
    - unfold zlength. simpl. lia.
    - lia.
    - exact Hn.
    - lia.
    - intros k Hk. lia.
    - split; [constructor|]. intros s. simpl. split; [tauto|].
      intros [(H0 & _) Hlt]. lia.
    - unfold str_length, vec_count. lia. }
  intros r (pos & found & -> & Hpos & Hitems & Hall).
  exists pos. split; [reflexivity|]. split; [exact Hpos|].
  rewrite (index_items_holds pos found);
    [|destruct Hpos as [[? ? ? ? ?] ?]; lia|exact Hitems].
  apply (found_all_unique (cstr_bytes pat) (str_bytes self)); [exact Hall|].
  apply spec_find_found_all. rewrite zlength_cstr_bytes. lia.
Qed.

(** ** Headers kept by writes *)

Lemma vec_wf_same_header (v w : vec_obj_t) :
  vec_wf v -> same_header v w -> length w.(data) = length v.(data) ->
  vec_wf w.
Proof.
  intros [Hu Hc Hcap Hd Hfit] (E1 & E2 & E3) El.
  constructor; rewrite ?E1, ?E2, ?E3; try assumption.
  unfold zlength in *. rewrite El. exact Hd.
Qed.

Lemma zlength_ptr_mem_cstr (s : list byte) (j : Z) :
  0 <= j <= strlen s -> 1 <= zlength (ptr_mem (cstr_mem s) j).
Proof.
  intros H. unfold ptr_mem, cstr_mem, zlength, strlen in *.
  pose proof (strlen_nat_le s).
  rewrite length_skipn, length_app. simpl. lia.
Qed.

(** *** str_resize *)

Lemma str_resize_keep (self : vec_obj_t) (size : Z) (h : heap) :
  str_wf self -> 0 <= size -> size + 1 < self.(capacity) ->
  str_resize self size h
  = Done (Some (mk_vec self.(unit_size) self.(capacity) size
                  (firstn (Z.to_nat size) self.(data) ++ [x00]
                   ++ skipn (Z.to_nat size + 1) self.(data))), h).
Proof.
  intros [[Hu Hc Hcap Hd Hfit] H1] Hs Hlt.
  unfold SIZEOF_CHAR, SIZEOF_VEC_OBJ in *. rewrite H1 in Hu, Hd, Hfit.
  unfold str_resize, bind.
  rewrite size_add_small by (unfold SIZE_MODULUS in *; lia).
  rewrite vec_resize_keep by lia.
  cbn [data]. unfold lift.
  rewrite mem_write_ok by (unfold zlength in *; simpl; lia).
  rewrite vec_resize_keep by (simpl; lia).
  reflexivity.
Qed.

Lemma str_resize_keep_yields (self : vec_obj_t) (size : Z) :
  str_wf self -> 0 <= size -> size + 1 < self.(capacity) ->
  yields (str_resize self size)
    (fun r => exists s', r = Some s' /\ str_wf s' /\ s'.(count) = size
                         /\ s'.(capacity) = self.(capacity)).
Proof.
  intros Hwf Hs Hlt h Hh. eexists. exists h.
  split; [apply str_resize_keep; assumption|]. split; [exact Hh|].
  eexists. split; [reflexivity|].
  destruct Hwf as [[Hu Hc Hcap Hd Hfit] H1].
  split; [|split; reflexivity].
  split; [|exact H1].
  constructor; cbn [unit_size capacity count data]; try assumption; try lia.
  unfold zlength in *. rewrite H1 in *.
  rewrite !length_app, length_firstn, length_skipn. simpl.
  unfold SIZEOF_CHAR in *. lia.
Qed.

Lemma length_spec_find (p t : list byte) :
  (length (spec_find p t) <= length t)%nat.
Proof.
  unfold spec_find. rewrite length_map.
  etransitivity; [apply filter_length_le|]. rewrite length_seq. lia.
Qed.

Lemma length_index_items (v : vec_obj_t) :
  length (index_items v) = Z.to_nat v.(count).
Proof. unfold index_items. rewrite length_map, length_chunks. reflexivity. Qed.

(** C6, as stated, fails: the empty pattern is answered with NULL, with
    every allocation succeeding. *)
Lemma str_find_empty_pattern_returns_null :
  run (new_then "abc" (fun v => str_find v (bytes_of_string ""))) []
  = Done None.
Proof. vm_compute. reflexivity. Qed.

(** C6, amended.  [str_find] answers the empty pattern with NULL before it
    allocates anything.  For a non-empty pattern it returns NULL only when
    an allocation fails: when none fails, a call that returns does not
    return NULL, and on a well-formed string with a pattern of at most
    [VEC_INIT_CAPACITY] bytes the call returns a sequence. *)
Theorem str_find_null_only_for_empty_pattern :
  (forall self pat h,
      strlen pat = 0 -> str_find self pat h = Done (None, h))
  /\ (forall self pat h r h',
      strlen pat <> 0 -> no_failure h ->
      str_find self pat h = Done (r, h') -> r <> None)
  /\ (forall self pat h,
      str_wf self -> 1 <= strlen pat <= VEC_INIT_CAPACITY ->
      32 * self.(count) + 4096 < SIZE_MODULUS ->
      no_failure h ->
      exists pos h', str_find self pat h = Done (Some pos, h')).
Proof.
  split; [|split].
  - intros self pat h Hm. unfold str_find. rewrite Hm. reflexivity.
  - intros self pat h r h' Hm Hh E.
    destruct (ensures_str_find self pat h r h' Hh E) as [_ Hr]. auto.
  - intros self pat h Hself Hm Hroom Hh.
    destruct (str_find_finds_all self pat Hself Hm Hroom h Hh)
      as (r & h' & E & _ & pos & -> & _).
    exists pos, h'. exact E.
Qed.

Lemma str_find_null_only_for_empty_pattern_witness :
  exists pos h',
    str_find (mk_vec 1 128 3 (bytes_of_string "aba" ++ zeros 125))
      (bytes_of_string "a") [] = Done (Some pos, h').
Proof.
  apply (proj2 (proj2 str_find_null_only_for_empty_pattern)).
  - split; [constructor|]; repeat split; vm_compute;
      try reflexivity; discriminate.
  - repeat split; vm_compute; discriminate.
  - vm_compute. reflexivity.
  - constructor.
Defined.

(** C3 (defect of the code, the one of C1).  On a well-formed string and
    with a pattern of 1 to [VEC_INIT_CAPACITY] bytes, [str_find] returns
    exactly the offsets at which the pattern occurs, in strictly ascending
    order, overlapping occurrences included.  A longer pattern is not
    searched for: its table is created by [vec_new_len] with one item per
    pattern byte, so the block holds [VEC_INIT_CAPACITY] items whatever the
    length of the pattern, and with 129 bytes [kmp_compute_lps] writes item
    128 behind the block, where the specification expects the empty
    sequence. *)
Theorem str_find_long_pattern_overruns_table :
  (forall self pat h,
      str_wf self -> 1 <= strlen pat <= VEC_INIT_CAPACITY ->
      32 * self.(count) + 4096 < SIZE_MODULUS ->
      no_failure h ->
      exists pos h',
        str_find self pat h = Done (Some pos, h')
        /\ found_all (cstr_bytes pat) (str_bytes self) (index_items pos))
  /\ (exists pos,
        run (new_then "ABABACCABA"
               (fun v => str_find v (bytes_of_string "ABA"))) []
        = Done (Some pos)
        /\ index_items pos = [0; 2; 7])
  /\ spec_find (repeat "A"%byte 129) (bytes_of_string "A") = []
  /\ run (new_then "A" (fun v => str_find v (repeat "A"%byte 129))) [] = Crash
  /\ (exists lps,
        run (vec_new_len SIZEOF_SIZE_T (strlen (repeat "A"%byte 129))) []
        = Done (Some lps)
        /\ lps.(count) = 129 /\ lps.(capacity) = 128
        /\ run (vec_set lps 128 (encode_size 128)) [] = Crash).
Proof.
  split; [|split; [|split; [|split]]].
  - intros self pat h Hself Hm Hroom Hh.
    destruct (str_find_finds_all self pat Hself Hm Hroom h Hh)
      as (r & h' & E & _ & pos & -> & _ & Hitems).
    exists pos, h'. split; [exact E|]. rewrite Hitems.
    apply spec_find_found_all. rewrite zlength_cstr_bytes. lia.
  - eexists. split; vm_compute; reflexivity.
  - vm_compute. reflexivity.
  - vm_compute. reflexivity.
  - eexists. split; [vm_compute; reflexivity|].
    split; [reflexivity|]. split; [reflexivity|]. vm_compute. reflexivity.
Qed.

Lemma str_find_long_pattern_overruns_table_witness :
  exists pos h',
    str_find (mk_vec 1 128 10 (bytes_of_string "ABABACCABA" ++ zeros 118))
      (bytes_of_string "ABA") [] = Done (Some pos, h')
    /\ found_all (cstr_bytes (bytes_of_string "ABA"))
         (str_bytes (mk_vec 1 128 10
                       (bytes_of_string "ABABACCABA" ++ zeros 118)))
         (index_items pos).
Proof.
  apply (proj1 str_find_long_pattern_overruns_table).
  - split; [constructor|]; repeat split; vm_compute;
      try reflexivity; discriminate.
  - repeat split; vm_compute; discriminate.
  - vm_compute. reflexivity.
  - constructor.
Defined.

(** ** The terminator *)

Lemma mem_get_written (m : list byte) (off : Z) (b : byte) :
  0 <= off -> off + 1 <= zlength m ->
  mem_get (firstn (Z.to_nat off) m ++ [b] ++ skipn (Z.to_nat off + 1) m) off
  = Done b.
Proof.
  intros H0 H1. unfold mem_get, zlength in *.
  replace (0 <=? off) with true by (symmetry; apply Z.leb_le; lia).
  rewrite nth_error_app2 by (rewrite length_firstn; lia).
  rewrite length_firstn_le by lia.
  replace (Z.to_nat off - Z.to_nat off)%nat with O by lia.
  reflexivity.
Qed.

(** Whatever the allocator does, a string that [str_resize] returns has
    the requested length and a terminator behind it. *)
Lemma str_resize_terminated (self : vec_obj_t) (size : Z) (h : heap)
    (w : vec_obj_t) (h' : heap) :
  str_wf self -> can_double self ->
  str_resize self size h = Done (Some w, h') ->
  w.(count) = size /\ terminated w /\ str_wf w.
Proof.
  intros Hself Hdbl E.
  pose proof Hself as [Hv H1]. pose proof Hv as [Hu Hc Hcap Hd Hfit].
  pose proof Hdbl as Hdbl'.
  unfold can_double, SIZEOF_CHAR, SIZEOF_VEC_OBJ, VEC_INIT_CAPACITY
    in Hu, Hc, Hcap, Hd, Hfit, Hdbl', H1.
  rewrite H1 in Hu, Hd, Hfit, Hdbl'.
  unfold str_resize, bind in E.
  assert (Hs1 : exists s1 h1,
             vec_resize self (size_add size 1) h = Done (Some s1, h1)
             /\ s1.(unit_size) = 1 /\ VEC_INIT_CAPACITY <= s1.(capacity)
             /\ zlength s1.(data) = s1.(capacity)
             /\ s1.(capacity) + 24 < SIZE_MODULUS).
  { destruct (Z_lt_ge_dec (size_add size 1) (capacity self)) as [Hlt|Hge].
    - rewrite vec_resize_keep in E |- * by exact Hlt.
      eexists. eexists. split; [reflexivity|]. cbn [unit_size capacity data].
      unfold VEC_INIT_CAPACITY. repeat split; lia.
    - rewrite vec_resize_grow_spec in E |- * by (try assumption; lia).
      destruct (alloc_succeeds h); [|discriminate].
      eexists. eexists. split; [reflexivity|]. cbn [unit_size capacity data].
      rewrite H1. unfold VEC_INIT_CAPACITY.
      repeat split; try lia.
      rewrite zlength_app, zlength_zeros by lia.
      unfold zlength in *. rewrite length_firstn_le by lia. lia. }
  destruct Hs1 as (s1 & h1 & E1 & Hu1 & Hcap1 & Hd1 & Hfit1).
  rewrite E1 in E. unfold lift in E.
  destruct (mem_write (data s1) size [x00]) as [d|] eqn:Ew; [|discriminate].
  apply mem_write_inv in Ew. destruct Ew as (Hs0 & Hsz & ->).
  unfold zlength at 1 in Hsz. simpl in Hsz.
  rewrite vec_resize_keep in E by (cbn [capacity set_data]; lia).
  injection E as <- _. cbn [count capacity unit_size data set_data].
  split; [reflexivity|]. split.
  - unfold terminated. cbn [count data].
    apply mem_get_written; lia.
  - split; [|exact Hu1].
    constructor; cbn [count capacity unit_size data]; rewrite ?Hu1;
      unfold SIZEOF_VEC_OBJ, VEC_INIT_CAPACITY in *; try lia.
    rewrite zlength_app. unfold zlength in *. cbn [length].
    rewrite length_firstn, length_skipn. lia.
Qed.

Lemma str_clear_terminated (self : vec_obj_t) (h : heap)
    (w : vec_obj_t) (h' : heap) :
  str_wf self -> can_double self ->
  str_clear self h = Done (Some w, h') ->
  w.(count) = 0 /\ terminated w /\ str_wf w.
Proof. apply str_resize_terminated. Qed.

Lemma str_extend_terminated (self : vec_obj_t) (cnt : Z) (h : heap)
    (w : vec_obj_t) (h' : heap) :
  str_wf self -> can_double self ->
  str_extend self cnt h = Done (Some w, h') ->
  w.(count) = size_add (str_length self) cnt /\ terminated w /\ str_wf w.
Proof. apply str_resize_terminated. Qed.

Lemma terminated_items_from (v : vec_obj_t) :
  v.(unit_size) = 1 -> 0 <= v.(count) ->
  (terminated v <-> nth_error (items_from v v.(count)) 0 = Some x00).
Proof.
  intros H1 Hc. unfold terminated, items_from, mem_get. rewrite H1.
  replace (0 <=? count v) with true by (symmetry; apply Z.leb_le; lia).
  rewrite nth_error_skipn.
  replace (Z.to_nat (count v * 1) + 0)%nat with (Z.to_nat (count v)) by lia.
  destruct (nth_error (data v) (Z.to_nat (count v))) as [b|]; split;
    intros E; congruence.
Qed.

(** [vec_copy] leaves a string a string and its terminator in place. *)
Lemma vec_copy_keeps_terminator (v : vec_obj_t) (pos : Z) (items : list byte)
    (len : Z) (h : heap) (w : vec_obj_t) (h' : heap) :
  str_wf v -> 0 <= pos -> 0 <= len ->
  vec_copy v pos items len h = Done (w, h') ->
  str_wf w /\ same_header v w /\ (terminated v -> terminated w).
Proof.
  intros [Hv H1] Hpos Hlen E.
  destruct (vec_copy_frame v pos items len h w h' Hv Hpos Hlen E)
    as (E1 & E2 & E3 & El & Hfr).
  assert (Hs : same_header v w) by (repeat split; assumption).
  assert (Hw : vec_wf w) by (apply (vec_wf_same_header v); assumption).
  split; [split; [exact Hw|congruence]|]. split; [exact Hs|].
  pose proof Hv as [_ Hc _ _ _]. unfold SIZEOF_CHAR in H1.
  rewrite (terminated_items_from v) by (try assumption; lia).
  rewrite (terminated_items_from w) by (try congruence; lia).
  rewrite E3, Hfr. auto.
Qed.

Lemma for_range_invariant {S : Type} (body : Z -> S -> M S) (I : S -> Prop)
    (n : nat) :
  (forall i s h s' h', I s -> body i s h = Done (s', h') -> I s') ->
  forall i s h s' h',
    I s -> for_range n i body s h = Done (s', h') -> I s'.
Proof.
  intros Hb. induction n as [|n IH]; intros i s h s' h' Hs E; simpl in E.
  - injection E as <- _. exact Hs.
  - unfold bind in E. destruct (body i s h) as [[s1 h1]|] eqn:E1; [|discriminate].
    apply (IH (i + 1) s1 h1 s' h'); [|exact E].
    apply (Hb i s h s1 h1); assumption.
Qed.

Lemma str_insert_terminated (self : vec_obj_t) (pos : Z) (str : list byte)
    (h : heap) (w : vec_obj_t) (h' : heap) :
  str_wf self -> can_double self -> 0 <= pos ->
  str_insert self pos str h = Done (Some w, h') ->
  w.(count) = size_add (str_length self) (strlen str) /\ terminated w.
Proof.
  intros Hself Hdbl Hpos E. unfold str_insert in E.
  destruct (pos >? str_length self); [discriminate|].
  unfold bind in E.
  destruct (str_extend self (strlen str) h) as [[[s1|] h1]|] eqn:E1;
    try discriminate.
  destruct (str_extend_terminated self _ h s1 h1 Hself Hdbl E1)
    as (Hc1 & Ht1 & Hs1).
  destruct (vec_copy s1 _ _ _ h1) as [[s2 h2]|] eqn:E2; [|discriminate].
  destruct (vec_copy_keeps_terminator s1 _ _ _ h1 s2 h2 Hs1
              (proj1 (wrap_range _)) (proj1 (wrap_range _)) E2)
    as (Hs2 & (_ & _ & Hc2) & Ht2).
  destruct (vec_copy s2 pos _ _ h2) as [[s3 h3]|] eqn:E3; [|discriminate].
  injection E as <- _.
  destruct (vec_copy_keeps_terminator s2 _ _ _ h2 s3 h3 Hs2 Hpos
              (strlen_nonneg str) E3)
    as (Hs3 & (_ & _ & Hc3) & Ht3).
  split; [congruence|auto].
Qed.

Lemma str_repeat_terminated (self : vec_obj_t) (cnt : Z)
    (h : heap) (w : vec_obj_t) (h' : heap) :
  str_wf self -> can_double self -> cnt <> 0 ->
  str_repeat self cnt h = Done (Some w, h') ->
  w.(count) = size_add (str_length self) (size_mul (str_length self) cnt)
  /\ terminated w.
Proof.
  intros Hself Hdbl Hcnt E. unfold str_repeat in E.
  assert (Hlen0 : 0 <= str_length self)
    by (unfold str_length, vec_count; destruct Hself as [[? ? ? ? ?] ?]; lia).
  rewrite eqb_false in E by exact Hcnt.
  unfold bind in E.
  destruct (str_extend self _ h) as [[[s1|] h1]|] eqn:E1; try discriminate.
  destruct (str_extend_terminated self _ h s1 h1 Hself Hdbl E1)
    as (Hc1 & Ht1 & Hs1).
  destruct (for_loop 0 cnt _ s1 h1) as [[s2 h2]|] eqn:E2; [|discriminate].
  injection E as <- _.
  unfold for_loop in E2.
  pose proof (for_range_invariant
    (fun i self0 => vec_copy self0 (size_mul i (str_length self))
                      (data self0) (str_length self))
    (fun s => str_wf s /\ s.(count) = s1.(count) /\ terminated s)) as Hinv.
  destruct (Hinv (Z.to_nat (cnt - 0))) with (i := 0) (s := s1) (h := h1)
    (s' := s2) (h' := h2) as (_ & Hc2 & Ht2); auto.
  - intros i s h0 s' h0' (Hs & Hc & Ht) Ec.
    destruct (vec_copy_keeps_terminator s _ _ _ h0 s' h0' Hs
                (proj1 (wrap_range _)) Hlen0 Ec)
      as (Hs' & (_ & _ & Hc') & Ht').
    split; [exact Hs'|]. split; [congruence|auto].
  - split; [congruence|exact Ht2].
Qed.

(** ** The claims about defects, with what holds in general *)

(** C1 (defect of the code).  [count <= capacity] is not kept.  A vector
    that [vec_new_len] returns has the requested count and the capacity
    [VEC_INIT_CAPACITY], whatever the count; a vector that [vec_resize]
    returns has the requested count and once the doubled capacity, however
    large the count.  The call of [test_vec_new_len] leaves 1024 items in a
    block of 128, and a resize of a fresh vector to 300 items leaves 300
    items in a block of 256. *)
Theorem vec_count_exceeds_capacity :
  (forall usize cnt h v h',
      vec_new_len usize cnt h = Done (Some v, h') ->
      v.(count) = cnt /\ v.(capacity) = VEC_INIT_CAPACITY)
  /\ (forall v cnt h w h',
      vec_resize v cnt h = Done (Some w, h') ->
      w.(count) = cnt
      /\ w.(capacity) = (if cnt >=? v.(capacity)
                         then size_mul v.(capacity) 2 else v.(capacity)))
  /\ (exists v, run (vec_new_len 4 1024) [] = Done (Some v)
             /\ v.(count) = 1024 /\ v.(capacity) = 128
             /\ zlength v.(data) = 128 * 4
             /\ ~ count_within_capacity v)
  /\ (exists v w, run (vec_new 4) [] = Done (Some v)
             /\ count_within_capacity v
             /\ run (vec_resize v 300) [] = Done (Some w)
             /\ w.(count) = 300 /\ w.(capacity) = 256
             /\ zlength w.(data) = 256 * 4
             /\ ~ count_within_capacity w).
Proof.
  split; [|split; [|split]].
  - intros usize cnt h v h' E.
    destruct (vec_new_len_header usize cnt h v h' E) as (_ & H1 & H2). auto.
  - intros v cnt h w h' E.
    destruct (vec_resize_header v cnt h w h' E) as (_ & H1 & H2). auto.
  - eexists. split; [vm_compute; reflexivity|].
    repeat split; unfold count_within_capacity; simpl; lia.
  - eexists. eexists. split; [vm_compute; reflexivity|].
    split; [unfold count_within_capacity; simpl; lia|].
    split; [vm_compute; reflexivity|].
    repeat split; unfold count_within_capacity; simpl; lia.
Qed.

Lemma vec_count_exceeds_capacity_witness :
  exists v, vec_new_len 4 1024 [] = Done (Some v, [])
            /\ v.(count) = 1024 /\ v.(capacity) = VEC_INIT_CAPACITY.
Proof.
  eexists. split; [vm_compute; reflexivity|].
  apply (proj1 vec_count_exceeds_capacity 4 1024 [] _ []).
  vm_compute. reflexivity.
Defined.

(** C2 (defect of the code).  Strings that [str_resize] returns, and so
    those that [str_clear], [str_insert], [str_append] and [str_repeat]
    return, have a zero byte at offset [count].  The literal branch of
    [str_format] grows the string with [vec_extend] instead, so no
    terminator is written: formatting ["a"] into a string that held
    ["hello"] leaves the bytes ["aello"] with [count = 1], and the byte at
    offset [count] is ['e']. *)
Theorem str_format_literal_writes_no_terminator :
  (forall self size h w h',
      str_wf self -> can_double self ->
      str_resize self size h = Done (Some w, h') ->
      w.(count) = size /\ terminated w)
  /\ (forall self pos str h w h',
      str_wf self -> can_double self -> 0 <= pos ->
      str_insert self pos str h = Done (Some w, h') ->
      w.(count) = size_add (str_length self) (strlen str) /\ terminated w)
  /\ (forall self cnt h w h',
      str_wf self -> can_double self -> cnt <> 0 ->
      str_repeat self cnt h = Done (Some w, h') -> terminated w)
  /\ (exists v w,
        run (str_new (bytes_of_string "hello")) [] = Done (Some v)
        /\ terminated v
        /\ run (str_format v (bytes_of_string "a") []) [] = Done (Some w)
        /\ w.(count) = 1
        /\ str_bytes w = bytes_of_string "a"
        /\ mem_get w.(data) w.(count) = Done "e"%byte
        /\ ~ terminated w).
Proof.
  split; [|split; [|split]].
  - intros self size h w h' Hself Hdbl E.
    destruct (str_resize_terminated self size h w h' Hself Hdbl E)
      as (H1 & H2 & _). auto.
  - intros self pos str h w h'. apply str_insert_terminated.
  - intros self cnt h w h' Hself Hdbl Hcnt E.
    apply (str_repeat_terminated self cnt h w h' Hself Hdbl Hcnt E).
  - eexists. eexists.
    split; [vm_compute; reflexivity|].
    split; [reflexivity|].
    split; [vm_compute; reflexivity|].
    split; [reflexivity|]. split; [reflexivity|]. split; [reflexivity|].
    unfold terminated. simpl. discriminate.
Qed.

Lemma str_format_literal_writes_no_terminator_witness :
  exists w,
    str_resize (mk_vec 1 128 5 (bytes_of_string "hello" ++ zeros 123)) 2 []
    = Done (Some w, [])
    /\ w.(count) = 2 /\ terminated w.
Proof.
  eexists. split; [vm_compute; reflexivity|].
  apply (proj1 str_format_literal_writes_no_terminator
           (mk_vec 1 128 5 (bytes_of_string "hello" ++ zeros 123)) 2 [] _ []).
  - split; [constructor|]; repeat split; vm_compute;
      try reflexivity; discriminate.
  - vm_compute. reflexivity.
  - vm_compute. reflexivity.
Defined.

(** C8 (defect of the code).  [str_repeat] with a count of 0 returns the
    string as it is.  With any other count it extends the string by
    [len * count] bytes instead of extending it to that length: the result
    is [len + len * count] bytes long.  Repeating ["hi "] six times gives 21
    bytes, the expected 18 followed by a slot of three zero bytes. *)
Theorem str_repeat_is_one_slot_too_long :
  (forall self h, str_repeat self 0 h = Done (Some self, h))
  /\ (forall self cnt h w h',
      str_wf self -> can_double self -> cnt <> 0 ->
      str_repeat self cnt h = Done (Some w, h') ->
      w.(count)
      = size_add (str_length self) (size_mul (str_length self) cnt))
  /\ (exists w,
        run (new_then "hi " (fun v => str_repeat v 6)) [] = Done (Some w)
        /\ w.(count) = 21
        /\ str_bytes w
           = bytes_of_string "hi hi hi hi hi hi " ++ [x00; x00; x00]
        /\ w.(count) <> 3 * 6).
Proof.
  split; [|split].
  - reflexivity.
  - intros self cnt h w h' Hself Hdbl Hcnt E.
    apply (str_repeat_terminated self cnt h w h' Hself Hdbl Hcnt E).
  - eexists. split; [vm_compute; reflexivity|].
    split; [reflexivity|]. split; [reflexivity|]. simpl. lia.
Qed.

Lemma str_repeat_is_one_slot_too_long_witness :
  exists w,
    str_repeat (mk_vec 1 128 3 (bytes_of_string "hi " ++ zeros 125)) 6 []
    = Done (Some w, [])
    /\ w.(count) = size_add 3 (size_mul 3 6).
Proof.
  eexists. split; [vm_compute; reflexivity|].
  apply (proj1 (proj2 str_repeat_is_one_slot_too_long)
           (mk_vec 1 128 3 (bytes_of_string "hi " ++ zeros 125)) 6 [] _ []).
  - split; [constructor|]; repeat split; vm_compute;
      try reflexivity; discriminate.
  - vm_compute. reflexivity.
  - discriminate.
  - vm_compute. reflexivity.
Defined.

(** ** What one replacement does to the bytes *)

Lemma for_range_yields_ix {St : Type} (body : Z -> St -> M St)
    (I : Z -> St -> Prop) (n : nat) :
  forall i s,
    (forall j s', i <= j < i + Z.of_nat n -> I j s' ->
                  yields (body j s') (I (j + 1))) ->
    I i s -> yields (for_range n i body s) (I (i + Z.of_nat n)).
Proof.
  induction n as [|n IH]; intros i s Hb Hs; simpl for_range.
  - apply yields_ret. replace (i + Z.of_nat 0) with i by lia. exact Hs.
  - eapply yields_bind; [apply Hb; [lia|exact Hs]|].
    intros s' Hs'.
    replace (i + Z.of_nat (S n)) with (i + 1 + Z.of_nat n) by lia.
    apply IH; [|exact Hs'].
    intros j s'' Hj. apply Hb. lia.
Qed.

Lemma str_extend_keep_yields (self : vec_obj_t) (sh : Z) :
  str_wf self -> 0 <= sh -> self.(count) + sh + 1 < self.(capacity) ->
  yields (str_extend self sh)
    (fun r => exists s1,
         r = Some s1 /\ str_wf s1 /\ s1.(count) = self.(count) + sh
         /\ s1.(capacity) = self.(capacity)
         /\ firstn (Z.to_nat self.(count)) s1.(data)
            = firstn (Z.to_nat self.(count)) self.(data)).
Proof.
  intros Hself Hsh Hlt h Hh.
  pose proof Hself as [[Hu Hc Hcap Hd Hfit] H1].
  unfold SIZEOF_CHAR in H1. rewrite H1 in Hd, Hfit.
  unfold str_extend, str_length, vec_count.
  rewrite size_add_small
    by (unfold SIZEOF_CHAR, SIZEOF_VEC_OBJ, SIZE_MODULUS in *; lia).
  destruct (str_resize_keep_yields self (count self + sh) Hself
              ltac:(lia) ltac:(lia) h Hh)
    as (r & h' & E & Hh' & s1 & -> & Hs1 & Hc1 & Hcap1).
  exists (Some s1), h'. split; [exact E|]. split; [exact Hh'|].
  exists s1. repeat split; try assumption; try apply Hs1.
  rewrite str_resize_keep in E by (try assumption; lia).
  injection E as <- _. cbn [data].
  rewrite firstn_app_l by (rewrite length_firstn; unfold zlength in *; lia).
  rewrite firstn_firstn. f_equal. lia.
Qed.

(** The move of the bytes behind a match: [tail] bytes from offset [src] to
    offset [dst]. *)
Lemma vec_copy_move_yields (s1 : vec_obj_t) (dst src len : Z) :
  str_wf s1 -> 0 <= dst <= s1.(count) -> 1 <= src < s1.(count) ->
  s1.(count) - dst <= len ->
  s1.(count) - dst <= VEC_INIT_CAPACITY ->
  src + (s1.(count) - dst) <= s1.(capacity) ->
  yields (vec_copy s1 dst (ptr_mem s1.(data) (vec_ptr_at s1 src)) len)
    (fun s2 => str_wf s2 /\ same_header s1 s2
               /\ s2.(data)
                  = firstn (Z.to_nat dst) s1.(data)
                    ++ firstn (Z.to_nat (s1.(count) - dst))
                         (skipn (Z.to_nat src) s1.(data))
                    ++ skipn (Z.to_nat s1.(count)) s1.(data)).
Proof.
  intros Hs1 Hdst Hsrc Hlen Hsmall Hroom h Hh.
  pose proof Hs1 as [Hv H1]. pose proof Hv as [Hu Hc Hcap Hd Hfit].
  unfold SIZEOF_CHAR, SIZEOF_VEC_OBJ in *.
  assert (Hsame : same_header s1 s1) by (repeat split).
  destruct (Z.eq_dec dst (count s1)) as [->|Hne].
  { exists s1, h. rewrite vec_copy_outside by lia.
    split; [reflexivity|]. split; [exact Hh|]. split; [exact Hs1|].
    split; [exact Hsame|].
    rewrite Z.sub_diag. simpl firstn at 2. rewrite app_nil_l.
    symmetry. apply firstn_skipn. }
  assert (Hp : vec_ptr_at s1 src = src).
  { rewrite vec_ptr_at_inside by (rewrite ?H1; unfold SIZE_MODULUS in *; lia).
    rewrite H1. lia. }
  rewrite Hp.
  assert (Hmin : Z.min len (count s1 - dst) = count s1 - dst) by lia.
  eexists. exists (tl h).
  split.
  { apply vec_copy_ok; try assumption; try lia.
    rewrite Hmin, H1. unfold ptr_mem, zlength in *.
    rewrite length_skipn. lia. }
  split; [apply no_failure_tl; exact Hh|].
  rewrite Hmin, H1.
  replace (dst * 1) with dst by lia.
  replace ((count s1 - dst) * 1) with (count s1 - dst) by lia.
  replace ((dst + (count s1 - dst)) * 1) with (count s1) by lia.
  assert (Hs : same_header s1 (set_data s1
     (firstn (Z.to_nat dst) (data s1) ++
      firstn (Z.to_nat (count s1 - dst)) (ptr_mem (data s1) src) ++
      skipn (Z.to_nat (count s1)) (data s1)))) by (repeat split).
  split; [|split; [exact Hs|reflexivity]].
  split; [|exact H1].
  apply (vec_wf_same_header s1); [exact Hv|exact Hs|].
  unfold set_data, ptr_mem, zlength in *. cbn [data].
  rewrite !length_app, !length_firstn, !length_skipn. lia.
Qed.

Lemma firstn_succ_nth (l : list byte) (j : nat) :
  (j < length l)%nat -> firstn (S j) l = firstn j l ++ [nth j l x00].
Proof.
  revert j. induction l as [|a l IH]; intros j Hj; simpl in Hj; [lia|].
  destruct j as [|j]; [reflexivity|].
  cbn [firstn nth app]. rewrite <- IH by lia. reflexivity.
Qed.

Lemma skipn_nth_cons (l : list byte) (j : nat) :
  (j < length l)%nat -> skipn j l = nth j l x00 :: skipn (S j) l.
Proof.
  revert j. induction l as [|a l IH]; intros j Hj; simpl in Hj; [lia|].
  destruct j as [|j]; [reflexivity|].
  cbn [skipn nth]. apply IH. lia.
Qed.

Lemma shift_offsets_content (pos : vec_obj_t) (i pos_count shift : Z) :
  index_wf pos -> pos.(count) = pos_count -> 0 <= i ->
  yields (shift_offsets pos i pos_count shift)
    (fun pos' =>
       index_wf pos' /\ pos'.(count) = pos_count
       /\ (forall q, i < q < pos_count ->
                     slot pos' q = size_add (slot pos q) shift)
       /\ (forall q, 0 <= q <= i -> slot pos' q = slot pos q)).
Proof.
  intros Hwf Hc Hi. unfold shift_offsets, for_loop.
  destruct (Z_le_gt_dec pos_count (i + 1)) as [Hle|Hgt].
  { replace (Z.to_nat (pos_count - (i + 1))) with O by lia.
    apply yields_ret. repeat split; try assumption; try apply Hwf.
    intros q Hq. lia. }
  eapply yields_weaken.
  - apply (for_range_yields_ix _
             (fun j v => index_wf v /\ v.(count) = pos_count
                /\ (forall q, i < q < j ->
                              slot v q = size_add (slot pos q) shift)
                /\ (forall q, 0 <= q -> q <= i \/ j <= q ->
                              slot v q = slot pos q))).
    + intros j v Hj (Hv & Hvc & Hdone & Hrest).
      assert (Hjr : 0 <= j < count v) by lia.
      destruct (vec_get_index v j Hv Hjr) as (w & Ew & Hw).
      eapply yields_bind_lift; [exact Ew|]. rewrite Hw.
      eapply yields_weaken; [apply vec_set_index; assumption|].
      intros v' ->.
      assert (Hjc : 0 <= j < capacity v)
        by (destruct Hv as [[? ? ? ? ?] ?]; lia).
      split; [apply set_slot_wf; assumption|].
      split; [exact Hvc|]. split.
      * intros q Hq. destruct (Z.eq_dec q j) as [->|Hne].
        -- rewrite slot_set_slot_same by (try assumption; apply wrap_range).
           rewrite (Hrest j) by lia. reflexivity.
        -- rewrite slot_set_slot_other by (try assumption; lia).
           apply Hdone. lia.
      * intros q Hq0 Hq.
        rewrite slot_set_slot_other by (try assumption; lia).
        apply Hrest; lia.
    + split; [exact Hwf|]. split; [exact Hc|]. split.
      * intros q Hq. lia.
      * intros q _ _. reflexivity.
  - intros v (Hv & Hvc & Hdone & Hrest).
    replace (i + 1 + Z.of_nat (Z.to_nat (pos_count - (i + 1))))
      with pos_count in * by lia.
    split; [exact Hv|]. split; [exact Hvc|]. split.
    + exact Hdone.
    + intros q Hq. apply Hrest; lia.
Qed.

Lemma write_new_content (s2 : vec_obj_t) (index : Z) (new_str : list byte) :
  str_wf s2 -> 0 <= index ->
  index + strlen new_str <= s2.(count) ->
  yields (write_new s2 index (strlen new_str) new_str)
    (fun s3 => str_wf s3 /\ same_header s2 s3
               /\ s3.(data)
                  = firstn (Z.to_nat index) s2.(data) ++ cstr_bytes new_str
                    ++ skipn (Z.to_nat (index + strlen new_str)) s2.(data)).
Proof.
  intros Hs2 Hi Hfit.
  pose proof Hs2 as [Hv2 H12]. pose proof Hv2 as [Hu Hc Hcap Hd Hfit2].
  unfold SIZEOF_CHAR, SIZEOF_VEC_OBJ in *. rewrite H12 in Hd, Hfit2.
  pose proof (strlen_nat_le new_str) as Hnl.
  unfold write_new, for_loop. rewrite Z.sub_0_r.
  unfold strlen in *. rewrite Nat2Z.id.
  eapply yields_weaken.
  - apply (for_range_yields_ix _
             (fun j s => str_wf s /\ same_header s2 s
                /\ s.(data)
                   = firstn (Z.to_nat index) s2.(data)
                     ++ firstn (Z.to_nat j) (cstr_bytes new_str)
                     ++ skipn (Z.to_nat (index + j)) s2.(data))).
    + intros j s Hj (Hs & (E1 & E2 & E3) & Hdata).
      pose proof Hs as [Hv H1]. unfold SIZEOF_CHAR in H1.
      assert (Hit : 1 <= zlength (ptr_mem (cstr_mem new_str) j))
        by (apply zlength_ptr_mem_cstr; unfold strlen; lia).
      unfold vec_set.
      rewrite size_add_small by (unfold SIZE_MODULUS in *; lia).
      intros h Hh. eexists. exists (tl h).
      split.
      { apply vec_copy_ok; try assumption; try lia;
          rewrite ?H1; unfold VEC_INIT_CAPACITY; lia. }
      split; [apply no_failure_tl; exact Hh|].
      replace (Z.min 1 (count s - (index + j))) with 1 by lia.
      rewrite H1.
      replace ((index + j) * 1) with (index + j) by lia.
      replace (1 * 1) with 1 by lia.
      replace ((index + j + 1) * 1) with (index + j + 1) by lia.
      match goal with |- str_wf ?w /\ _ =>
        assert (Hsh : same_header s w) by (repeat split) end.
      assert (Hlen : length (data s) = length (data s2)).
      { rewrite Hdata. unfold zlength, cstr_bytes in *.
        rewrite !length_app, !length_firstn, length_skipn. lia. }
      split; [|split].
      * split; [|exact H1].
        apply (vec_wf_same_header s); [exact Hv|exact Hsh|].
        unfold set_data, zlength in *. cbn [data].
        rewrite !length_app, !length_firstn, length_skipn. lia.
      * destruct Hsh as (F1 & F2 & F3). repeat split; congruence.
      * unfold set_data. cbn [data].
        set (A := firstn (Z.to_nat index) (data s2)
                  ++ firstn (Z.to_nat j) (cstr_bytes new_str)).
        assert (Ha : length A = Z.to_nat (index + j)).
        { unfold A, zlength, cstr_bytes in *.
          rewrite length_app, !length_firstn. lia. }
        assert (Hd' : data s = A ++ skipn (Z.to_nat (index + j)) (data s2))
          by (rewrite Hdata; unfold A; rewrite app_assoc; reflexivity).
        rewrite Hd'.
        rewrite firstn_app_l by lia. rewrite firstn_all2 by lia.
        rewrite skipn_app, Ha.
        rewrite (skipn_length_nil (Z.to_nat (index + j + 1))) by lia.
        rewrite app_nil_l, skipn_skipn.
        replace (Z.to_nat (index + j + 1) - Z.to_nat (index + j)
                 + Z.to_nat (index + j))%nat
          with (Z.to_nat (index + (j + 1))) by lia.
        unfold A. rewrite <- app_assoc. f_equal.
        replace (Z.to_nat (j + 1)) with (S (Z.to_nat j)) by lia.
        rewrite firstn_succ_nth
          by (unfold cstr_bytes; rewrite length_firstn; lia).
        rewrite <- app_assoc. f_equal. f_equal.
        unfold ptr_mem, cstr_mem.
        rewrite (skipn_nth_cons (new_str ++ [x00]) (Z.to_nat j))
          by (rewrite length_app; simpl; lia).
        cbn [firstn]. f_equal.
        rewrite app_nth1 by lia.
        unfold cstr_bytes. rewrite nth_firstn.
        replace (Z.to_nat j <? strlen_nat new_str)%nat with true
          by (symmetry; apply Nat.ltb_lt; lia).
        reflexivity.
    + split; [exact Hs2|]. split; [repeat split|].
      simpl firstn at 2. rewrite app_nil_l.
      replace (index + 0) with index by lia.
      symmetry. apply firstn_skipn.
  - intros s (Hs & Hh & Hdata).
    split; [exact Hs|]. split; [exact Hh|].
    rewrite Hdata. rewrite Z.add_0_l, Nat2Z.id.
    rewrite (firstn_all2 (cstr_bytes new_str))
      by (unfold cstr_bytes; rewrite length_firstn; lia).
    reflexivity.
Qed.

(** The bytes of the string after one replacement that does not shrink
    it: [d1] is the buffer after the extension, [d2] after the move of the
    tail, [d3] after the new text has been written. *)
Lemma splice_bytes_grow (T d1 d2 d3 pn : list byte)
    (c index len_old len_new : Z) :
  zlength T = c -> firstn (Z.to_nat c) d1 = T ->
  0 <= index -> 0 <= len_old -> index + len_old <= c ->
  len_old <= len_new -> zlength pn = len_new ->
  c + (len_new - len_old) <= zlength d1 ->
  d2 = firstn (Z.to_nat (index + len_new)) d1
       ++ firstn (Z.to_nat (c + (len_new - len_old) - (index + len_new)))
            (skipn (Z.to_nat (index + len_old)) d1)
       ++ skipn (Z.to_nat (c + (len_new - len_old))) d1 ->
  d3 = firstn (Z.to_nat index) d2 ++ pn
       ++ skipn (Z.to_nat (index + len_new)) d2 ->
  firstn (Z.to_nat (c + (len_new - len_old))) d3
  = firstn (Z.to_nat index) T ++ pn
    ++ skipn (Z.to_nat (index + len_old)) T.
Proof.
  intros HT Hd1 Hi Hlo Hv Hle Hpn Hlen1 -> ->.
  unfold zlength in *.
  set (dst := Z.to_nat (index + len_new)).
  set (src := Z.to_nat (index + len_old)).
  set (c1 := Z.to_nat (c + (len_new - len_old))).
  set (tl := Z.to_nat (c + (len_new - len_old) - (index + len_new))).
  assert (Hdst : (dst <= length d1)%nat) by lia.
  assert (Htl : length (firstn tl (skipn src d1)) = tl)
    by (rewrite length_firstn, length_skipn; lia).
  assert (E2 : firstn (Z.to_nat index)
                 (firstn dst d1 ++ firstn tl (skipn src d1) ++ skipn c1 d1)
               = firstn (Z.to_nat index) T).
  { rewrite firstn_app_l by (rewrite length_firstn; lia).
    rewrite firstn_firstn. rewrite <- Hd1, firstn_firstn. f_equal. lia. }
  assert (E3 : skipn dst
                 (firstn dst d1 ++ firstn tl (skipn src d1) ++ skipn c1 d1)
               = firstn tl (skipn src d1) ++ skipn c1 d1).
  { rewrite skipn_app, length_firstn_le by lia.
    rewrite skipn_length_nil by (rewrite length_firstn; lia).
    replace (dst - dst)%nat with O by lia. reflexivity. }
  rewrite E2, E3.
  rewrite app_assoc.
  rewrite firstn_app.
  rewrite firstn_all2 by (rewrite length_app, length_firstn; lia).
  rewrite length_app, length_firstn.
  replace (c1 - (Init.Nat.min (Z.to_nat index) (length T) + length pn))%nat
    with tl by lia.
  assert (E4 : firstn tl (firstn tl (skipn src d1) ++ skipn c1 d1)
               = firstn tl (skipn src d1)).
  { rewrite (firstn_app_l tl (firstn tl (skipn src d1)) (skipn c1 d1));
      [|rewrite Htl; lia].
    apply firstn_all2. rewrite Htl. lia. }
  rewrite E4.
  rewrite <- app_assoc. do 2 f_equal.
  rewrite <- Hd1. rewrite skipn_firstn_comm. f_equal. lia.
Qed.

(** The same for a replacement of equal length: nothing moves. *)
Lemma splice_bytes_same (T d d3 pn : list byte) (c index len : Z) :
  zlength T = c -> firstn (Z.to_nat c) d = T ->
  0 <= index -> 0 <= len -> index + len <= c -> zlength pn = len ->
  d3 = firstn (Z.to_nat index) d ++ pn ++ skipn (Z.to_nat (index + len)) d ->
  firstn (Z.to_nat c) d3
  = firstn (Z.to_nat index) T ++ pn ++ skipn (Z.to_nat (index + len)) T.
Proof.
  intros HT Hd Hi Hl Hv Hpn ->. unfold zlength in *.
  assert (Hdl : (Z.to_nat c <= length d)%nat).
  { rewrite <- Hd in HT. rewrite length_firstn in HT. lia. }
  rewrite app_assoc, firstn_app.
  rewrite firstn_all2 by (rewrite length_app, length_firstn; lia).
  rewrite length_app, length_firstn.
  rewrite <- app_assoc. f_equal.
  - rewrite <- Hd, firstn_firstn. f_equal. lia.
  - f_equal. rewrite <- Hd. rewrite skipn_firstn_comm. f_equal. lia.
Qed.

(** ** The limit of [str_replace] *)

Lemma size_of_int_nonneg (c : Z) :
  0 <= c < SIZE_MODULUS -> size_of_int c = c.
Proof. apply wrap_small. Qed.

Lemma size_of_int_neg (c : Z) :
  - SIZE_MODULUS <= c < 0 -> size_of_int c = SIZE_MODULUS + c.
Proof.
  intros H. unfold size_of_int, wrap.
  replace c with ((SIZE_MODULUS + c) + (-1) * SIZE_MODULUS) at 1 by lia.
  rewrite Z.mod_add by (unfold SIZE_MODULUS; lia).
  apply Z.mod_small. lia.
Qed.

Lemma limited_end (cnt : Z) (found : list Z) (i : Z) :
  zlength found <= i -> skipn (Z.to_nat i) (limited cnt found) = [].
Proof.
  intros H. apply skipn_length_nil. unfold limited, zlength in *.
  destruct (cnt <? 0); [lia|]. rewrite length_firstn. lia.
Qed.

Lemma limited_break (cnt : Z) (found : list Z) (i : Z) :
  0 <= i -> i < SIZE_MODULUS + cnt -> cnt < SIZE_MODULUS ->
  (i >=? size_of_int cnt) = true ->
  skipn (Z.to_nat i) (limited cnt found) = [].
Proof.
  intros Hi Hsmall Hc E. rewrite Z.geb_leb in E. apply Z.leb_le in E.
  apply skipn_length_nil. unfold limited.
  destruct (Z.ltb_spec cnt 0) as [Hneg|Hpos].
  - rewrite size_of_int_neg in E by lia. lia.
  - rewrite size_of_int_nonneg in E by lia.
    rewrite length_firstn. lia.
Qed.

Lemma limited_continue (cnt : Z) (found : list Z) (i : Z) :
  0 <= i < zlength found -> - SIZE_MODULUS <= cnt < SIZE_MODULUS ->
  (i >=? size_of_int cnt) = false ->
  skipn (Z.to_nat i) (limited cnt found)
  = nth (Z.to_nat i) found 0 :: skipn (Z.to_nat (i + 1)) (limited cnt found).
Proof.
  intros Hi Hc E. rewrite Z.geb_leb in E. apply Z.leb_gt in E.
  unfold zlength in Hi.
  assert (Hs : forall (l : list Z) (j : nat),
             (j < length l)%nat -> skipn j l = nth j l 0 :: skipn (S j) l).
  { intros l. induction l as [|a l IH]; intros j Hj; simpl in Hj; [lia|].
    destruct j as [|j]; [reflexivity|]. cbn [skipn nth]. apply IH. lia. }
  replace (Z.to_nat (i + 1)) with (S (Z.to_nat i)) by lia.
  unfold limited. destruct (Z.ltb_spec cnt 0) as [Hneg|Hpos].
  - apply Hs. lia.
  - rewrite size_of_int_nonneg in E by lia.
    rewrite Hs by (rewrite length_firstn; lia).
    f_equal. rewrite nth_firstn.
    replace (Z.to_nat i <? Z.to_nat cnt)%nat with true
      by (symmetry; apply Nat.ltb_lt; lia).
    reflexivity.
Qed.

(** ** str_replace with a new text that is not shorter *)

Section StrReplaceCorrect.
Variables (new_str : list byte) (cnt len_old pos_count : Z) (found : list Z).
Let len_new := strlen new_str.
Let shift := len_new - len_old.
Let pn := cstr_bytes new_str.
Hypothesis Hold : 1 <= len_old.
Hypothesis Hshift : 0 <= shift.
Hypothesis Hfound : zlength found = pos_count.
Hypothesis Hcnt : - SIZE_MODULUS <= cnt < SIZE_MODULUS.
Hypothesis Hpc : pos_count < SIZE_MODULUS + cnt.

Lemma str_replace_loop_correct (k : nat) :
  forall i self pos,
    str_wf self -> index_wf pos -> pos.(count) = pos_count ->
    0 <= i -> i + Z.of_nat k = pos_count ->
    (forall j, i <= j < pos_count ->
        slot pos j = nth (Z.to_nat j) found 0 + i * shift
        /\ 0 <= nth (Z.to_nat j) found 0 + i * shift
        /\ nth (Z.to_nat j) found 0 + i * shift + len_old <= self.(count)) ->
    (shift = 0 \/ self.(count) + Z.of_nat k * shift <= 126) ->
    yields (str_replace_loop k i self pos pos_count len_old len_new shift
              new_str cnt)
      (fun r => exists w,
           r = Some w /\ str_wf w
           /\ str_bytes w
              = splice_each (str_bytes self)
                  (skipn (Z.to_nat i) (limited cnt found)) len_old pn
                  (i * shift)).
Proof.
  assert (Hzpn : zlength pn = len_new) by apply zlength_cstr_bytes.
  induction k as [|k IH];
    intros i self pos Hself Hpos Hpcnt Hi Hik Hvalid Hsize.
  - apply yields_ret. exists self. split; [reflexivity|].
    split; [exact Hself|].
    rewrite limited_end by lia. reflexivity.
  - cbn [str_replace_loop].
    destruct (i >=? size_of_int cnt) eqn:Eb.
    { apply yields_ret. exists self. split; [reflexivity|].
      split; [exact Hself|].
      rewrite limited_break by (try assumption; lia). reflexivity. }
    rewrite limited_continue by (try assumption; lia).
    cbn [splice_each]. rewrite Hzpn. fold shift.
    destruct (vec_get_index pos i Hpos ltac:(lia)) as (w & Ew & Hw).
    eapply yields_bind_lift; [exact Ew|]. rewrite Hw.
    destruct (Hvalid i ltac:(lia)) as (Hslot & Hidx0 & Hidx).
    rewrite Hslot.
    set (index := nth (Z.to_nat i) found 0 + i * shift) in *.
    pose proof Hself as [Hv H1]. pose proof Hv as [Hu Hc Hcap Hd Hfit].
    unfold SIZEOF_CHAR, SIZEOF_VEC_OBJ, VEC_INIT_CAPACITY in Hu, Hc, Hcap, Hd,
      Hfit, H1.
    rewrite H1 in Hd, Hfit.
    assert (HT : zlength (str_bytes self) = count self)
      by (apply zlength_str_bytes; exact Hself).
    replace (i * shift + shift) with ((i + 1) * shift) by lia.
    destruct (Z.eq_dec shift 0) as [Hs0|Hs0].
    + (* equal lengths: the new text is written over the old one *)
      rewrite Hs0 at 1. cbn [Z.eqb negb].
      assert (Hnew : len_new = len_old) by (unfold shift in Hs0; lia).
      eapply yields_bind;
        [apply write_new_content; [exact Hself|exact Hidx0|fold len_new; lia]|].
      intros s3 (Hs3 & (E1 & E2 & E3) & Hd3).
      eapply yields_weaken.
      * apply (IH (i + 1) s3 pos); try assumption; try lia.
        intros j Hj. destruct (Hvalid j ltac:(lia)) as (Ha & Hb & Hcj).
        rewrite E3. rewrite Hs0 in *. split; [lia|]. split; lia.
      * intros r (w' & -> & Hw' & Hbytes).
        exists w'. split; [reflexivity|]. split; [exact Hw'|].
        rewrite Hbytes. f_equal.
        unfold str_bytes at 1. rewrite E3.
        fold len_new in Hd3. rewrite Hnew in Hd3.
        apply (splice_bytes_same (str_bytes self) (data self) (data s3) pn
                 (count self) index len_old);
          try assumption; try lia; try reflexivity.
    + (* the new text is longer: extend, move the tail, write *)
      rewrite eqb_false by exact Hs0. cbn [negb].
      destruct Hsize as [?|Hsize]; [contradiction|].
      assert (Hgrow : count self + shift <= 126) by nia.
      eapply yields_bind;
        [apply str_extend_keep_yields; [exact Hself|lia|lia]|].
      intros r (s1 & -> & Hs1 & Hc1 & Hcap1 & Hd1).
      pose proof Hs1 as [[_ _ _ Hdl1 _] H11].
      unfold SIZEOF_CHAR in H11. rewrite H11 in Hdl1.
      unfold str_length, vec_count.
      rewrite size_add_small by (unfold SIZE_MODULUS; lia).
      rewrite size_add_small by (unfold SIZE_MODULUS; lia).
      rewrite size_sub_small by (unfold SIZE_MODULUS; lia).
      eapply yields_bind.
      { apply vec_copy_move_yields; try exact Hs1; rewrite ?Hc1, ?Hcap1;
          unfold VEC_INIT_CAPACITY; unfold shift in *; lia. }
      intros s2 (Hs2 & (F1 & F2 & F3) & Hd2).
      eapply yields_bind;
        [apply shift_offsets_content; [exact Hpos|exact Hpcnt|exact Hi]|].
      intros pos' (Hpos' & Hpc' & Hmoved & Hkept).
      eapply yields_bind;
        [apply write_new_content;
         [exact Hs2|exact Hidx0|fold len_new; unfold shift in *; lia]|].
      intros s3 (Hs3 & (G1 & G2 & G3) & Hd3).
      eapply yields_weaken.
      * apply (IH (i + 1) s3 pos'); try assumption; try lia;
          try (right; rewrite G3, F3, Hc1; nia).
        intros j Hj. destruct (Hvalid j ltac:(lia)) as (Ha & Hb & Hcj).
        rewrite Hmoved by lia. rewrite Ha.
        rewrite size_add_small by (unfold SIZE_MODULUS in *; lia).
        rewrite G3, F3, Hc1. split; [lia|]. split; lia.
      * intros r (w' & -> & Hw' & Hbytes).
        exists w'. split; [reflexivity|]. split; [exact Hw'|].
        rewrite Hbytes. f_equal.
        unfold str_bytes at 1. rewrite G3, F3, Hc1.
        fold len_new in Hd3.
        apply (splice_bytes_grow (str_bytes self) (data s1) (data s2)
                 (data s3) pn (count self) index len_old len_new);
          try assumption; try lia; try reflexivity.
        rewrite Hd2, Hc1. reflexivity.
Qed.
End StrReplaceCorrect.

Lemma nth_index_items (v : vec_obj_t) (j : Z) :
  0 <= j < v.(count) -> nth (Z.to_nat j) (index_items v) 0 = slot v j.
Proof.
  intros Hj. unfold index_items.
  change 0 with (decode_size []) at 1. rewrite map_nth.
  rewrite nth_chunks by lia. unfold slot. do 3 f_equal. lia.
Qed.

(** [str_replace] with a [new_str] that is not shorter than [old_str], on
    a well-formed string: when no allocation fails, the result holds the
    replacements at the occurrences that the search reports, left to
    right, at most [cnt] of them, all of them for a negative [cnt].  A
    longer [new_str] must leave the result within 126 bytes. *)
Lemma str_replace_correct (self : vec_obj_t) (old_str new_str : list byte)
    (cnt : Z) :
  str_wf self ->
  1 <= strlen old_str <= str_length self ->
  strlen old_str <= VEC_INIT_CAPACITY ->
  32 * self.(count) + 4096 < SIZE_MODULUS ->
  - 2147483648 <= cnt < 2147483648 ->
  strlen new_str = strlen old_str
  \/ (strlen old_str < strlen new_str
      /\ self.(count)
         + zlength (spec_find (cstr_bytes old_str) (str_bytes self))
           * (strlen new_str - strlen old_str) <= 126) ->
  yields (str_replace self old_str new_str cnt)
    (fun r => exists w,
         r = Some w /\ str_wf w
         /\ str_bytes w
            = spec_replace (str_bytes self) (cstr_bytes old_str)
                (cstr_bytes new_str) cnt).
Proof.
  intros Hself Hlen Hcap Hroom Hcnt Hnew.
  unfold str_replace. unfold str_length, vec_count in *.
  rewrite gtb_false by lia.
  eapply yields_bind;
    [apply str_find_finds_all; [exact Hself|lia|exact Hroom]|].
  intros r (pos & -> & Hpos & Hitems).
  unfold vec_count, spec_replace. rewrite zlength_cstr_bytes.
  set (found := spec_find (cstr_bytes old_str) (str_bytes self)) in *.
  assert (Hpc0 : 0 <= pos.(count))
    by (destruct Hpos as [[? ? ? ? ?] ?]; lia).
  assert (Hfl : zlength found = pos.(count)).
  { unfold zlength. rewrite <- Hitems, length_index_items. lia. }
  assert (Hpcn : pos.(count) <= self.(count)).
  { pose proof (length_spec_find (cstr_bytes old_str) (str_bytes self)) as Hl.
    fold found in Hl. unfold zlength in Hfl.
    pose proof (zlength_str_bytes self Hself) as Hz. unfold zlength in Hz.
    lia. }
  destruct (Z.eqb_spec (count pos) 0) as [E0|E0].
  { apply yields_ret. exists self. split; [reflexivity|].
    split; [exact Hself|].
    destruct found as [|x found']; [|unfold zlength in Hfl; simpl in Hfl; lia].
    unfold limited. destruct (cnt <? 0); [reflexivity|].
    rewrite firstn_nil. reflexivity. }
  pose proof (strlen_nonneg new_str) as Hn0.
  assert (Hsh : 0 <= strlen new_str - strlen old_str <= 126)
    by (destruct Hnew as [?|[? ?]]; nia).
  rewrite size_sub_small by (unfold SIZE_MODULUS in *; lia).
  eapply yields_weaken with
    (P := fun r => exists w,
         r = Some w /\ str_wf w
         /\ str_bytes w
            = splice_each (str_bytes self)
                (skipn (Z.to_nat 0) (limited cnt found)) (strlen old_str)
                (cstr_bytes new_str)
                (0 * (strlen new_str - strlen old_str))).
  { apply (str_replace_loop_correct new_str cnt (strlen old_str)
             (count pos) found); try assumption; try lia.
    { unfold SIZE_MODULUS. lia. }
    { unfold SIZE_MODULUS in *. lia. }
    intros j Hj. rewrite Z.mul_0_l, Z.add_0_r.
    rewrite <- Hitems. rewrite nth_index_items by lia.
    split; [reflexivity|].
    assert (Hin : In (slot pos j) found).
    { rewrite <- (nth_index_items pos j) by lia. rewrite Hitems.
      apply nth_In. unfold zlength in Hfl. lia. }
    pose proof (spec_find_found_all (cstr_bytes old_str) (str_bytes self)
                  ltac:(rewrite zlength_cstr_bytes; lia)) as [_ Hall].
    apply Hall in Hin. destruct Hin as (H0 & Hb & _).
    rewrite zlength_cstr_bytes, (zlength_str_bytes self Hself) in Hb.
    lia. }
  intros r (w & -> & Hw & Hbytes).
  exists w. split; [reflexivity|]. split; [exact Hw|].
  rewrite Hbytes. reflexivity.
Qed.

(** C4 (defect of the code).  With a [new_str] that is not shorter than
    [old_str], [str_replace] does what the claim says: the replacements
    are applied left to right at the occurrences that the search reports,
    at most [cnt] of them, and all of them for every negative [cnt] (a
    longer [new_str] must leave the result within 126 bytes, see C1).  With
    a shorter [new_str] it does not: it first shrinks the string, which
    writes the terminator into the bytes that are still to be moved, and
    then takes the source of the move from a pointer clamped to the shrunk
    length.  In ["ab!"] the replacement of ["ab"] by ["c"] gives ["cb"], not
    ["c!"].  The three replacements of the claim come out as stated. *)
Theorem str_replace_shorter_loses_tail :
  (forall self old_str new_str cnt h,
      str_wf self ->
      1 <= strlen old_str <= str_length self ->
      strlen old_str <= VEC_INIT_CAPACITY ->
      32 * self.(count) + 4096 < SIZE_MODULUS ->
      - 2147483648 <= cnt < 2147483648 ->
      strlen new_str = strlen old_str
      \/ (strlen old_str < strlen new_str
          /\ self.(count)
             + zlength (spec_find (cstr_bytes old_str) (str_bytes self))
               * (strlen new_str - strlen old_str) <= 126) ->
      no_failure h ->
      exists w h',
        str_replace self old_str new_str cnt h = Done (Some w, h')
        /\ str_bytes w
           = spec_replace (str_bytes self) (cstr_bytes old_str)
               (cstr_bytes new_str) cnt)
  /\ spec_replace (bytes_of_string "ab!") (bytes_of_string "ab")
       (bytes_of_string "c") (-1) = bytes_of_string "c!"
  /\ view (run (new_then "ab!"
                  (fun v => str_replace v (bytes_of_string "ab")
                              (bytes_of_string "c") (-1))) [])
     = Done (Some (bytes_of_string "cb"))
  /\ view (run (new_then "ciao mondo ciao"
                  (fun v => str_replace v (bytes_of_string "ciao")
                              (bytes_of_string "hi") (-1))) [])
     = Done (Some (bytes_of_string "hi mondo hi"))
  /\ view (run (new_then "hi mondo hi"
                  (fun v => str_replace v (bytes_of_string "hi")
                              (bytes_of_string "ciao") (-1))) [])
     = Done (Some (bytes_of_string "ciao mondo ciao"))
  /\ view (run (new_then "ABABACCABA"
                  (fun v => str_replace v (bytes_of_string "A")
                              (bytes_of_string "F") 1)) [])
     = Done (Some (bytes_of_string "FBABACCABA")).
Proof.
  split; [|repeat split; vm_compute; reflexivity].
  intros self old_str new_str cnt h Hself Hlen Hcap Hroom Hcnt Hnew Hh.
  destruct (str_replace_correct self old_str new_str cnt Hself Hlen Hcap
              Hroom Hcnt Hnew h Hh)
    as (r & h' & E & _ & w & -> & _ & Hbytes).
  exists w, h'. split; [exact E|exact Hbytes].
Qed.

Lemma str_replace_shorter_loses_tail_witness :
  exists w h',
    str_replace (mk_vec 1 128 11 (bytes_of_string "hi mondo hi" ++ zeros 117))
      (bytes_of_string "hi") (bytes_of_string "ciao") (-1) []
    = Done (Some w, h')
    /\ str_bytes w
       = spec_replace
           (str_bytes (mk_vec 1 128 11
                         (bytes_of_string "hi mondo hi" ++ zeros 117)))
           (cstr_bytes (bytes_of_string "hi"))
           (cstr_bytes (bytes_of_string "ciao")) (-1).
Proof.
  apply (proj1 str_replace_shorter_loses_tail).
  - split; [constructor|]; repeat split; vm_compute;
      try reflexivity; discriminate.
  - repeat split; vm_compute; discriminate.
  - vm_compute. discriminate.
  - vm_compute. reflexivity.
  - repeat split; vm_compute; try reflexivity; discriminate.
  - right. repeat split; vm_compute; try reflexivity; discriminate.
  - constructor.
Defined.

(** ** The vector core within its limits *)

(** Decides the order facts of a closed instance. *)
Ltac by_computation :=
  repeat split; vm_compute; solve [reflexivity | discriminate].

Lemma firstn_prefix_le {A} (a b : nat) (l1 l2 : list A) :
  (a <= b)%nat -> firstn b l1 = firstn b l2 -> firstn a l1 = firstn a l2.
Proof.
  intros Hab H.
  rewrite <- (Nat.min_l a b Hab), <- !firstn_firstn, H. reflexivity.
Qed.

Lemma vec_resize_within (v : vec_obj_t) (cnt : Z) (h : heap) :
  vec_wf v -> can_double v -> 0 <= cnt <= 2 * v.(capacity) -> no_failure h ->
  exists w h',
    vec_resize v cnt h = Done (Some w, h')
    /\ no_failure h'
    /\ vec_wf w /\ w.(count) = cnt /\ w.(unit_size) = v.(unit_size)
    /\ w.(capacity)
       = (if cnt <? v.(capacity) then v.(capacity) else 2 * v.(capacity))
    /\ firstn (Z.to_nat (Z.min v.(count) cnt * v.(unit_size))) w.(data)
       = firstn (Z.to_nat (Z.min v.(count) cnt * v.(unit_size))) v.(data)
    /\ (cnt < v.(capacity) -> h' = h /\ w.(data) = v.(data)).
Proof.
  intros Hwf Hdbl Hcnt Hh.
  pose proof Hwf as [Hu Hc Hcap Hd Hfit].
  destruct (Z_lt_ge_dec cnt (capacity v)) as [Hlt|Hge].
  - exists (mk_vec v.(unit_size) v.(capacity) cnt v.(data)), h.
    rewrite vec_resize_keep by exact Hlt.
    rewrite ltb_true by exact Hlt. cbn [count unit_size capacity data].
    repeat split; auto; cbn [count unit_size capacity data]; try lia.
  - eexists. exists (tl h).
    rewrite vec_resize_grow by (auto; lia).
    rewrite ltb_false by lia. cbn [count unit_size capacity data].
    split; [reflexivity|]. split; [apply no_failure_tl; exact Hh|].
    assert (Hlen : (Z.to_nat (count v * unit_size v) <= length (data v))%nat).
    { unfold zlength in Hd. nia. }
    split; [|split; [reflexivity|split; [reflexivity|split; [reflexivity|split]]]].
    + split; cbn [count unit_size capacity data]; try lia.
      * rewrite zlength_app, zlength_zeros by nia.
        unfold zlength. rewrite length_firstn_le by exact Hlen. nia.
      * unfold can_double in Hdbl. lia.
    + replace (Z.min (count v) cnt) with (count v) by lia.
      cbn [data].
      rewrite firstn_app_l by (rewrite length_firstn_le by exact Hlen; lia).
      rewrite firstn_firstn. f_equal. lia.
    + intros Hlt. lia.
Qed.

(** X1.  [vec_resize] keeps a vector well formed, [count <= capacity]
    included, whenever the requested count is at most twice the capacity: the
    block is left alone (and the allocator is not called) when the count is
    below the capacity, and doubled once otherwise.  The items below the
    smaller of the old and the new count keep their bytes. *)
Theorem vec_resize_up_to_twice_capacity (v : vec_obj_t) (cnt : Z) (h : heap) :
  vec_wf v -> can_double v -> 0 <= cnt <= 2 * v.(capacity) -> no_failure h ->
  exists w h',
    vec_resize v cnt h = Done (Some w, h')
    /\ vec_wf w /\ count_within_capacity w
    /\ vec_count w = cnt /\ vec_unit_size w = vec_unit_size v
    /\ vec_capacity w
       = (if cnt <? vec_capacity v then vec_capacity v
          else 2 * vec_capacity v)
    /\ firstn (Z.to_nat (Z.min v.(count) cnt * v.(unit_size))) w.(data)
       = firstn (Z.to_nat (Z.min v.(count) cnt * v.(unit_size))) v.(data)
    /\ (cnt < vec_capacity v -> h' = h /\ w.(data) = v.(data)).
Proof.
  intros Hwf Hdbl Hcnt Hh.
  destruct (vec_resize_within v cnt h Hwf Hdbl Hcnt Hh)
    as (w & h' & E & _ & Hw & Hc & Hu & Hcap & Hpre & Hsame).
  exists w, h'. unfold vec_count, vec_unit_size, vec_capacity.
  repeat split; try assumption; try apply Hw; try (apply Hsame; assumption).
Qed.

Lemma vec_resize_up_to_twice_capacity_witness :
  exists w h',
    vec_resize (mk_vec 4 128 100 (zeros 512)) 200 [] = Done (Some w, h')
    /\ vec_wf w /\ count_within_capacity w.
Proof.
  destruct (vec_resize_up_to_twice_capacity (mk_vec 4 128 100 (zeros 512)) 200 [])
    as (w & h' & E & Hw & Hc & _).
  - by_computation.
  - by_computation.
  - by_computation.
  - constructor.
  - exists w, h'. auto.
Defined.

(** X2.  Growing a vector one item at a time, as the loop of
    [test_vec_extend] does, passes both assertions in every round and keeps
    the vector well formed: the capacity is doubled each time the count
    reaches it.  The items that were there keep their bytes. *)
Theorem vec_extend_one_at_a_time (rounds : Z) (v : vec_obj_t) :
  vec_wf v -> 0 <= rounds ->
  4 * (v.(capacity) + rounds) * v.(unit_size) + SIZEOF_VEC_OBJ < SIZE_MODULUS ->
  yields (test_vec_extend_loop rounds v)
    (fun w => vec_wf w /\ count_within_capacity w
              /\ vec_count w = vec_count v + rounds
              /\ vec_unit_size w = vec_unit_size v
              /\ firstn (Z.to_nat (v.(count) * v.(unit_size))) w.(data)
                 = firstn (Z.to_nat (v.(count) * v.(unit_size))) v.(data)).
Proof.
  intros Hwf Hr Hroom.
  pose proof Hwf as [Hu Hc Hcap Hd Hfit].
  unfold test_vec_extend_loop, for_loop.
  set (I := fun (j : Z) (s : vec_obj_t) =>
              vec_wf s /\ s.(count) = v.(count) + j
              /\ s.(unit_size) = v.(unit_size)
              /\ s.(capacity) <= Z.max v.(capacity) (2 * s.(count))
              /\ firstn (Z.to_nat (v.(count) * v.(unit_size))) s.(data)
                 = firstn (Z.to_nat (v.(count) * v.(unit_size))) v.(data)).
  eapply yields_weaken.
  - apply (for_range_yields_ix _ I (Z.to_nat (rounds - 0)) 0 v).
    + intros j s Hj (Hs & Hcs & Hus & Hcaps & Hpre).
      pose proof Hs as [Hu' Hc' Hcap' Hd' Hfit'].
      unfold SIZEOF_VEC_OBJ, SIZE_MODULUS, VEC_INIT_CAPACITY in *.
      assert (Hdbl : can_double s).
      { unfold can_double, SIZEOF_VEC_OBJ, SIZE_MODULUS. rewrite Hus. nia. }
      unfold vec_extend, vec_count.
      rewrite size_add_small by (unfold SIZE_MODULUS; nia).
      intros h Hh.
      destruct (vec_resize_within s (count s + 1) h Hs Hdbl ltac:(lia) Hh)
        as (w & h' & E & Hh' & Hw & Hcw & Huw & Hcapw & Hprew & _).
      exists w, h'. unfold bind. rewrite E.
      rewrite Hcw, Z.eqb_refl. split; [reflexivity|]. split; [exact Hh'|].
      unfold I. split; [exact Hw|]. split; [lia|]. split; [congruence|].
      split.
      * rewrite Hcapw. destruct (count s + 1 <? capacity s) eqn:El.
        -- lia.
        -- apply Z.ltb_ge in El. lia.
      * rewrite <- Hpre.
        replace (Z.min (count s) (count s + 1)) with (count s) in Hprew by lia.
        rewrite Hus in Hprew.
        assert (Hle : (Z.to_nat (count v * unit_size v)
                       <= Z.to_nat (count s * unit_size v))%nat) by nia.
        exact (firstn_prefix_le _ _ _ _ Hle Hprew).
    + unfold I. split; [exact Hwf|]. split; [lia|]. split; [reflexivity|].
      split; [lia|reflexivity].
  - intros w (Hw & Hcw & Huw & _ & Hpre).
    unfold vec_count, vec_unit_size, count_within_capacity.
    split; [exact Hw|]. split; [apply Hw|]. split; [lia|]. split; assumption.
Qed.

Lemma vec_extend_one_at_a_time_witness :
  yields test_vec_extend (fun _ => True).
Proof.
  unfold test_vec_extend, vec_new.
  eapply yields_bind.
  - apply (yields_vec_new_len SIZEOF_INT 0); by_computation.
  - intros r ->. unfold on_handle.
    eapply yields_bind.
    + apply (vec_extend_one_at_a_time 2048
               (mk_vec SIZEOF_INT VEC_INIT_CAPACITY 0
                  (zeros (VEC_INIT_CAPACITY * SIZEOF_INT)))).
      * by_computation.
      * by_computation.
      * by_computation.
    + intros w _. apply yields_ret. exact I.
Defined.

Lemma vec_set_data (v : vec_obj_t) (pos : Z) (item : list byte) (h : heap) :
  vec_wf v -> 0 <= pos < v.(count) -> v.(unit_size) <= zlength item ->
  no_failure h ->
  vec_set v pos item h
  = Done (set_data v
            (firstn (Z.to_nat (pos * v.(unit_size))) v.(data)
             ++ firstn (Z.to_nat v.(unit_size)) item
             ++ skipn (Z.to_nat (pos * v.(unit_size))
                       + length (firstn (Z.to_nat v.(unit_size)) item))
                  v.(data)),
          tl h).
Proof.
  intros Hwf Hpos Hitem Hh.
  pose proof Hwf as [Hu Hc Hcap Hd Hfit].
  unfold vec_set.
  unfold VEC_INIT_CAPACITY in *.
  assert (Em : Z.min 1 (count v - pos) = 1) by lia.
  rewrite vec_copy_ok; rewrite ?Em; try assumption;
    try (unfold VEC_INIT_CAPACITY; lia).
  unfold zlength in Hitem.
  assert (Hst : length (firstn (Z.to_nat (unit_size v)) item)
                = Z.to_nat (unit_size v)).
  { apply length_firstn_le. lia. }
  rewrite Hst.
  replace (1 * unit_size v) with (unit_size v) by lia.
  replace (Z.to_nat ((pos + 1) * unit_size v))
    with (Z.to_nat (pos * unit_size v) + Z.to_nat (unit_size v))%nat by nia.
  reflexivity.
Qed.

(** X3.  [vec_set] followed by [vec_get] at the same position gives back the
    item that was stored, and the other items of the vector are as they
    were; a [vec_set] at a position that is not below the count changes
    nothing. *)
Theorem vec_get_after_vec_set (v : vec_obj_t) (pos : Z) (item : list byte)
    (h : heap) :
  vec_wf v -> 0 <= pos -> vec_unit_size v <= zlength item -> no_failure h ->
  (vec_count v <= pos -> vec_set v pos item h = Done (v, h))
  /\ (pos < vec_count v ->
      exists w h',
        vec_set v pos item h = Done (w, h')
        /\ same_header v w
        /\ vec_get w pos = Done (firstn (Z.to_nat (vec_unit_size v)) item)
        /\ (forall q, 0 <= q < vec_count v -> q <> pos ->
                      vec_get w q = vec_get v q)).
Proof.
  unfold vec_count, vec_unit_size.
  intros Hwf Hpos Hitem Hh. split.
  - intros Hout. apply vec_copy_outside. exact Hout.
  - intros Hin.
    pose proof Hwf as [Hu Hc Hcap Hd Hfit].
    eexists. exists (tl h).
    rewrite vec_set_data by (auto; lia).
    split; [reflexivity|].
    unfold zlength in Hitem, Hd.
    unfold SIZEOF_VEC_OBJ, SIZE_MODULUS, VEC_INIT_CAPACITY in *.
    assert (Hst : length (firstn (Z.to_nat (unit_size v)) item)
                  = Z.to_nat (unit_size v)).
    { apply length_firstn_le. lia. }
    assert (Hfits : (Z.to_nat (pos * unit_size v)
                     + length (firstn (Z.to_nat (unit_size v)) item)
                     <= length (data v))%nat).
    { rewrite Hst. nia. }
    assert (Hlen : length (firstn (Z.to_nat (pos * unit_size v)) (data v)
                           ++ firstn (Z.to_nat (unit_size v)) item
                           ++ skipn (Z.to_nat (pos * unit_size v)
                                     + length (firstn (Z.to_nat (unit_size v))
                                                 item)) (data v))
                   = length (data v)).
    { rewrite !length_app, length_skipn, length_firstn_le by lia. lia. }
    assert (Hptr : forall d q, 0 <= q < count v ->
              vec_ptr_at (set_data v d) q = q * unit_size v).
    { intros d q Hq. unfold set_data.
      rewrite vec_ptr_at_inside; cbn [count unit_size];
        [reflexivity|unfold SIZE_MODULUS; nia..]. }
    assert (Hsame : forall q, 0 <= q < count v ->
              vec_ptr_at v q = q * unit_size v).
    { intros q Hq. apply vec_ptr_at_inside; unfold SIZE_MODULUS; nia. }
    split; [repeat split|]. split.
    + rewrite vec_get_in_data
        by (rewrite Hptr by lia; unfold SIZEOF_VEC_OBJ, SIZE_MODULUS; nia).
      rewrite Hptr by lia.
      unfold set_data. cbn [data unit_size count].
      rewrite mem_read_ok;
        [| nia | lia | unfold zlength; rewrite Hlen; nia].
      rewrite <- Hst at 1.
      rewrite firstn_skipn_write_same by exact Hfits. reflexivity.
    + intros q Hq Hne.
      rewrite (vec_get_in_data (set_data _ _))
        by (rewrite Hptr by lia; unfold SIZEOF_VEC_OBJ, SIZE_MODULUS; nia).
      rewrite (vec_get_in_data v)
        by (rewrite Hsame by lia; unfold SIZEOF_VEC_OBJ, SIZE_MODULUS; nia).
      rewrite Hptr, Hsame by lia.
      unfold set_data. cbn [data unit_size count].
      rewrite !mem_read_ok;
        [| nia | lia | unfold zlength; nia
         | nia | lia | unfold zlength; rewrite Hlen; nia].
      f_equal.
      destruct (Z_lt_ge_dec q pos) as [Hlt|Hge].
      * apply firstn_skipn_write_below; [exact Hfits|nia].
      * apply firstn_skipn_write_above; [exact Hfits|rewrite Hst; nia].
Qed.

Lemma vec_get_after_vec_set_witness :
  exists w h',
    vec_set (mk_vec 8 128 10 (zeros 1024)) 3 (encode_size 7) [] = Done (w, h')
    /\ vec_get w 3 = Done (firstn 8 (encode_size 7)).
Proof.
  destruct (vec_get_after_vec_set (mk_vec 8 128 10 (zeros 1024)) 3
              (encode_size 7) []) as [_ H].
  - by_computation.
  - by_computation.
  - by_computation.
  - constructor.
  - destruct H as (w & h' & E & _ & Hg & _); [by_computation|].
    exists w, h'. split; [exact E|exact Hg].
Defined.

(** X4.  With no item to copy, or a position that is not below the count,
    [vec_copy] returns the vector as it is and does not allocate.  Otherwise
    it copies [n = min len (count - pos)] items; when [n] is at most
    [VEC_INIT_CAPACITY], the number of items its staging buffer holds, and
    the source holds [n] items, the copy writes the items [pos .. pos + n)
    and nothing else: the header, the bytes in front of [pos] and the bytes
    from item [pos + n] on, the ones behind [count] included, are as they
    were. *)
Theorem vec_copy_stays_below_count (v : vec_obj_t) (pos : Z)
    (items : list byte) (len : Z) (h : heap) :
  (len = 0 \/ vec_count v <= pos -> vec_copy v pos items len h = Done (v, h))
  /\ (let copied := Z.min len (vec_count v - pos) in
      vec_wf v -> 0 <= pos < vec_count v -> 1 <= len ->
      copied <= VEC_INIT_CAPACITY ->
      copied * vec_unit_size v <= zlength items ->
      no_failure h ->
      exists w h',
        vec_copy v pos items len h = Done (w, h')
        /\ same_header v w
        /\ firstn (Z.to_nat (pos * vec_unit_size v)) w.(data)
           = firstn (Z.to_nat (pos * vec_unit_size v)) v.(data)
        /\ firstn (Z.to_nat (copied * vec_unit_size v))
             (skipn (Z.to_nat (pos * vec_unit_size v)) w.(data))
           = firstn (Z.to_nat (copied * vec_unit_size v)) items
        /\ items_from w (pos + copied) = items_from v (pos + copied)
        /\ items_from w (vec_count v) = items_from v (vec_count v)).
Proof.
  unfold vec_count, vec_unit_size. split.
  - intros [->|Hout]; [reflexivity|apply vec_copy_outside; exact Hout].
  - intros Hwf Hpos Hlen1 Hsmall Hitems Hh.
    pose proof Hwf as [Hu Hc Hcap Hd Hfit].
    eexists. exists (tl h).
    rewrite vec_copy_ok by (auto; lia).
    set (copied := Z.min len (count v - pos)) in *.
    split; [reflexivity|].
    unfold set_data, items_from. cbn [data unit_size count capacity].
    assert (Hcp : 1 <= copied <= count v - pos) by (unfold copied; lia).
    unfold zlength in Hd, Hitems.
    set (bs := firstn (Z.to_nat (copied * unit_size v)) items).
    assert (Hbs : length bs = Z.to_nat (copied * unit_size v)).
    { apply length_firstn_le. nia. }
    fold copied. fold bs.
    replace (Z.to_nat ((pos + copied) * unit_size v))
      with (Z.to_nat (pos * unit_size v) + length bs)%nat by nia.
    assert (Hfits : (Z.to_nat (pos * unit_size v) + length bs
                     <= length (data v))%nat) by nia.
    split; [repeat split|].
    split; [|split; [|split]].
    + rewrite firstn_app_l by (rewrite length_firstn_le; lia).
      rewrite firstn_firstn. f_equal. lia.
    + rewrite <- Hbs. apply firstn_skipn_write_same. exact Hfits.
    + apply skipn_write_above; [lia|exact Hfits].
    + apply skipn_write_above; [nia|exact Hfits].
Qed.

Lemma vec_copy_stays_below_count_witness :
  exists w h',
    vec_copy (mk_vec 1 128 4 (zeros 128)) 2 (bytes_of_string "abcdef") 6 []
    = Done (w, h')
    /\ same_header (mk_vec 1 128 4 (zeros 128)) w
    /\ items_from w 4 = items_from (mk_vec 1 128 4 (zeros 128)) 4.
Proof.
  destruct (vec_copy_stays_below_count (mk_vec 1 128 4 (zeros 128)) 2
              (bytes_of_string "abcdef") 6 []) as [_ H].
  destruct H as (w & h' & E & Hh & _ & _ & _ & Ht).
  - by_computation.
  - by_computation.
  - by_computation.
  - by_computation.
  - by_computation.
  - constructor.
  - exists w, h'. split; [exact E|]. split; [exact Hh|exact Ht].
Defined.

(** A copy of more than [VEC_INIT_CAPACITY] items, or one whose staging
    buffer cannot be allocated, has no result; the vector need not be well
    formed. *)
Lemma vec_copy_no_result (v : vec_obj_t) (pos : Z) (items : list byte)
    (len : Z) (h : heap) :
  1 <= v.(unit_size) -> 0 <= pos < v.(count) -> 1 <= len ->
  v.(count) * v.(unit_size) < SIZE_MODULUS ->
  VEC_INIT_CAPACITY * v.(unit_size) + SIZEOF_VEC_OBJ < SIZE_MODULUS ->
  alloc_succeeds h = false
  \/ VEC_INIT_CAPACITY < Z.min len (v.(count) - pos) ->
  vec_copy v pos items len h = Crash.
Proof.
  intros Hu Hpos Hlen Hc Hfit Hcase.
  unfold VEC_INIT_CAPACITY, SIZEOF_VEC_OBJ in *.
  assert (E : vec_copy v pos items len h
              = bind (vec_new_len v.(unit_size) (Z.min len (count v - pos)))
                  (fun buff =>
                     match buff with
                     | None => crash
                     | Some buff =>
                         let n := Z.min len (count v - pos) * v.(unit_size) in
                         staged <- lift (mem_read items 0 n) ;;
                         bdata <- lift (mem_write buff.(data) 0 staged) ;;
                         staged' <- lift (mem_read bdata 0 n) ;;
                         d <- lift (mem_write v.(data) (vec_ptr_at v pos)
                                      staged') ;;
                         ret (set_data v d)
                     end) h).
  { unfold vec_copy.
    replace (len =? 0) with false by (symmetry; apply Z.eqb_neq; lia).
    rewrite geb_false by lia.
    rewrite size_sub_small by (unfold SIZE_MODULUS in *; nia).
    replace (if len >? count v - pos then count v - pos else len)
      with (Z.min len (count v - pos)).
    2:{ destruct (Z_le_gt_dec len (count v - pos)).
        - rewrite gtb_false by lia. lia.
        - rewrite gtb_true by lia. lia. }
    rewrite size_mul_small by (unfold SIZE_MODULUS in *; nia).
    reflexivity. }
  rewrite E. unfold bind.
  rewrite vec_new_len_spec
    by (unfold VEC_INIT_CAPACITY, SIZEOF_VEC_OBJ; nia).
  destruct Hcase as [->|Hbig]; [reflexivity|].
  destruct (alloc_succeeds h); [|reflexivity].
  cbn [data]. unfold lift, crash.
  destruct (mem_read items 0 (Z.min len (count v - pos) * unit_size v))
    as [staged|] eqn:Er; [|reflexivity].
  apply mem_read_length in Er.
  unfold mem_write.
  rewrite zlength_zeros by (unfold VEC_INIT_CAPACITY; lia).
  replace (0 + zlength staged <=? VEC_INIT_CAPACITY * unit_size v)
    with false; [reflexivity|].
  symmetry. apply Z.leb_gt. unfold zlength, VEC_INIT_CAPACITY.
  rewrite Er. nia.
Qed.

(** X5.  The staging buffer of [vec_copy] is a fresh vector of
    [VEC_INIT_CAPACITY] items whose allocation is not checked: a copy of
    more than [VEC_INIT_CAPACITY] items runs over the end of that buffer,
    and a copy whose buffer cannot be allocated writes through NULL.
    Neither has a result. *)
Theorem vec_copy_staging_buffer_limits (v : vec_obj_t) (pos : Z)
    (items : list byte) (len : Z) (h : heap) :
  vec_wf v -> 0 <= pos < vec_count v -> 1 <= len ->
  (alloc_succeeds h = false -> vec_copy v pos items len h = Crash)
  /\ (VEC_INIT_CAPACITY < Z.min len (vec_count v - pos) ->
      vec_copy v pos items len h = Crash).
Proof.
  unfold vec_count.
  intros Hwf Hpos Hlen.
  pose proof Hwf as [Hu Hc Hcap Hd Hfit].
  unfold VEC_INIT_CAPACITY, SIZEOF_VEC_OBJ in *.
  split; intros Hcase; apply vec_copy_no_result; auto;
    unfold VEC_INIT_CAPACITY, SIZEOF_VEC_OBJ; nia.
Qed.

Lemma vec_copy_staging_buffer_limits_witness :
  vec_copy (mk_vec 1 256 200 (zeros 256)) 0 (zeros 200) 200 [] = Crash.
Proof.
  apply (vec_copy_staging_buffer_limits (mk_vec 1 256 200 (zeros 256)) 0
           (zeros 200) 200 []).
  - by_computation.
  - by_computation.
  - by_computation.
  - by_computation.
Defined.

(** ** Strings within their limits *)

Lemma str_wf_unit (self : vec_obj_t) : str_wf self -> self.(unit_size) = 1.
Proof. intros [_ H]. exact H. Qed.

Lemma str_wf_length (self : vec_obj_t) :
  str_wf self -> Z.of_nat (length self.(data)) = self.(capacity).
Proof.
  intros [[_ _ _ Hd _] H1]. unfold zlength, SIZEOF_CHAR in *.
  rewrite H1 in Hd. lia.
Qed.

(** [str_resize] with the reallocation it may need. *)
Lemma str_resize_within (self : vec_obj_t) (size : Z) (h : heap) :
  str_wf self -> can_double self -> 0 <= size < 2 * self.(capacity) ->
  no_failure h ->
  exists w h',
    str_resize self size h = Done (Some w, h')
    /\ no_failure h'
    /\ str_wf w /\ w.(count) = size /\ size < w.(capacity)
    /\ w.(capacity)
       = (if size + 1 <? self.(capacity) then self.(capacity)
          else 2 * self.(capacity))
    /\ terminated w
    /\ firstn (Z.to_nat (Z.min self.(count) size)) w.(data)
       = firstn (Z.to_nat (Z.min self.(count) size)) self.(data)
    /\ (size + 1 < self.(capacity) ->
        h' = h
        /\ skipn (Z.to_nat (size + 1)) w.(data)
           = skipn (Z.to_nat (size + 1)) self.(data)).
Proof.
  intros Hself Hdbl Hsize Hh.
  pose proof Hself as [Hv H1]. pose proof Hv as [Hu Hc Hcap Hd Hfit].
  unfold SIZEOF_CHAR, SIZEOF_VEC_OBJ, VEC_INIT_CAPACITY in *.
  unfold str_resize.
  pose proof Hdbl as Hdbl'. unfold can_double, SIZEOF_VEC_OBJ in Hdbl'.
  rewrite H1 in Hdbl'.
  rewrite size_add_small by (unfold SIZE_MODULUS in *; lia).
  destruct (vec_resize_within self (size + 1) h Hv Hdbl ltac:(lia) Hh)
    as (s1 & h1 & E1 & Hh1 & Hs1 & Hc1 & Hu1 & Hcap1 & Hpre1 & Hkeep1).
  unfold bind. rewrite E1.
  pose proof Hs1 as [Hu' Hc' Hcap' Hd' Hfit'].
  assert (H1' : unit_size s1 = 1) by congruence.
  unfold SIZEOF_VEC_OBJ, VEC_INIT_CAPACITY in *.
  rewrite H1' in *. rewrite H1 in *. unfold zlength in Hd, Hd'.
  assert (Hroom : size + 1 <= capacity s1).
  { rewrite Hcap1. destruct (size + 1 <? capacity self) eqn:El.
    - apply Z.ltb_lt in El. lia.
    - lia. }
  unfold lift.
  rewrite mem_write_ok by (unfold zlength; cbn [length]; lia).
  cbn [length].
  unfold set_data. cbn [unit_size capacity count data].
  rewrite vec_resize_keep by (cbn [capacity]; lia).
  cbn [unit_size capacity count data].
  eexists. exists h1. split; [reflexivity|]. split; [exact Hh1|].
  cbn [unit_size capacity count data].
  assert (Hlen : length (firstn (Z.to_nat size) (data s1) ++ [x00]
                         ++ skipn (Z.to_nat size + 1) (data s1))
                 = length (data s1)).
  { rewrite !length_app, length_skipn, length_firstn_le by lia.
    cbn [length]. lia. }
  split.
  { split; [|cbn [unit_size]; exact H1'].
    split; cbn [unit_size capacity count data]; rewrite ?H1';
      unfold zlength, SIZEOF_VEC_OBJ, VEC_INIT_CAPACITY; rewrite ?Hlen; lia. }
  split; [reflexivity|]. split; [lia|]. split; [exact Hcap1|].
  split.
  { unfold terminated. cbn [data count].
    apply mem_get_written; [lia|unfold zlength; lia]. }
  split.
  { rewrite firstn_app_l by (rewrite length_firstn_le; lia).
    rewrite firstn_firstn.
    replace (Nat.min (Z.to_nat (Z.min (count self) size)) (Z.to_nat size))
      with (Z.to_nat (Z.min (count self) size)) by lia.
    replace (Z.min (count self) (size + 1) * 1)
      with (Z.min (count self) (size + 1)) in Hpre1 by lia.
    apply (firstn_prefix_le _ (Z.to_nat (Z.min (count self) (size + 1))));
      [lia|exact Hpre1]. }
  intros Hlt. destruct (Hkeep1 Hlt) as [-> Ed]. split; [reflexivity|].
  rewrite <- Ed.
  replace (Z.to_nat (size + 1)) with (Z.to_nat size + length [x00])%nat
    by (cbn [length]; lia).
  apply skipn_write_above; cbn [length]; lia.
Qed.

(** [vec_copy] on a string: [min len (count - pos)] bytes of [items] land
    at [pos]. *)
Lemma str_copy_within (s : vec_obj_t) (pos : Z) (items : list byte) (len : Z)
    (h : heap) :
  str_wf s -> 0 <= pos < s.(count) -> 1 <= len ->
  Z.min len (s.(count) - pos) <= VEC_INIT_CAPACITY ->
  Z.min len (s.(count) - pos) <= zlength items ->
  no_failure h ->
  exists w,
    vec_copy s pos items len h = Done (w, tl h)
    /\ str_wf w /\ same_header s w
    /\ w.(data)
       = firstn (Z.to_nat pos) s.(data)
         ++ firstn (Z.to_nat (Z.min len (s.(count) - pos))) items
         ++ skipn (Z.to_nat (pos + Z.min len (s.(count) - pos))) s.(data).
Proof.
  intros Hs Hpos Hlen Hsmall Hitems Hh.
  pose proof Hs as [Hv H1]. pose proof Hv as [Hu Hc Hcap Hd Hfit].
  unfold SIZEOF_CHAR in H1.
  eexists. split.
  { apply vec_copy_ok; try assumption. rewrite H1. lia. }
  rewrite H1.
  replace (pos * 1) with pos by lia.
  replace (Z.min len (count s - pos) * 1)
    with (Z.min len (count s - pos)) by lia.
  replace ((pos + Z.min len (count s - pos)) * 1)
    with (pos + Z.min len (count s - pos)) by lia.
  assert (Hsame : same_header s (set_data s
     (firstn (Z.to_nat pos) (data s)
      ++ firstn (Z.to_nat (Z.min len (count s - pos))) items
      ++ skipn (Z.to_nat (pos + Z.min len (count s - pos))) (data s))))
    by (repeat split).
  split; [|split; [exact Hsame|reflexivity]].
  split; [|exact H1].
  apply (vec_wf_same_header s); [exact Hv|exact Hsame|].
  unfold set_data, zlength in *. cbn [data]. rewrite H1 in Hd.
  rewrite !length_app, length_skipn, !length_firstn_le by lia. lia.
Qed.

Lemma firstn_cstr_mem (s : list byte) :
  firstn (strlen_nat s) (cstr_mem s) = cstr_bytes s.
Proof.
  unfold cstr_mem, cstr_bytes.
  apply firstn_app_l. apply strlen_nat_le.
Qed.

Lemma zlength_cstr_mem (s : list byte) : strlen s < zlength (cstr_mem s).
Proof.
  unfold cstr_mem, strlen. rewrite zlength_app. unfold zlength. cbn [length].
  pose proof (strlen_nat_le s). lia.
Qed.

Lemma fresh_str_wf (cnt : Z) :
  0 <= cnt <= VEC_INIT_CAPACITY ->
  str_wf (mk_vec SIZEOF_CHAR VEC_INIT_CAPACITY cnt
            (zeros (VEC_INIT_CAPACITY * SIZEOF_CHAR))).
Proof.
  intros H. split; [|reflexivity].
  split; cbn [unit_size capacity count data];
    unfold VEC_INIT_CAPACITY, SIZEOF_CHAR, SIZEOF_VEC_OBJ, SIZE_MODULUS in *;
    try lia.
  rewrite zlength_zeros by lia. reflexivity.
Qed.

Lemma mem_get_all_zero (l : list byte) (i : Z) :
  all_zero l -> 0 <= i < zlength l -> mem_get l i = Done x00.
Proof.
  intros Hz Hi. rewrite mem_get_nth by exact Hi. f_equal.
  unfold all_zero in Hz. rewrite Forall_forall in Hz.
  apply Hz. unfold bat. apply nth_In. unfold zlength in Hi. lia.
Qed.

Lemma mem_get_zeros (n i : Z) : 0 <= i < n -> mem_get (zeros n) i = Done x00.
Proof.
  intros H. apply mem_get_all_zero; [apply all_zero_zeros|].
  rewrite zlength_zeros; lia.
Qed.

Lemma mem_get_app_r (a l : list byte) (i : Z) :
  zlength a <= i -> mem_get (a ++ l) i = mem_get l (i - zlength a).
Proof.
  intros Hi. pose proof (zlength_nonneg a) as Ha. unfold mem_get, zlength in *.
  replace (0 <=? i) with true by (symmetry; apply Z.leb_le; lia).
  replace (0 <=? i - Z.of_nat (length a)) with true
    by (symmetry; apply Z.leb_le; lia).
  rewrite nth_error_app2 by lia.
  replace (Z.to_nat (i - Z.of_nat (length a)))
    with (Z.to_nat i - length a)%nat by lia.
  reflexivity.
Qed.

Lemma str_new_unfold (str : list byte) (h : heap) :
  str_new str h
  = bind (vec_new_len SIZEOF_CHAR (strlen str))
      (fun r => match r with
                | None => ret None
                | Some self =>
                    self <- vec_copy self 0 (cstr_mem str) (strlen str) ;;
                    ret (Some self)
                end) h.
Proof. reflexivity. Qed.

(** [str_new] of a text that fits the block. *)
Lemma str_new_within (str : list byte) (h : heap) :
  no_failure h -> strlen str <= VEC_INIT_CAPACITY ->
  exists w h',
    str_new str h = Done (Some w, h')
    /\ no_failure h'
    /\ str_wf w
    /\ w.(count) = strlen str
    /\ str_bytes w = cstr_bytes str
    /\ (strlen str < VEC_INIT_CAPACITY -> terminated w).
Proof.
  intros Hh Hlen.
  pose proof (strlen_nonneg str) as Hnn.
  pose proof (zlength_cstr_mem str) as Hmem.
  rewrite str_new_unfold. unfold bind.
  rewrite vec_new_len_spec by by_computation.
  rewrite no_failure_succeeds by exact Hh.
  set (v := mk_vec SIZEOF_CHAR VEC_INIT_CAPACITY (strlen str)
              (zeros (VEC_INIT_CAPACITY * SIZEOF_CHAR))).
  assert (Hv : str_wf v) by (apply fresh_str_wf; lia).
  assert (Hh1 : no_failure (tl h)) by (apply no_failure_tl; exact Hh).
  destruct (Z.eq_dec (strlen str) 0) as [E0|Hne].
  - exists v, (tl h).
    rewrite vec_copy_outside by (unfold v; cbn [count]; lia).
    split; [reflexivity|]. split; [exact Hh1|].
    split; [exact Hv|]. split; [reflexivity|].
    split.
    + unfold str_bytes, cstr_bytes, v. cbn [count data].
      assert (En : strlen_nat str = O) by (unfold strlen in E0; lia).
      rewrite En, E0. reflexivity.
    + intros _. unfold terminated, v. cbn [count data].
      rewrite E0. apply mem_get_zeros. by_computation.
  - destruct (str_copy_within v 0 (cstr_mem str) (strlen str) (tl h))
      as (w & Ew & Hw & Hsame & Hd); try assumption;
      cbn [count v]; try lia.
    rewrite Ew. cbn [ret].
    exists w, (tl (tl h)). split; [reflexivity|].
    split; [apply no_failure_tl; exact Hh1|].
    destruct Hsame as (Hu & Hcap & Hc). cbn [count v] in *.
    unfold v in Hd. cbn [data] in Hd.
    replace (Z.min (strlen str) (strlen str - 0)) with (strlen str)
      in Hd by lia.
    unfold strlen in Hd at 1. rewrite Nat2Z.id in Hd.
    rewrite firstn_cstr_mem in Hd. simpl firstn in Hd at 1.
    rewrite app_nil_l in Hd.
    assert (Hcb : length (cstr_bytes str) = Z.to_nat (strlen str)).
    { pose proof (zlength_cstr_bytes str) as Hz. unfold zlength in Hz. lia. }
    split; [exact Hw|]. split; [exact Hc|]. split.
    + unfold str_bytes. rewrite Hc, Hd, <- Hcb.
      rewrite firstn_app_l by lia. apply firstn_all.
    + intros Hlt. unfold terminated. rewrite Hc, Hd.
      rewrite mem_get_app_r by (unfold zlength; lia).
      apply mem_get_all_zero.
      * apply all_zero_skipn, all_zero_zeros.
      * unfold zlength, zeros. rewrite length_skipn, repeat_length, Hcb.
        unfold VEC_INIT_CAPACITY, SIZEOF_CHAR in *. lia.
Qed.

(** X6.  [str_new] copies the text of a C string of at most
    [VEC_INIT_CAPACITY] bytes: the new string has the length and the bytes
    of the text and, when the text is shorter than [VEC_INIT_CAPACITY], a
    terminator behind them.  It returns NULL when the allocation fails, and
    a longer text runs over the end of the block. *)
Theorem str_new_holds_the_text (str : list byte) (h : heap) :
  (alloc_succeeds h = false -> str_new str h = Done (None, tl h))
  /\ (no_failure h -> strlen str <= VEC_INIT_CAPACITY ->
      exists w h',
        str_new str h = Done (Some w, h')
        /\ str_wf w
        /\ str_length w = strlen str
        /\ str_bytes w = cstr_bytes str
        /\ (strlen str < VEC_INIT_CAPACITY -> terminated w))
  /\ (no_failure h -> VEC_INIT_CAPACITY < strlen str < SIZE_MODULUS ->
      str_new str h = Crash).
Proof.
  pose proof (strlen_nonneg str) as Hnn.
  split; [|split].
  - intros Hfail. rewrite str_new_unfold. unfold bind.
    rewrite vec_new_len_spec by by_computation.
    rewrite Hfail. reflexivity.
  - intros Hh Hlen.
    destruct (str_new_within str h Hh Hlen)
      as (w & h' & E & _ & Hw & Hc & Hb & Ht).
    exists w, h'. auto.
  - intros Hh Hbig. rewrite str_new_unfold. unfold bind.
    rewrite vec_new_len_spec by by_computation.
    rewrite no_failure_succeeds by exact Hh.
    rewrite vec_copy_no_result; [reflexivity|..];
      cbn [unit_size count]; unfold VEC_INIT_CAPACITY, SIZEOF_CHAR in *;
      try lia; try by_computation.
Qed.

Lemma str_new_holds_the_text_witness :
  exists w h',
    str_new (bytes_of_string "ciao") [] = Done (Some w, h')
    /\ str_length w = 4
    /\ str_bytes w = bytes_of_string "ciao"
    /\ terminated w.
Proof.
  destruct (str_new_holds_the_text (bytes_of_string "ciao") [])
    as (_ & H & _).
  destruct H as (w & h' & E & _ & Hl & Hb & Ht).
  - constructor.
  - by_computation.
  - exists w, h'. split; [exact E|]. split; [exact Hl|]. split; [exact Hb|].
    apply Ht. by_computation.
Defined.

(** X7.  [str_clear] cannot fail and does not call the allocator: it sets
    the length to zero, writes the terminator into the first byte and
    leaves the capacity and every other byte of the block as they were. *)
Theorem str_clear_empties_in_place (self : vec_obj_t) (h : heap) :
  str_wf self ->
  exists w,
    str_clear self h = Done (Some w, h)
    /\ str_wf w
    /\ str_length w = 0
    /\ str_bytes w = []
    /\ terminated w
    /\ vec_capacity w = vec_capacity self
    /\ skipn 1 w.(data) = skipn 1 self.(data).
Proof.
  intros Hself.
  pose proof Hself as [Hv H1]. pose proof Hv as [Hu Hc Hcap Hd Hfit].
  unfold VEC_INIT_CAPACITY, SIZEOF_CHAR in *. rewrite H1 in Hd.
  unfold zlength in Hd.
  eexists. unfold str_clear.
  rewrite str_resize_keep by (auto; lia).
  split; [reflexivity|].
  unfold str_length, vec_count, vec_capacity, str_bytes, terminated.
  cbn [unit_size capacity count data]. simpl firstn. simpl skipn.
  destruct (data self) as [|b rest] eqn:Ed; [simpl in Hd; lia|].
  simpl length in Hd.
  split.
  { split; [|exact H1]. split; cbn [unit_size capacity count data];
      rewrite ?H1; unfold VEC_INIT_CAPACITY, zlength; simpl length; lia. }
  repeat split.
Qed.

Lemma str_clear_empties_in_place_witness :
  exists w,
    str_clear (mk_vec 1 128 4 (bytes_of_string "ciao" ++ zeros 124)) []
    = Done (Some w, [])
    /\ str_length w = 0 /\ terminated w.
Proof.
  destruct (str_clear_empties_in_place
              (mk_vec 1 128 4 (bytes_of_string "ciao" ++ zeros 124)) [])
    as (w & E & _ & Hl & _ & Ht & _).
  - by_computation.
  - exists w. split; [exact E|]. split; [exact Hl|exact Ht].
Defined.

(** [str_insert] with the reallocation it may need: the text lands at
    [pos], the bytes from [pos] on move behind it. *)
Lemma str_insert_within (self : vec_obj_t) (pos : Z) (str : list byte)
    (h : heap) :
  str_wf self -> can_double self -> 0 <= pos <= self.(count) ->
  strlen str <= VEC_INIT_CAPACITY ->
  self.(count) - pos <= VEC_INIT_CAPACITY ->
  self.(count) + strlen str < 2 * self.(capacity) ->
  no_failure h ->
  exists w h',
    str_insert self pos str h = Done (Some w, h')
    /\ no_failure h'
    /\ str_wf w /\ w.(count) = self.(count) + strlen str
    /\ w.(count) < w.(capacity)
    /\ w.(capacity)
       = (if self.(count) + strlen str + 1 <? self.(capacity)
          then self.(capacity) else 2 * self.(capacity))
    /\ terminated w
    /\ str_bytes w
       = firstn (Z.to_nat pos) (str_bytes self) ++ cstr_bytes str
         ++ skipn (Z.to_nat pos) (str_bytes self).
Proof.
  intros Hself Hdbl Hpos Hlen Htail Hroom Hh.
  pose proof Hself as [Hv H1]. pose proof Hv as [Hu Hc Hcap Hd Hfit].
  pose proof (strlen_nonneg str) as Hnn.
  pose proof Hdbl as Hdbl'. unfold can_double in Hdbl'.
  unfold SIZEOF_CHAR, SIZEOF_VEC_OBJ, VEC_INIT_CAPACITY in *.
  rewrite H1 in *. unfold zlength in Hd.
  set (L := strlen str) in *. set (c := count self) in *.
  unfold str_insert, str_extend, str_length, vec_count. fold c L.
  rewrite gtb_false by lia.
  rewrite size_add_small by (unfold SIZE_MODULUS in *; lia).
  destruct (str_resize_within self (c + L) h Hself Hdbl ltac:(lia) Hh)
    as (s1 & h1 & E1 & Hh1 & Hs1 & Hc1 & Hlt1 & Hcap1 & Ht1 & Hpre1 & _).
  unfold bind at 1. rewrite E1.
  fold c in Hpre1. replace (Z.min c (c + L)) with c in Hpre1 by lia.
  pose proof (str_wf_length s1 Hs1) as Hd1.
  rewrite size_add_small by (unfold SIZE_MODULUS in *; lia).
  rewrite Hc1. rewrite size_sub_small by (unfold SIZE_MODULUS in *; lia).
  (* the move of the tail *)
  assert (Hmove : exists s2,
    vec_copy s1 (pos + L) (ptr_mem (data s1) (vec_ptr_at s1 pos))
      (c + L - pos) h1 = Done (s2, if pos =? c then h1 else tl h1)
    /\ str_wf s2 /\ same_header s1 s2
    /\ data s2
       = firstn (Z.to_nat (pos + L)) (data s1)
         ++ firstn (Z.to_nat (c - pos)) (skipn (Z.to_nat pos) (data s1))
         ++ skipn (Z.to_nat (c + L)) (data s1)).
  { destruct (Z.eq_dec pos c) as [->|Hne].
    - exists s1. rewrite Z.eqb_refl.
      rewrite vec_copy_outside by lia.
      split; [reflexivity|]. split; [exact Hs1|]. split; [repeat split|].
      rewrite Z.sub_diag. simpl firstn at 2. rewrite app_nil_l.
      symmetry. apply firstn_skipn.
    - rewrite eqb_false by exact Hne.
      assert (Hp : vec_ptr_at s1 pos = pos).
      { rewrite vec_ptr_at_inside;
          rewrite ?(str_wf_unit s1 Hs1); unfold SIZE_MODULUS in *; lia. }
      rewrite Hp.
      destruct (str_copy_within s1 (pos + L) (ptr_mem (data s1) pos)
                  (c + L - pos) h1) as (s2 & E2 & Hs2 & Hsame & Hd2);
        try assumption; rewrite ?Hc1; unfold VEC_INIT_CAPACITY; try lia.
      { unfold ptr_mem, zlength. rewrite length_skipn. lia. }
      exists s2. split; [exact E2|]. split; [exact Hs2|].
      split; [exact Hsame|].
      rewrite Hd2, Hc1. unfold ptr_mem.
      replace (Z.min (c + L - pos) (c + L - (pos + L))) with (c - pos) by lia.
      replace (pos + L + (c - pos)) with (c + L) by lia.
      reflexivity. }
  destruct Hmove as (s2 & E2 & Hs2 & Hsame2 & Hd2).
  unfold bind at 1. rewrite E2.
  set (h2 := if pos =? c then h1 else tl h1) in *.
  assert (Hh2 : no_failure h2).
  { unfold h2. destruct (pos =? c); [exact Hh1|apply no_failure_tl; exact Hh1]. }
  destruct Hsame2 as (Hu2 & Hcap2 & Hc2).
  pose proof (str_wf_length s2 Hs2) as Hlen2.
  (* the text *)
  assert (Htext : exists s3 h3,
    vec_copy s2 pos (cstr_mem str) L h2 = Done (s3, h3)
    /\ no_failure h3 /\ str_wf s3 /\ same_header s2 s3
    /\ data s3
       = firstn (Z.to_nat pos) (data s2) ++ cstr_bytes str
         ++ skipn (Z.to_nat (pos + L)) (data s2)).
  { destruct (Z.eq_dec L 0) as [E0|Hne].
    - exists s2, h2. rewrite E0 at 1. rewrite vec_copy_nothing.
      split; [reflexivity|]. split; [exact Hh2|]. split; [exact Hs2|].
      split; [repeat split|].
      assert (En : cstr_bytes str = []).
      { pose proof (zlength_cstr_bytes str) as Hz. fold L in Hz.
        unfold zlength in Hz. destruct (cstr_bytes str); [reflexivity|].
        simpl in Hz. lia. }
      rewrite En, E0, Z.add_0_r, app_nil_l. symmetry. apply firstn_skipn.
    - pose proof (zlength_cstr_mem str) as Hmem. fold L in Hmem.
      destruct (str_copy_within s2 pos (cstr_mem str) L h2)
        as (s3 & E3 & Hs3 & Hsame & Hd3);
        try assumption; rewrite ?Hc2, ?Hc1; unfold VEC_INIT_CAPACITY;
        try lia.
      exists s3, (tl h2). split; [exact E3|].
      split; [apply no_failure_tl; exact Hh2|].
      split; [exact Hs3|]. split; [exact Hsame|].
      rewrite Hd3, Hc2, Hc1.
      replace (Z.min L (c + L - pos)) with L by lia.
      unfold L at 1. unfold strlen. rewrite Nat2Z.id, firstn_cstr_mem.
      reflexivity. }
  destruct Htext as (s3 & h3 & E3 & Hh3 & Hs3 & Hsame3 & Hd3).
  unfold bind. rewrite E3.
  destruct Hsame3 as (Hu3 & Hcap3 & Hc3).
  exists s3, h3. split; [reflexivity|]. split; [exact Hh3|].
  split; [exact Hs3|]. split; [congruence|]. split; [lia|].
  split; [rewrite Hcap3, Hcap2; exact Hcap1|].
  split.
  - (* the terminator is behind everything that was written *)
    destruct (vec_copy_keeps_terminator s2 pos (cstr_mem str) L h2 s3 h3)
      as (_ & _ & Hkeep3); try assumption; try lia.
    apply Hkeep3.
    destruct (vec_copy_keeps_terminator s1 (pos + L)
                (ptr_mem (data s1) (vec_ptr_at s1 pos)) (c + L - pos) h1 s2 h2)
      as (_ & _ & Hkeep2); try assumption; try lia.
    apply Hkeep2. exact Ht1.
  - unfold str_bytes at 1. rewrite Hc3, Hc2, Hc1.
    replace (c + L) with (c + (L - 0)) by lia.
    replace (Z.to_nat pos) with (Z.to_nat (pos + 0)) at 2 by (f_equal; lia).
    apply (splice_bytes_grow (str_bytes self) (data s1) (data s2) (data s3)
             (cstr_bytes str) c pos 0 L).
    + apply zlength_str_bytes. exact Hself.
    + unfold str_bytes. fold c. exact Hpre1.
    + lia.
    + lia.
    + lia.
    + lia.
    + apply zlength_cstr_bytes.
    + unfold zlength. lia.
    + rewrite Hd2.
      replace (c + (L - 0) - (pos + L)) with (c - pos) by lia.
      replace (c + (L - 0)) with (c + L) by lia.
      replace (pos + 0) with pos by lia. reflexivity.
    + exact Hd3.
Qed.

(** X8.  [str_insert] puts the text of [str] at offset [pos] and moves the
    bytes from [pos] on behind it; the result is terminated and its length
    is the sum of the two lengths.  A position behind the end gives NULL and
    leaves the string alone.  The text and the part that moves each pass
    through the staging buffer of [vec_copy], so neither may be longer than
    [VEC_INIT_CAPACITY]. *)
Theorem str_insert_splices_the_text (self : vec_obj_t) (pos : Z)
    (str : list byte) (h : heap) :
  str_wf self -> can_double self -> 0 <= pos -> no_failure h ->
  (str_length self < pos -> str_insert self pos str h = Done (None, h))
  /\ (pos <= str_length self ->
      strlen str <= VEC_INIT_CAPACITY ->
      str_length self - pos <= VEC_INIT_CAPACITY ->
      str_length self + strlen str < 2 * vec_capacity self ->
      exists w h',
        str_insert self pos str h = Done (Some w, h')
        /\ str_wf w /\ terminated w
        /\ str_length w = str_length self + strlen str
        /\ str_bytes w
           = firstn (Z.to_nat pos) (str_bytes self) ++ cstr_bytes str
             ++ skipn (Z.to_nat pos) (str_bytes self)).
Proof.
  unfold str_length, vec_count, vec_capacity.
  intros Hself Hdbl Hpos Hh. split.
  - intros Hout. unfold str_insert, str_length, vec_count.
    rewrite gtb_true by lia. reflexivity.
  - intros Hin Hlen Htail Hroom.
    destruct (str_insert_within self pos str h)
      as (w & h' & E & _ & Hw & Hc & _ & _ & Ht & Hb); try assumption; try lia.
    exists w, h'. auto.
Qed.

Lemma str_insert_splices_the_text_witness :
  exists w h',
    str_insert (mk_vec 1 128 4 (bytes_of_string "ciao" ++ zeros 124)) 0
      (bytes_of_string "mondo ") [] = Done (Some w, h')
    /\ terminated w
    /\ str_bytes w
       = firstn 0 (bytes_of_string "ciao")
         ++ cstr_bytes (bytes_of_string "mondo ")
         ++ skipn 0 (bytes_of_string "ciao").
Proof.
  destruct (str_insert_splices_the_text
              (mk_vec 1 128 4 (bytes_of_string "ciao" ++ zeros 124)) 0
              (bytes_of_string "mondo ") []) as [_ H].
  - by_computation.
  - by_computation.
  - by_computation.
  - constructor.
  - destruct H as (w & h' & E & _ & Ht & _ & Hb); try by_computation.
    exists w, h'. split; [exact E|]. split; [exact Ht|exact Hb].
Defined.

(** [str_append] with the reallocation it may need: the text and its
    terminator must fit the block doubled once. *)
Lemma str_append_upto (self : vec_obj_t) (str : list byte) (h : heap) :
  str_wf self -> can_double self ->
  strlen str <= VEC_INIT_CAPACITY ->
  self.(count) + strlen str < 2 * self.(capacity) ->
  no_failure h ->
  exists w h',
    str_append self str h = Done (Some w, h')
    /\ no_failure h'
    /\ str_wf w /\ w.(count) = self.(count) + strlen str
    /\ w.(count) < w.(capacity)
    /\ w.(capacity)
       = (if self.(count) + strlen str + 1 <? self.(capacity)
          then self.(capacity) else 2 * self.(capacity))
    /\ terminated w
    /\ str_bytes w = str_bytes self ++ cstr_bytes str.
Proof.
  intros Hself Hdbl Hlen Hroom Hh.
  pose proof Hself as [[Hu Hc Hcap Hd Hfit] H1].
  pose proof (strlen_nonneg str) as Hnn.
  unfold VEC_INIT_CAPACITY in *.
  destruct (str_insert_within self (count self) str h)
    as (w & h' & E & Hh' & Hw & Hcw & Hlt & Hcapw & Ht & Hb);
    try assumption; unfold VEC_INIT_CAPACITY; try lia.
  exists w, h'. unfold str_append, str_length, vec_count.
  repeat (split; [assumption|]).
  rewrite Hb.
  pose proof (zlength_str_bytes self Hself) as Hz. unfold zlength in Hz.
  rewrite firstn_all2, skipn_all2 by lia.
  rewrite app_nil_r. reflexivity.
Qed.

(** A string with room for its terminator takes every text of at most
    [VEC_INIT_CAPACITY] bytes. *)
Lemma str_append_within (self : vec_obj_t) (str : list byte) (h : heap) :
  str_wf self -> can_double self -> self.(count) < self.(capacity) ->
  strlen str <= VEC_INIT_CAPACITY -> no_failure h ->
  exists w h',
    str_append self str h = Done (Some w, h')
    /\ no_failure h'
    /\ str_wf w /\ w.(count) = self.(count) + strlen str
    /\ w.(count) < w.(capacity)
    /\ w.(capacity)
       = (if self.(count) + strlen str + 1 <? self.(capacity)
          then self.(capacity) else 2 * self.(capacity))
    /\ terminated w
    /\ str_bytes w = str_bytes self ++ cstr_bytes str.
Proof.
  intros Hself Hdbl Hroom Hlen Hh.
  apply str_append_upto; try assumption.
  destruct Hself as [[_ _ Hcap _ _] _]. lia.
Qed.

(** X9.  [str_append] of a text of at most [VEC_INIT_CAPACITY] bytes, the
    size of the staging buffer of [vec_copy], to a string whose length with
    the text stays below twice its capacity: the text is put behind the
    bytes of the string and a terminator behind the text; the block keeps
    its capacity when the text and the terminator fit it and is doubled
    once when they do not.  The result has room for its terminator, so a
    second text of at most [VEC_INIT_CAPACITY] bytes can always follow: two
    calls in a row append the two texts in order. *)
Theorem str_append_concatenates (self : vec_obj_t) (str1 str2 : list byte)
    (h : heap) :
  str_wf self ->
  strlen str1 <= VEC_INIT_CAPACITY -> strlen str2 <= VEC_INIT_CAPACITY ->
  str_length self + strlen str1 < 2 * vec_capacity self ->
  4 * vec_capacity self + SIZEOF_VEC_OBJ < SIZE_MODULUS ->
  no_failure h ->
  exists w1 h1 w2 h2,
    str_append self str1 h = Done (Some w1, h1)
    /\ str_bytes w1 = str_bytes self ++ cstr_bytes str1
    /\ str_length w1 = str_length self + strlen str1
    /\ terminated w1
    /\ vec_capacity w1
       = (if str_length self + strlen str1 + 1 <? vec_capacity self
          then vec_capacity self else 2 * vec_capacity self)
    /\ str_append w1 str2 h1 = Done (Some w2, h2)
    /\ str_bytes w2 = str_bytes self ++ cstr_bytes str1 ++ cstr_bytes str2
    /\ str_length w2 = str_length self + strlen str1 + strlen str2
    /\ terminated w2
    /\ vec_capacity w2
       = (if str_length w1 + strlen str2 + 1 <? vec_capacity w1
          then vec_capacity w1 else 2 * vec_capacity w1).
Proof.
  unfold str_length, vec_count, vec_capacity.
  intros Hself Hl1 Hl2 Hroom Hfit Hh.
  pose proof (str_wf_unit self Hself) as H1.
  assert (Hdbl : can_double self).
  { unfold can_double, SIZEOF_VEC_OBJ in *. rewrite H1.
    destruct Hself as [[_ Hc _ _ _] _]. lia. }
  destruct (str_append_upto self str1 h Hself Hdbl Hl1 Hroom Hh)
    as (w1 & h1 & E1 & Hh1 & Hw1 & Hc1 & Hlt1 & Hcap1 & Ht1 & Hb1).
  assert (Hdbl1 : can_double w1).
  { unfold can_double, SIZEOF_VEC_OBJ in *.
    rewrite (str_wf_unit w1 Hw1), Hcap1.
    destruct Hself as [[_ Hc _ _ _] _].
    destruct (count self + strlen str1 + 1 <? capacity self); lia. }
  destruct (str_append_within w1 str2 h1 Hw1 Hdbl1 Hlt1 Hl2 Hh1)
    as (w2 & h2 & E2 & Hh2 & Hw2 & Hc2 & Hlt2 & Hcap2 & Ht2 & Hb2).
  exists w1, h1, w2, h2.
  repeat (split; [assumption|]).
  split; [rewrite Hb2, Hb1, <- app_assoc; reflexivity|].
  split; [lia|]. split; [exact Ht2|exact Hcap2].
Qed.

Lemma str_append_concatenates_witness :
  exists w1 h1 w2 h2,
    str_append (mk_vec 1 128 4 (bytes_of_string "ciao" ++ zeros 124))
      (bytes_of_string " mondo") [] = Done (Some w1, h1)
    /\ str_append w1 (bytes_of_string "!") h1 = Done (Some w2, h2)
    /\ str_bytes w2
       = str_bytes (mk_vec 1 128 4 (bytes_of_string "ciao" ++ zeros 124))
         ++ cstr_bytes (bytes_of_string " mondo")
         ++ cstr_bytes (bytes_of_string "!").
Proof.
  destruct (str_append_concatenates
              (mk_vec 1 128 4 (bytes_of_string "ciao" ++ zeros 124))
              (bytes_of_string " mondo") (bytes_of_string "!") [])
    as (w1 & h1 & w2 & h2 & E1 & _ & _ & _ & _ & E2 & Hb & _).
  - by_computation.
  - by_computation.
  - by_computation.
  - by_computation.
  - by_computation.
  - constructor.
  - exists w1, h1, w2, h2. split; [exact E1|]. split; [exact E2|exact Hb].
Defined.

(** ** Prefixes and suffixes *)

Lemma Z_of_byte_inj (a b : byte) : Z_of_byte a = Z_of_byte b -> a = b.
Proof.
  unfold Z_of_byte. intros H. apply N2Z.inj in H.
  pose proof (Byte.of_to_N a) as Ha. pose proof (Byte.of_to_N b) as Hb.
  rewrite H in Ha. congruence.
Qed.

Lemma cstr_bytes_no_terminator (s : list byte) :
  Forall (fun c => c <> x00) (cstr_bytes s).
Proof.
  unfold cstr_bytes. induction s as [|c s IH]; simpl; [constructor|].
  destruct (Byte.eqb c x00) eqn:E; simpl; [constructor|].
  constructor; [|exact IH]. apply byte_eqb_false. exact E.
Qed.

(** Against a text without terminator, [strncmp] compares byte by byte. *)
Lemma strncmp_compares (n : nat) :
  forall a b,
    (n <= length a)%nat -> (n <= length b)%nat ->
    Forall (fun c => c <> x00) (firstn n b) ->
    exists r, strncmp a b n = Done r
              /\ (r = 0 <-> firstn n a = firstn n b).
Proof.
  induction n as [|n IH]; intros a b Ha Hb Hnz.
  - exists 0. simpl. split; [reflexivity|]. split; reflexivity.
  - destruct a as [|c1 a]; [simpl in Ha; lia|].
    destruct b as [|c2 b]; [simpl in Hb; lia|].
    simpl in Ha, Hb, Hnz. inversion Hnz as [|? ? Hc2 Hrest]; subst.
    simpl strncmp.
    destruct (Byte.eqb c1 c2) eqn:E; simpl negb; cbv iota.
    + apply byte_eqb_true in E. subst c2.
      replace (Byte.eqb c1 x00) with false
        by (symmetry; apply byte_eqb_false; exact Hc2).
      destruct (IH a b ltac:(lia) ltac:(lia) Hrest) as (r & Er & Hr).
      exists r. split; [exact Er|].
      rewrite Hr. simpl. split; intros H; [f_equal; exact H|].
      injection H as H. exact H.
    + apply byte_eqb_false in E.
      exists (Z_of_byte c1 - Z_of_byte c2). split; [reflexivity|].
      split.
      * intros H. exfalso. apply E. apply Z_of_byte_inj. lia.
      * simpl. intros H. injection H as H _. contradiction.
Qed.

Lemma firstn_cstr_mem_nat (s : list byte) :
  firstn (Z.to_nat (strlen s)) (cstr_mem s) = cstr_bytes s.
Proof. unfold strlen. rewrite Nat2Z.id. apply firstn_cstr_mem. Qed.

Lemma length_cstr_bytes (s : list byte) :
  length (cstr_bytes s) = Z.to_nat (strlen s).
Proof.
  pose proof (zlength_cstr_bytes s) as H. unfold zlength in H. lia.
Qed.

Lemma is_prefix_firstn (p t : list byte) :
  is_prefix p t <-> firstn (length p) t = p.
Proof.
  split.
  - intros [rest ->]. rewrite firstn_app_l by lia. apply firstn_all.
  - intros H. exists (skipn (length p) t).
    transitivity (firstn (length p) t ++ skipn (length p) t).
    + symmetry. apply firstn_skipn.
    + f_equal. exact H.
Qed.

Lemma is_suffix_skipn (p t : list byte) :
  (length p <= length t)%nat ->
  is_suffix p t <-> skipn (length t - length p) t = p.
Proof.
  intros Hle. split.
  - intros [front ->]. rewrite length_app.
    replace (length front + length p - length p)%nat with (length front)
      by lia.
    rewrite skipn_app, skipn_all, Nat.sub_diag. reflexivity.
  - intros H. exists (firstn (length t - length p) t).
    transitivity (firstn (length t - length p) t
                  ++ skipn (length t - length p) t).
    + symmetry. apply firstn_skipn.
    + f_equal. exact H.
Qed.

Lemma str_startswith_endswith_sound (self : vec_obj_t) (sub : list byte) :
  str_wf self ->
  (exists b, str_startswith self sub = Done b
             /\ (b = true <-> is_prefix (cstr_bytes sub) (str_bytes self)))
  /\ (exists b, str_endswith self sub = Done b
                /\ (b = true <-> is_suffix (cstr_bytes sub) (str_bytes self))).
Proof.
  intros Hself.
  pose proof Hself as [[Hu Hc Hcap Hd Hfit] H1].
  pose proof (str_wf_length self Hself) as Hlen.
  pose proof (strlen_nonneg sub) as Hnn.
  pose proof (zlength_str_bytes self Hself) as Hzb. unfold zlength in Hzb.
  pose proof (length_cstr_bytes sub) as Hcb.
  pose proof (zlength_cstr_mem sub) as Hmem. unfold zlength in Hmem.
  assert (Hnz : Forall (fun c => c <> x00)
                  (firstn (Z.to_nat (strlen sub)) (cstr_mem sub))).
  { rewrite firstn_cstr_mem_nat. apply cstr_bytes_no_terminator. }
  assert (Hstart : exists b, str_startswith self sub = Done b
             /\ (b = true <-> is_prefix (cstr_bytes sub) (str_bytes self))).
  { unfold str_startswith, str_length, vec_count.
    destruct (Z_le_gt_dec (strlen sub) (count self)) as [Hle|Hgt].
    - rewrite gtb_false by lia.
      destruct (strncmp_compares (Z.to_nat (strlen sub)) (data self)
                  (cstr_mem sub) ltac:(lia) ltac:(lia) Hnz)
        as (r & Er & Hr).
      rewrite Er. rewrite firstn_cstr_mem_nat in Hr.
      assert (Hp : is_prefix (cstr_bytes sub) (str_bytes self)
                   <-> firstn (Z.to_nat (strlen sub)) (data self)
                       = cstr_bytes sub).
      { rewrite is_prefix_firstn, Hcb. unfold str_bytes.
        rewrite firstn_firstn, Nat.min_l by lia. reflexivity. }
      destruct (r =? 0) eqn:E0; simpl negb; cbv iota.
      + exists true. split; [reflexivity|]. apply Z.eqb_eq in E0.
        split; intros _; [apply Hp, Hr; exact E0|reflexivity].
      + exists false. split; [reflexivity|]. apply Z.eqb_neq in E0.
        split; [discriminate|]. intros H. exfalso. apply E0, Hr, Hp. exact H.
    - rewrite gtb_true by lia. exists false. split; [reflexivity|].
      split; [discriminate|]. intros [rest Hrest]. exfalso.
      apply (f_equal (@length byte)) in Hrest.
      rewrite length_app in Hrest. lia. }
  assert (Hend : exists b, str_endswith self sub = Done b
             /\ (b = true <-> is_suffix (cstr_bytes sub) (str_bytes self))).
  { unfold str_endswith, str_length, vec_count.
    destruct (Z_le_gt_dec (strlen sub) (count self)) as [Hle|Hgt].
    - rewrite gtb_false by lia.
      destruct (strncmp_compares (Z.to_nat (strlen sub))
                  (ptr_mem (data self) (count self - strlen sub))
                  (cstr_mem sub)) as (r & Er & Hr); try assumption; try lia.
      { unfold ptr_mem. rewrite length_skipn. lia. }
      rewrite Er. rewrite firstn_cstr_mem_nat in Hr.
      assert (Hp : is_suffix (cstr_bytes sub) (str_bytes self)
                   <-> skipn (length (str_bytes self) - Z.to_nat (strlen sub))
                         (str_bytes self) = cstr_bytes sub).
      { rewrite is_suffix_skipn by lia. rewrite Hcb. reflexivity. }
      assert (Eq : firstn (Z.to_nat (strlen sub))
                     (ptr_mem (data self) (count self - strlen sub))
                   = skipn (length (str_bytes self) - Z.to_nat (strlen sub))
                       (str_bytes self)).
      { unfold ptr_mem, str_bytes.
        rewrite skipn_firstn_comm.
        replace (length (firstn (Z.to_nat (count self)) (data self))
                 - Z.to_nat (strlen sub))%nat
          with (Z.to_nat (count self - strlen sub))
          by (rewrite length_firstn_le; lia).
        f_equal. lia. }
      rewrite Eq in Hr.
      destruct (r =? 0) eqn:E0; simpl negb; cbv iota.
      + exists true. split; [reflexivity|]. apply Z.eqb_eq in E0.
        split; intros _; [apply Hp, Hr; exact E0|reflexivity].
      + exists false. split; [reflexivity|]. apply Z.eqb_neq in E0.
        split; [discriminate|]. intros H. exfalso. apply E0, Hr, Hp. exact H.
    - rewrite gtb_true by lia. exists false. split; [reflexivity|].
      split; [discriminate|]. intros [front Hfront]. exfalso.
      apply (f_equal (@length byte)) in Hfront.
      rewrite length_app in Hfront. lia. }
  split; [exact Hstart|exact Hend].
Qed.

(** X10.  [str_startswith] answers whether the bytes of the string start
    with the text of [sub], and [str_endswith] whether they end with it;
    both always answer, and the empty text is a prefix and a suffix of every
    string. *)
Theorem str_startswith_endswith_decide (self : vec_obj_t) (sub : list byte) :
  str_wf self ->
  (exists b, str_startswith self sub = Done b
             /\ (b = true <-> is_prefix (cstr_bytes sub) (str_bytes self)))
  /\ (exists b, str_endswith self sub = Done b
                /\ (b = true <-> is_suffix (cstr_bytes sub) (str_bytes self)))
  /\ (strlen sub = 0 ->
      str_startswith self sub = Done true
      /\ str_endswith self sub = Done true).
Proof.
  intros Hself.
  destruct (str_startswith_endswith_sound self sub Hself) as [Hstart Hend].
  split; [exact Hstart|]. split; [exact Hend|].
  intros E0.
  pose proof (length_cstr_bytes sub) as Hcb.
  assert (En : cstr_bytes sub = []).
  { destruct (cstr_bytes sub); [reflexivity|]. simpl in Hcb. lia. }
  destruct Hstart as (b1 & E1 & Hb1). destruct Hend as (b2 & E2 & Hb2).
  rewrite En in *.
  rewrite E1, E2. split; f_equal.
  - apply Hb1. exists (str_bytes self). reflexivity.
  - apply Hb2. exists (str_bytes self). symmetry. apply app_nil_r.
Qed.

Lemma str_startswith_endswith_decide_witness :
  str_startswith (mk_vec 1 128 10 (bytes_of_string "ciao mondo" ++ zeros 118))
    (bytes_of_string "ciao") = Done true
  /\ str_endswith (mk_vec 1 128 10 (bytes_of_string "ciao mondo" ++ zeros 118))
       (bytes_of_string "mondo") = Done true.
Proof.
  destruct (str_startswith_endswith_decide
              (mk_vec 1 128 10 (bytes_of_string "ciao mondo" ++ zeros 118))
              (bytes_of_string "ciao")) as ((b & Eb & Hb) & _ & _).
  - by_computation.
  - destruct (str_startswith_endswith_decide
                (mk_vec 1 128 10 (bytes_of_string "ciao mondo" ++ zeros 118))
                (bytes_of_string "mondo")) as (_ & (b' & Eb' & Hb') & _).
    + by_computation.
    + split.
      * rewrite Eb. f_equal. apply Hb.
        exists (bytes_of_string " mondo"). reflexivity.
      * rewrite Eb'. f_equal. apply Hb'.
        exists (bytes_of_string "ciao "). reflexivity.
Defined.

(** X11.  After [str_append] of a text of at most [VEC_INIT_CAPACITY]
    bytes, the size of the staging buffer of [vec_copy], to a string whose
    length with the text stays below twice its capacity, the string ends
    with the appended text, and every text it started with before is still
    what it starts with. *)
Theorem str_endswith_after_str_append (self : vec_obj_t) (str : list byte)
    (h : heap) :
  str_wf self -> can_double self ->
  strlen str <= VEC_INIT_CAPACITY ->
  str_length self + strlen str < 2 * vec_capacity self ->
  no_failure h ->
  exists w h',
    str_append self str h = Done (Some w, h')
    /\ str_endswith w str = Done true
    /\ (forall sub, str_startswith self sub = Done true ->
                    str_startswith w sub = Done true).
Proof.
  unfold str_length, vec_count, vec_capacity.
  intros Hself Hdbl Hlen Hroom Hh.
  destruct (str_append_upto self str h Hself Hdbl Hlen Hroom Hh)
    as (w & h' & E & _ & Hw & _ & _ & _ & _ & Hb).
  exists w, h'. split; [exact E|]. split.
  - destruct (str_startswith_endswith_sound w str Hw)
      as (_ & (b & Eb & Hiff)).
    rewrite Eb. f_equal. apply Hiff.
    exists (str_bytes self). exact Hb.
  - intros sub Hsub.
    destruct (str_startswith_endswith_sound self sub Hself)
      as ((b & Eb & Hiff) & _).
    destruct (str_startswith_endswith_sound w sub Hw)
      as ((b' & Eb' & Hiff') & _).
    rewrite Eb'. f_equal. apply Hiff'.
    assert (Hpre : is_prefix (cstr_bytes sub) (str_bytes self)).
    { apply Hiff. congruence. }
    destruct Hpre as [rest Hrest].
    exists (rest ++ cstr_bytes str).
    rewrite Hb, Hrest, app_assoc. reflexivity.
Qed.

Lemma str_endswith_after_str_append_witness :
  exists w h',
    str_append (mk_vec 1 128 4 (bytes_of_string "ciao" ++ zeros 124))
      (bytes_of_string " mondo") [] = Done (Some w, h')
    /\ str_endswith w (bytes_of_string " mondo") = Done true.
Proof.
  destruct (str_endswith_after_str_append
              (mk_vec 1 128 4 (bytes_of_string "ciao" ++ zeros 124))
              (bytes_of_string " mondo") [])
    as (w & h' & E & He & _).
  - by_computation.
  - by_computation.
  - by_computation.
  - by_computation.
  - constructor.
  - exists w, h'. split; [exact E|exact He].
Defined.

(** ** Ranges *)

Lemma fresh_str_can_double (cnt : Z) :
  can_double (mk_vec SIZEOF_CHAR VEC_INIT_CAPACITY cnt
                (zeros (VEC_INIT_CAPACITY * SIZEOF_CHAR))).
Proof. unfold can_double. cbn [capacity unit_size]. by_computation. Qed.

Lemma str_empty_yields (h : heap) :
  no_failure h ->
  str_empty h
  = Done (Some (mk_vec SIZEOF_CHAR VEC_INIT_CAPACITY 0
                  (zeros (VEC_INIT_CAPACITY * SIZEOF_CHAR))), tl h).
Proof.
  intros Hh. unfold str_empty, vec_new.
  apply vec_new_len_ok; [by_computation|by_computation|exact Hh].
Qed.

(** [str_range] within the limit of the staging buffer. *)
Lemma str_range_within (self : vec_obj_t) (start end_ : Z)
    (h : heap) :
  str_wf self -> 0 <= start -> 0 <= end_ ->
  Z.min (Z.max start end_) (str_length self)
  - Z.min (Z.min start end_) (str_length self) <= VEC_INIT_CAPACITY ->
  no_failure h ->
  exists w h',
    str_range self start end_ h = Done (Some w, h')
    /\ str_wf w /\ terminated w
    /\ str_length w
       = Z.min (Z.max start end_) (str_length self)
         - Z.min (Z.min start end_) (str_length self)
    /\ str_bytes w
       = firstn (Z.to_nat (Z.min (Z.max start end_) (str_length self)
                           - Z.min (Z.min start end_) (str_length self)))
           (skipn (Z.to_nat (Z.min (Z.min start end_) (str_length self)))
              (str_bytes self)).
Proof.
  unfold str_length, vec_count.
  intros Hself Hstart Hend Hsmall Hh.
  pose proof Hself as [Hv H1]. pose proof Hv as [Hu Hc Hcap Hd Hfit].
  pose proof (str_wf_length self Hself) as Hlen.
  unfold SIZEOF_CHAR, SIZEOF_VEC_OBJ in *. rewrite H1 in *.
  set (c := count self) in *.
  set (lo := Z.min (Z.min start end_) c) in *.
  set (hi := Z.min (Z.max start end_) c) in *.
  set (fresh := mk_vec SIZEOF_CHAR VEC_INIT_CAPACITY 0
                  (zeros (VEC_INIT_CAPACITY * SIZEOF_CHAR))).
  assert (Hfresh : str_wf fresh) by (apply fresh_str_wf; by_computation).
  unfold str_range, bind at 1.
  rewrite str_empty_yields by exact Hh. fold fresh.
  destruct (Z.eq_dec start end_) as [Heq|Hne].
  { rewrite Heq, Z.eqb_refl.
    exists fresh, (tl h). split; [reflexivity|]. split; [exact Hfresh|].
    assert (E0 : hi - lo = 0) by (unfold hi, lo; lia).
    rewrite E0. split; [apply mem_get_zeros; by_computation|].
    split; reflexivity. }
  rewrite eqb_false by exact Hne.
  unfold str_length, vec_count. fold c.
  set (start' := if start >? c then c else start).
  set (end' := if end_ >? c then c else end_).
  assert (Es : start' = Z.min start c).
  { unfold start'. destruct (Z_le_gt_dec start c);
      [rewrite gtb_false by lia|rewrite gtb_true by lia]; lia. }
  assert (Ee : end' = Z.min end_ c).
  { unfold end'. destruct (Z_le_gt_dec end_ c);
      [rewrite gtb_false by lia|rewrite gtb_true by lia]; lia. }
  assert (Esw : (if start' >? end' then (end', start') else (start', end'))
                = (lo, hi)).
  { destruct (Z_le_gt_dec start' end');
      [rewrite gtb_false by lia|rewrite gtb_true by lia];
      unfold lo, hi; f_equal; lia. }
  rewrite Esw.
  assert (Hlohi : 0 <= lo <= hi /\ hi <= c) by (unfold lo, hi; lia).
  unfold VEC_INIT_CAPACITY in Hsmall.
  rewrite size_sub_small by (unfold SIZE_MODULUS in *; lia).
  unfold str_extend, str_length, vec_count. cbn [count fresh].
  rewrite size_add_small by (unfold SIZE_MODULUS in *; lia).
  replace (0 + (hi - lo)) with (hi - lo) by lia.
  destruct (str_resize_within fresh (hi - lo) (tl h) Hfresh
              (fresh_str_can_double 0)) as
    (s1 & h1 & E1 & Hh1 & Hs1 & Hc1 & Hlt1 & _ & Ht1 & _ & _).
  { cbn [capacity fresh]. unfold VEC_INIT_CAPACITY. lia. }
  { apply no_failure_tl. exact Hh. }
  unfold bind at 1. rewrite E1.
  destruct (Z.eq_dec (hi - lo) 0) as [E0|Hpos].
  { unfold bind. rewrite E0, vec_copy_nothing. unfold ret.
    exists s1, h1.
    rewrite E0 in Hc1.
    split; [reflexivity|]. split; [exact Hs1|]. split; [exact Ht1|].
    split; [exact Hc1|]. unfold str_bytes. rewrite Hc1. reflexivity. }
  assert (Hp : vec_ptr_at self lo = lo).
  { rewrite vec_ptr_at_inside; fold c; rewrite ?H1;
      unfold SIZE_MODULUS in *; lia. }
  rewrite Hp.
  destruct (str_copy_within s1 0 (ptr_mem (data self) lo) (hi - lo) h1)
    as (s2 & E2 & Hs2 & Hsame & Hd2); try assumption;
    rewrite ?Hc1; unfold VEC_INIT_CAPACITY; try lia.
  { unfold ptr_mem, zlength. rewrite length_skipn. lia. }
  unfold bind. rewrite E2. unfold ret.
  destruct Hsame as (_ & _ & Hc2).
  exists s2, (tl h1). split; [reflexivity|]. split; [exact Hs2|].
  split.
  { destruct (vec_copy_keeps_terminator s1 0 (ptr_mem (data self) lo)
                (hi - lo) h1 s2 (tl h1)) as (_ & _ & Hkeep);
      try assumption; try lia.
    apply Hkeep. exact Ht1. }
  split; [congruence|].
  unfold str_bytes. rewrite Hc2, Hc1, Hd2. fold c.
  rewrite Hc1.
  replace (Z.min (hi - lo) (hi - lo - 0)) with (hi - lo) by lia.
  simpl firstn at 2. rewrite app_nil_l. unfold ptr_mem.
  rewrite firstn_app_l by (rewrite length_firstn, length_skipn; lia).
  rewrite firstn_firstn, Nat.min_id.
  rewrite skipn_firstn_comm, firstn_firstn.
  f_equal. lia.
Qed.


(** X12.  [str_range] returns a new terminated string that holds the bytes
    of [self] between the two offsets, whichever of them is the larger one
    and both cut down to the length of [self]; equal offsets give the empty
    string, and the order of the two offsets makes no difference.  The bytes
    pass through the staging buffer of [vec_copy], so the range may not be
    longer than [VEC_INIT_CAPACITY]. *)
Theorem str_range_is_the_slice (self : vec_obj_t) (start end_ : Z)
    (h : heap) :
  str_wf self -> 0 <= start -> 0 <= end_ ->
  Z.min (Z.max start end_) (str_length self)
  - Z.min (Z.min start end_) (str_length self) <= VEC_INIT_CAPACITY ->
  no_failure h ->
  (exists w h',
     str_range self start end_ h = Done (Some w, h')
     /\ str_wf w /\ terminated w
     /\ str_length w
        = Z.min (Z.max start end_) (str_length self)
          - Z.min (Z.min start end_) (str_length self)
     /\ str_bytes w
        = firstn (Z.to_nat (Z.min (Z.max start end_) (str_length self)
                            - Z.min (Z.min start end_) (str_length self)))
            (skipn (Z.to_nat (Z.min (Z.min start end_) (str_length self)))
               (str_bytes self)))
  /\ str_range self end_ start h = str_range self start end_ h.
Proof.
  intros Hself Hstart Hend Hsmall Hh.
  split; [apply str_range_within; assumption|].
  unfold str_range, bind.
  destruct (str_empty h) as [[[str|] h1]|]; try reflexivity.
  destruct (Z.eq_dec start end_) as [->|Hne]; [reflexivity|].
  rewrite !eqb_false by congruence.
  set (len := str_length self).
  set (s' := if start >? len then len else start).
  set (e' := if end_ >? len then len else end_).
  destruct (Z_le_gt_dec s' e') as [Hle|Hgt].
  - rewrite (gtb_false s' e') by lia.
    destruct (Z.eq_dec s' e') as [E|Hlt].
    + rewrite E. destruct (e' >? e'); reflexivity.
    + rewrite (gtb_true e' s') by lia. reflexivity.
  - rewrite (gtb_true s' e') by lia.
    rewrite (gtb_false e' s') by lia. reflexivity.
Qed.

Lemma str_range_is_the_slice_witness :
  exists w h',
    str_range (mk_vec 1 128 15 (bytes_of_string "ciao mondo ciao" ++ zeros 113))
      1000 5 [] = Done (Some w, h')
    /\ terminated w
    /\ str_bytes w = bytes_of_string "mondo ciao".
Proof.
  destruct (str_range_is_the_slice
              (mk_vec 1 128 15 (bytes_of_string "ciao mondo ciao" ++ zeros 113))
              1000 5 []) as [(w & h' & E & _ & Ht & _ & Hb) _].
  - by_computation.
  - by_computation.
  - by_computation.
  - by_computation.
  - constructor.
  - exists w, h'. split; [exact E|]. split; [exact Ht|exact Hb].
Defined.

(** ** Searching and replacing: the edges *)

(** X13.  The two allocations of [str_find] fail differently: without the
    vector of offsets the result is NULL; without the table of borders the
    result is the vector of offsets, still empty, which a caller cannot
    tell from a search that found nothing. *)
Theorem str_find_allocation_failures (self : vec_obj_t) (pat : list byte)
    (h : heap) :
  strlen pat <> 0 ->
  (alloc_succeeds h = false -> str_find self pat h = Done (None, tl h))
  /\ (alloc_succeeds h = true -> alloc_succeeds (tl h) = false ->
      exists pos,
        str_find self pat h = Done (Some pos, tl (tl h))
        /\ vec_count pos = 0 /\ index_items pos = []).
Proof.
  intros Hm.
  assert (E : str_find self pat h
              = bind (vec_new_len SIZEOF_SIZE_T 0)
                  (fun pos =>
                     match pos with
                     | None => ret None
                     | Some pos =>
                         lps <- vec_new_len SIZEOF_SIZE_T (strlen pat) ;;
                         match lps with
                         | None => ret (Some pos)
                         | Some lps =>
                             lps <- kmp_compute_lps pat (strlen pat) lps ;;
                             str_find_loop (2 * Z.to_nat (str_length self) + 1)
                               self pat (str_length self) (strlen pat) lps
                               0 0 pos
                         end
                     end) h).
  { unfold str_find. rewrite eqb_false by exact Hm. reflexivity. }
  rewrite E. unfold bind.
  rewrite vec_new_len_spec by by_computation.
  split.
  - intros ->. reflexivity.
  - intros -> Hsecond.
    rewrite vec_new_len_spec by by_computation.
    rewrite Hsecond.
    eexists. split; [reflexivity|]. split; reflexivity.
Qed.

Lemma str_find_allocation_failures_witness :
  exists pos,
    str_find (mk_vec 1 128 3 (bytes_of_string "aba" ++ zeros 125))
      (bytes_of_string "a") [AllocOk (fun _ => x00); AllocFail]
    = Done (Some pos, [])
    /\ vec_count pos = 0 /\ index_items pos = [].
Proof.
  destruct (str_find_allocation_failures
              (mk_vec 1 128 3 (bytes_of_string "aba" ++ zeros 125))
              (bytes_of_string "a") [AllocOk (fun _ => x00); AllocFail])
    as [_ H].
  - by_computation.
  - apply H; reflexivity.
Defined.

(** X14.  On a table with one entry for every byte of the pattern,
    [kmp_compute_lps] ends and fills the table: entry [k] is the length of
    the longest proper prefix of the first [k + 1] bytes of the pattern that
    is also a suffix of them. *)
Theorem kmp_compute_lps_longest_borders (pat : list byte) (lps : vec_obj_t) :
  1 <= strlen pat -> index_wf lps -> vec_count lps = strlen pat ->
  yields (kmp_compute_lps pat (strlen pat) lps)
    (fun lps' =>
       vec_count lps' = strlen pat
       /\ forall k, 0 <= k < strlen pat ->
            let b := slot lps' k in
            border (cstr_bytes pat) (k + 1) b /\ b < k + 1
            /\ forall c, c < k + 1 -> border (cstr_bytes pat) (k + 1) c ->
                         c <= b).
Proof.
  intros Hm Hlps Hcount.
  eapply yields_weaken.
  - apply (kmp_compute_lps_yields pat (strlen pat) lps);
      [reflexivity|exact Hm|exact Hlps|exact Hcount].
  - intros lps' (_ & Hc & Htable). split; [exact Hc|].
    intros k Hk. exact (Htable k Hk).
Qed.

Lemma kmp_compute_lps_longest_borders_witness :
  yields (kmp_compute_lps (bytes_of_string "ABA")
            (strlen (bytes_of_string "ABA"))
            (mk_vec 8 128 3 (zeros 1024)))
    (fun lps' => vec_count lps' = 3 /\ slot lps' 2 < 3).
Proof.
  eapply yields_weaken.
  - apply (kmp_compute_lps_longest_borders (bytes_of_string "ABA")
             (mk_vec 8 128 3 (zeros 1024))).
    + by_computation.
    + by_computation.
    + by_computation.
  - intros lps' [Hc Ht]. split; [exact Hc|].
    destruct (Ht 2) as (_ & Hlt & _); [by_computation|exact Hlt].
Defined.

Lemma spec_find_nil (p t : list byte) :
  1 <= zlength p -> (forall s, ~ occurs_at p t s) -> spec_find p t = [].
Proof.
  intros Hp Hno.
  destruct (spec_find_found_all p t Hp) as [_ Hin].
  destruct (spec_find p t) as [|s l] eqn:E; [reflexivity|].
  exfalso. apply (Hno s). apply Hin. left. reflexivity.
Qed.

(** X15.  For an [old_str] of at least one byte that is not longer than the
    string and has at most [VEC_INIT_CAPACITY] bytes (the items of the
    table of [kmp_compute_lps]): [str_replace] hands back the string as it
    is, without a write to it, when the limit is [0] or when [old_str] does
    not occur in it; so does [str_remove] for such a text that does not
    occur. *)
Theorem str_replace_leaves_unchanged (self : vec_obj_t)
    (old_str new_str : list byte) (cnt : Z) (h : heap) :
  str_wf self ->
  1 <= strlen old_str <= str_length self ->
  strlen old_str <= VEC_INIT_CAPACITY ->
  32 * self.(count) + 4096 < SIZE_MODULUS ->
  no_failure h ->
  (cnt = 0 ->
   exists h', str_replace self old_str new_str cnt h = Done (Some self, h'))
  /\ ((forall s, ~ occurs_at (cstr_bytes old_str) (str_bytes self) s) ->
      (exists h', str_replace self old_str new_str cnt h
                  = Done (Some self, h'))
      /\ (exists h', str_remove self old_str h = Done (Some self, h'))).
Proof.
  unfold str_length, vec_count.
  intros Hself Hold Hsmall Hroom Hh.
  destruct (str_find_finds_all self old_str Hself ltac:(lia) Hroom h Hh)
    as (r & h' & Ef & Hh' & pos & -> & Hpos & Hitems).
  assert (E : forall new c,
             str_replace self old_str new c h
             = (if vec_count pos =? 0 then ret (Some self)
                else str_replace_loop (Z.to_nat (vec_count pos)) 0 self pos
                       (vec_count pos) (strlen old_str) (strlen new)
                       (size_sub (strlen new) (strlen old_str)) new c) h').
  { intros new c. unfold str_replace, str_length, vec_count.
    rewrite gtb_false by lia. unfold bind. rewrite Ef. reflexivity. }
  split.
  - intros ->. rewrite E.
    destruct (vec_count pos =? 0) eqn:E0; [exists h'; reflexivity|].
    apply Z.eqb_neq in E0.
    destruct Hpos as [[_ Hc _ _ _] _]. unfold vec_count in *.
    destruct (Z.to_nat (count pos)) as [|k] eqn:Ek; [lia|].
    simpl str_replace_loop.
    exists h'. reflexivity.
  - intros Hno.
    assert (Hz : vec_count pos = 0).
    { pose proof (length_index_items pos) as Hl.
      rewrite Hitems, spec_find_nil in Hl;
        [|rewrite zlength_cstr_bytes; lia|exact Hno].
      destruct Hpos as [[_ Hc _ _ _] _]. unfold vec_count.
      simpl in Hl. lia. }
    split; [|unfold str_remove]; rewrite E, Hz; exists h'; reflexivity.
Qed.

Lemma str_replace_leaves_unchanged_witness :
  exists h',
    str_replace (mk_vec 1 128 3 (bytes_of_string "aba" ++ zeros 125))
      (bytes_of_string "a") (bytes_of_string "") 0 []
    = Done (Some (mk_vec 1 128 3 (bytes_of_string "aba" ++ zeros 125)), h').
Proof.
  destruct (str_replace_leaves_unchanged
              (mk_vec 1 128 3 (bytes_of_string "aba" ++ zeros 125))
              (bytes_of_string "a") (bytes_of_string "") 0 []) as [H _].
  - by_computation.
  - by_computation.
  - by_computation.
  - by_computation.
  - constructor.
  - apply H. reflexivity.
Defined.

(** ** Repetition *)

Lemma concat_repeat_snoc (T : list byte) (n : nat) :
  concat (repeat T (S n)) = concat (repeat T n) ++ T.
Proof.
  change (repeat T (S n)) with (T :: repeat T n).
  rewrite repeat_cons, concat_app. simpl. rewrite app_nil_r. reflexivity.
Qed.

(** X16.  After [str_repeat] with a count of at least [1] the string starts
    with [cnt] copies of what it held; the string may not be longer than the
    staging buffer of [vec_copy]. *)
Theorem str_repeat_starts_with_copies (self : vec_obj_t) (cnt : Z)
    (h : heap) :
  str_wf self -> can_double self -> 1 <= cnt ->
  str_length self <= VEC_INIT_CAPACITY ->
  str_length self + str_length self * cnt < 2 * vec_capacity self ->
  no_failure h ->
  exists w h',
    str_repeat self cnt h = Done (Some w, h')
    /\ str_wf w /\ terminated w
    /\ firstn (Z.to_nat (str_length self * cnt)) (str_bytes w)
       = concat (repeat (str_bytes self) (Z.to_nat cnt)).
Proof.
  unfold str_length, vec_count, vec_capacity.
  intros Hself Hdbl Hcnt Hlen Hroom Hh.
  pose proof Hself as [Hv H1]. pose proof Hv as [Hu Hc Hcap Hd Hfit].
  pose proof Hdbl as Hdbl'. unfold can_double in Hdbl'.
  unfold SIZEOF_CHAR, SIZEOF_VEC_OBJ, VEC_INIT_CAPACITY in *.
  rewrite H1 in *.
  set (len := count self) in *.
  set (T := str_bytes self).
  assert (HT : length T = Z.to_nat len).
  { pose proof (zlength_str_bytes self Hself) as Hz. unfold zlength in Hz.
    fold T len in Hz. lia. }
  unfold str_repeat, str_extend, str_length, vec_count. fold len.
  rewrite eqb_false by lia.
  assert (Hprod : 0 <= len * cnt) by nia.
  rewrite size_mul_small by (unfold SIZE_MODULUS in *; lia).
  rewrite size_add_small by (unfold SIZE_MODULUS in *; lia).
  destruct (str_resize_within self (len + len * cnt) h Hself Hdbl
              ltac:(lia) Hh)
    as (s1 & h1 & E1 & Hh1 & Hs1 & Hc1 & Hlt1 & _ & Ht1 & Hpre1 & _).
  fold len in Hpre1. replace (Z.min len (len + len * cnt)) with len
    in Hpre1 by lia.
  unfold bind at 1. rewrite E1.
  set (I := fun (j : Z) (s : vec_obj_t) =>
              str_wf s /\ s.(count) = len + len * cnt /\ terminated s
              /\ firstn (Z.to_nat len) s.(data) = T
              /\ firstn (Z.to_nat (j * len)) s.(data)
                 = concat (repeat T (Z.to_nat j))).
  assert (Hloop : yields
            (for_loop 0 cnt
               (fun i s => vec_copy s (size_mul i len) (data s) len) s1)
            (I (0 + Z.of_nat (Z.to_nat (cnt - 0))))).
  { unfold for_loop.
    apply (for_range_yields_ix _ I (Z.to_nat (cnt - 0)) 0 s1).
    - intros j s Hj (Hs & Hcs & Hts & HfT & Hrep).
      assert (Hjl : 0 <= j * len /\ j * len + len <= len * cnt) by nia.
      rewrite size_mul_small by (unfold SIZE_MODULUS in *; lia).
      pose proof (str_wf_length s Hs) as Hls.
      assert (Hcaps : len + len * cnt <= capacity s).
      { destruct Hs as [[_ Hcc _ _ _] _]. lia. }
      intros h0 Hh0.
      destruct (Z.eq_dec len 0) as [E0|Hne].
      + exists s, h0. rewrite E0 at 2. rewrite vec_copy_nothing.
        split; [reflexivity|]. split; [exact Hh0|].
        unfold I. repeat (split; [assumption|]).
        assert (En : T = []).
        { destruct T; [reflexivity|]. simpl in HT. lia. }
        rewrite E0, Z.mul_0_r. simpl firstn. rewrite En.
        clear. induction (Z.to_nat (j + 1)) as [|n IH];
          [reflexivity|simpl; exact IH].
      + destruct (str_copy_within s (j * len) (data s) len h0)
          as (s' & E' & Hs' & Hsame & Hd'); try assumption;
          rewrite ?Hcs; unfold VEC_INIT_CAPACITY, zlength; try lia.
        exists s', (tl h0). split; [exact E'|].
        split; [apply no_failure_tl; exact Hh0|].
        destruct Hsame as (_ & _ & Hc').
        rewrite Hcs in Hd'.
        replace (Z.min len (len + len * cnt - j * len)) with len in Hd'
          by lia.
        unfold I. split; [exact Hs'|]. split; [congruence|].
        split.
        { destruct (vec_copy_keeps_terminator s (j * len) (data s) len
                      h0 s' (tl h0)) as (_ & _ & Hkeep);
            try assumption; try lia.
          apply Hkeep. exact Hts. }
        assert (Hl1 : length (firstn (Z.to_nat (j * len)) (data s))
                      = Z.to_nat (j * len))
          by (apply length_firstn_le; lia).
        assert (Hl2 : length (firstn (Z.to_nat len) (data s))
                      = Z.to_nat len)
          by (apply length_firstn_le; lia).
        split.
        * rewrite Hd'. destruct (Z.eq_dec j 0) as [->|Hj0].
          -- simpl firstn at 2. rewrite app_nil_l.
             rewrite firstn_app_l by lia.
             rewrite firstn_firstn, Nat.min_id. exact HfT.
          -- rewrite firstn_app_l by nia.
             rewrite firstn_firstn, Nat.min_l by nia. exact HfT.
        * rewrite Hd'.
          replace (Z.to_nat (j + 1)) with (S (Z.to_nat j)) by lia.
          rewrite concat_repeat_snoc, <- Hrep, <- HfT.
          rewrite app_assoc.
          rewrite firstn_app_l by (rewrite length_app; nia).
          apply firstn_all2. rewrite length_app. nia.
    - unfold I. split; [exact Hs1|]. split; [exact Hc1|].
      split; [exact Ht1|]. split; [exact Hpre1|]. reflexivity. }
  destruct (Hloop h1 Hh1) as (w & h' & Ew & _ & Hw & Hcw & Htw & _ & Hrep).
  unfold bind. rewrite Ew. unfold ret.
  exists w, h'. split; [reflexivity|]. split; [exact Hw|].
  split; [exact Htw|].
  replace (0 + Z.of_nat (Z.to_nat (cnt - 0))) with cnt in Hrep by lia.
  rewrite <- Hrep. unfold str_bytes. rewrite Hcw.
  rewrite firstn_firstn. f_equal. nia.
Qed.

Lemma str_repeat_starts_with_copies_witness :
  exists w h',
    str_repeat (mk_vec 1 128 3 (bytes_of_string "hi " ++ zeros 125)) 6 []
    = Done (Some w, h')
    /\ firstn 18 (str_bytes w) = bytes_of_string "hi hi hi hi hi hi ".
Proof.
  destruct (str_repeat_starts_with_copies
              (mk_vec 1 128 3 (bytes_of_string "hi " ++ zeros 125)) 6 [])
    as (w & h' & E & _ & _ & Hb).
  - by_computation.
  - by_computation.
  - by_computation.
  - by_computation.
  - by_computation.
  - constructor.
  - exists w, h'. split; [exact E|exact Hb].
Defined.

(** ** Formatting *)

Lemma fits_buf_text (text : list byte) :
  fits_buf text ->
  cstr_bytes (snprintf_buf text) = text /\ zlength text <= BUFSIZE - 1.
Proof.
  unfold fits_buf, snprintf_buf, strlen, zlength, cstr_bytes.
  set (n := Z.to_nat (BUFSIZE - 1)).
  intros H.
  pose proof (strlen_nat_le (firstn n text)) as Hle.
  rewrite length_firstn in Hle.
  assert (Hn : Z.of_nat n = BUFSIZE - 1) by (unfold n, BUFSIZE; lia).
  assert (Hlen : (length text <= n)%nat) by lia.
  assert (Ef : firstn n text = text) by (apply firstn_all2; exact Hlen).
  rewrite Ef in *.
  split; [|lia].
  replace (strlen_nat text) with (length text) by lia.
  apply firstn_all.
Qed.

Lemma str_room_can_double (cap0 N : Z) (v : vec_obj_t) :
  str_room cap0 v -> v.(count) <= N ->
  2 * Z.max cap0 (2 * (N + 1)) + SIZEOF_VEC_OBJ < SIZE_MODULUS ->
  can_double v.
Proof.
  intros (Hv & Hlt & Hcap) HN Hbig.
  unfold can_double. rewrite (str_wf_unit v Hv). lia.
Qed.

(** The literal branch of [str_format]: one more item, then the byte. *)
Lemma str_push_within (cap0 : Z) (v : vec_obj_t) (c : byte)
    (more : list byte) (h : heap) :
  str_room cap0 v -> can_double v -> no_failure h ->
  exists s1 h1 w h',
    on_handle (Some v) (fun v => vec_extend v 1) h = Done (Some s1, h1)
    /\ on_handle (Some s1) (fun s => vec_set s v.(count) (c :: more)) h1
       = Done (w, h')
    /\ no_failure h'
    /\ str_room cap0 w /\ w.(count) = v.(count) + 1
    /\ str_bytes w = str_bytes v ++ [c].
Proof.
  intros (Hv & Hlt & Hcap) Hdbl Hh.
  pose proof Hv as [Hvw H1]. pose proof Hvw as [Hu Hc Hcp Hd Hfit].
  pose proof Hdbl as Hdbl'. unfold can_double in Hdbl'.
  unfold SIZEOF_CHAR, SIZEOF_VEC_OBJ, VEC_INIT_CAPACITY in *.
  rewrite H1 in *.
  unfold on_handle at 1, vec_extend, vec_count.
  rewrite size_add_small by (unfold SIZE_MODULUS in *; lia).
  destruct (vec_resize_within v (count v + 1) h Hvw Hdbl ltac:(lia) Hh)
    as (s1 & h1 & E1 & Hh1 & Hs1 & Hc1 & Hu1 & Hcap1 & Hpre1 & _).
  unfold vec_set.
  assert (Hs1' : str_wf s1)
    by (split; [exact Hs1|unfold SIZEOF_CHAR; congruence]).
  assert (Hlt1 : count s1 < capacity s1).
  { rewrite Hc1, Hcap1. destruct (count v + 1 <? capacity v) eqn:El;
      [apply Z.ltb_lt in El|]; lia. }
  destruct (str_copy_within s1 (count v) (c :: more) 1 h1)
    as (w & Ew & Hw & Hsame & Hdw); try assumption;
    rewrite ?Hc1; unfold VEC_INIT_CAPACITY, zlength; cbn [length]; try lia.
  exists s1, h1, w, (tl h1). split; [exact E1|]. split; [exact Ew|].
  split; [apply no_failure_tl; exact Hh1|].
  destruct Hsame as (_ & Hcapw & Hcw).
  split; [|split; [congruence|]].
  - split; [exact Hw|]. split; [lia|].
    rewrite Hcapw, Hcap1, Hcw, Hc1.
    destruct (count v + 1 <? capacity v) eqn:El;
      [lia|apply Z.ltb_ge in El; lia].
  - unfold str_bytes. rewrite Hcw, Hc1, Hdw, Hc1.
    rewrite H1 in Hpre1.
    replace (Z.min (count v) (count v + 1) * 1) with (count v) in Hpre1
      by lia.
    replace (Z.min 1 (count v + 1 - count v)) with 1 by lia.
    pose proof (str_wf_length s1 Hs1') as Hl1.
    change (firstn (Z.to_nat 1) (c :: more)) with [c].
    rewrite app_assoc.
    assert (Hlf : length (firstn (Z.to_nat (count v)) (data s1))
                  = Z.to_nat (count v)) by (apply length_firstn_le; lia).
    rewrite firstn_app_l by (rewrite length_app, Hlf; cbn [length]; lia).
    rewrite firstn_all2 by (rewrite length_app, Hlf; cbn [length]; lia).
    rewrite Hpre1. reflexivity.
Qed.

(** A directive of [str_format]: the text, then a terminator. *)
Lemma str_append_room (cap0 : Z) (v : vec_obj_t) (str : list byte)
    (h : heap) :
  str_room cap0 v -> can_double v -> strlen str <= VEC_INIT_CAPACITY ->
  no_failure h ->
  exists w h',
    on_handle (Some v) (fun v => str_append v str) h = Done (Some w, h')
    /\ no_failure h'
    /\ str_room cap0 w /\ w.(count) = v.(count) + strlen str
    /\ str_bytes w = str_bytes v ++ cstr_bytes str.
Proof.
  intros (Hv & Hlt & Hcap) Hdbl Hlen Hh.
  pose proof (strlen_nonneg str) as Hnn.
  destruct (str_append_within v str h Hv Hdbl Hlt Hlen Hh)
    as (w & h' & E & Hh' & Hw & Hcw & Hltw & Hcapw & _ & Hb).
  exists w, h'. unfold on_handle.
  split; [exact E|]. split; [exact Hh'|].
  split; [|split; assumption].
  split; [exact Hw|]. split; [exact Hltw|].
  rewrite Hcapw, Hcw.
  destruct (count v + strlen str + 1 <? capacity v) eqn:El;
    [lia|apply Z.ltb_ge in El; lia].
Qed.

Lemma str_format_loop_literal (c : byte) (rest : list byte) (self : vec_t)
    (pos : Z) (ap : list fmt_arg) :
  Byte.eqb c percent = false ->
  str_format_loop (c :: rest) self pos ap
  = (self <- on_handle self (fun v => vec_extend v 1) ;;
     v <- on_handle self (fun v => vec_set v pos (cstr_mem (c :: rest))) ;;
     str_format_loop rest (Some v) (size_add pos 1) ap).
Proof. intros H. simpl. rewrite H. reflexivity. Qed.

Lemma str_format_loop_directive (c d : byte) (rest' : list byte)
    (self : vec_t) (pos : Z) (ap : list fmt_arg) :
  Byte.eqb c percent = true ->
  str_format_loop (c :: d :: rest') self pos ap
  = (let directive (text : list byte) (ap' : list fmt_arg) :=
       self <- on_handle self (fun v => str_append v (snprintf_buf text)) ;;
       str_format_loop rest' self (size_add pos (zlength text)) ap' in
     if Byte.eqb d "s"%byte then
       match ap with
       | ArgStr s :: ap' =>
           self <- on_handle self (fun v => str_append v s) ;;
           str_format_loop rest' self (size_add pos (strlen s)) ap'
       | _ => crash
       end
     else if Byte.eqb d "i"%byte then
       match ap with
       | ArgInt z :: ap' => directive (decimal (int_value z)) ap'
       | _ => crash
       end
     else if Byte.eqb d "l"%byte then
       match ap with
       | ArgLong z :: ap' => directive (decimal (long_long_value z)) ap'
       | _ => crash
       end
     else if Byte.eqb d "u"%byte then
       match ap with
       | ArgULong z :: ap' =>
           directive (decimal (unsigned_long_long_value z)) ap'
       | _ => crash
       end
     else if Byte.eqb d "f"%byte then
       match ap with
       | ArgDouble g :: ap' => directive g ap'
       | _ => crash
       end
     else
       self <- on_handle self (fun v => str_append v (bytes_of_string "???")) ;;
       str_format_loop rest' self (size_add pos 3) ap).
Proof. intros H. simpl. rewrite H. reflexivity. Qed.

Lemma render_literal (c : byte) (rest : list byte) (ap : list fmt_arg) :
  Byte.eqb c percent = false ->
  render (c :: rest) ap = option_map (cons c) (render rest ap).
Proof. intros H. simpl. rewrite H. reflexivity. Qed.

Lemma render_directive (c d : byte) (rest' : list byte) (ap : list fmt_arg) :
  Byte.eqb c percent = true ->
  render (c :: d :: rest') ap
  = (if Byte.eqb d "s"%byte then
       match ap with
       | ArgStr s :: ap' => option_map (app (cstr_bytes s)) (render rest' ap')
       | _ => None
       end
     else if Byte.eqb d "i"%byte then
       match ap with
       | ArgInt z :: ap' =>
           option_map (app (decimal (int_value z))) (render rest' ap')
       | _ => None
       end
     else if Byte.eqb d "l"%byte then
       match ap with
       | ArgLong z :: ap' =>
           option_map (app (decimal (long_long_value z))) (render rest' ap')
       | _ => None
       end
     else if Byte.eqb d "u"%byte then
       match ap with
       | ArgULong z :: ap' =>
           option_map (app (decimal (unsigned_long_long_value z)))
             (render rest' ap')
       | _ => None
       end
     else if Byte.eqb d "f"%byte then
       match ap with
       | ArgDouble g :: ap' => option_map (app g) (render rest' ap')
       | _ => None
       end
     else option_map (app (bytes_of_string "???")) (render rest' ap)).
Proof. intros H. simpl. rewrite H. reflexivity. Qed.

Lemma option_map_some {A B} (f : A -> B) (o : option A) (b : B) :
  option_map f o = Some b -> exists a, o = Some a /\ b = f a.
Proof.
  destruct o as [a|]; simpl; [|discriminate].
  intros H. injection H as <-. exists a. auto.
Qed.

(** ** The text of an integer argument *)

Lemma strlen_nat_nonzero (l : list byte) :
  nonzero_bytes l -> strlen_nat l = length l.
Proof.
  induction 1 as [|b l Hb _ IH]; [reflexivity|].
  cbn [strlen_nat length].
  destruct (Byte.eqb b x00) eqn:E.
  - apply Byte.byte_dec_bl in E. contradiction.
  - rewrite IH. reflexivity.
Qed.

Lemma fits_buf_nonzero (text : list byte) :
  nonzero_bytes text -> zlength text < BUFSIZE -> fits_buf text.
Proof.
  intros Hnz Hlen. unfold fits_buf, snprintf_buf, strlen, zlength in *.
  unfold BUFSIZE in *.
  rewrite firstn_all2 by lia.
  rewrite strlen_nat_nonzero by exact Hnz. reflexivity.
Qed.

Lemma string_of_uint_bytes (d : Decimal.uint) :
  nonzero_bytes (bytes_of_string (NilEmpty.string_of_uint d))
  /\ length (bytes_of_string (NilEmpty.string_of_uint d))
     = Decimal.nb_digits d.
Proof.
  unfold nonzero_bytes, bytes_of_string, list_byte_of_string.
  induction d as [|d [IH1 IH2]|d [IH1 IH2]|d [IH1 IH2]|d [IH1 IH2]
                  |d [IH1 IH2]|d [IH1 IH2]|d [IH1 IH2]|d [IH1 IH2]
                  |d [IH1 IH2]|d [IH1 IH2]];
    cbn [NilEmpty.string_of_uint list_ascii_of_string map
         Decimal.nb_digits length];
    [split; [constructor|reflexivity]|..];
    (split; [constructor; [discriminate|exact IH1]|rewrite IH2; reflexivity]).
Qed.

Lemma usize_nb_digits (d : Decimal.uint) :
  DecimalPos.Unsigned.usize d = N.of_nat (Decimal.nb_digits d).
Proof.
  induction d; cbn [DecimalPos.Unsigned.usize Decimal.nb_digits]; lia.
Qed.

(** A positive number below [10^k] is printed with at most [k] digits. *)
Lemma nb_digits_to_uint (p : positive) (k : nat) :
  (N.pos p < 10 ^ N.of_nat k)%N ->
  (Decimal.nb_digits (Pos.to_uint p) <= k)%nat.
Proof.
  intros Hp.
  pose proof (DecimalPos.Unsigned.of_to p) as Hof.
  pose proof (DecimalPos.Unsigned.to_of (Pos.to_uint p)) as Hto.
  rewrite Hof in Hto. cbn [N.to_uint] in Hto.
  pose proof (DecimalPos.Unsigned.to_uint_nonzero p) as Hnz.
  pose proof (DecimalPos.Unsigned.to_uint_nonnil p) as Hnn.
  rewrite DecimalPos.Unsigned.of_uint_alt in Hof.
  set (b := Pos.to_uint p) in *.
  assert (Hhead : Decimal.nzhead b = b).
  { unfold Decimal.unorm in Hto.
    destruct (Decimal.nzhead b) eqn:E;
      [contradiction|symmetry; exact Hto..]. }
  assert (Hlow : forall b' q, (1 <= q)%N ->
            (DecimalPos.Unsigned.of_lu (Decimal.revapp b' Decimal.Nil)
             + q * 10 ^ DecimalPos.Unsigned.usize b' = N.pos p)%N ->
            (S (Decimal.nb_digits b') <= k)%nat).
  { intros b' q Hq E.
    assert (Hpow : (10 ^ DecimalPos.Unsigned.usize b' < 10 ^ N.of_nat k)%N).
    { eapply N.le_lt_trans; [|exact Hp]. rewrite <- E.
      assert (1 * 10 ^ DecimalPos.Unsigned.usize b' <= q * 10 ^ DecimalPos.Unsigned.usize b')%N
        by (apply N.mul_le_mono_r; exact Hq).
      lia. }
    apply N.pow_lt_mono_r_iff in Hpow; [|lia].
    rewrite usize_nb_digits in Hpow. lia. }
  destruct b as [|b'|b'|b'|b'|b'|b'|b'|b'|b'|b'];
    [contradiction
    |exfalso; apply (DecimalFacts.nzhead_nonzero (Decimal.D0 b') b'); exact Hhead
    |..];
    cbn [Decimal.nb_digits];
    unfold Decimal.rev in Hof; cbn [Decimal.revapp] in Hof;
    rewrite DecimalPos.Unsigned.of_lu_revapp in Hof;
    cbn [DecimalPos.Unsigned.of_lu] in Hof; rewrite N.mul_0_r, N.add_0_r in Hof;
    unfold Decimal.rev in Hof;
    (eapply Hlow; [|exact Hof]); lia.
Qed.

Lemma decimal_fits (z : Z) :
  - 2 ^ 64 < z < 2 ^ 64 -> fits_buf (decimal z).
Proof.
  intros Hz. unfold decimal.
  assert (Hpos : forall p, Z.pos p < 2 ^ 64 ->
            nonzero_bytes (bytes_of_string
                             (NilZero.string_of_uint (Pos.to_uint p)))
            /\ (length (bytes_of_string
                          (NilZero.string_of_uint (Pos.to_uint p)))
                <= 20)%nat).
  { intros p Hp.
    pose proof (DecimalPos.Unsigned.to_uint_nonnil p) as Hnn.
    assert (E : NilZero.string_of_uint (Pos.to_uint p)
                = NilEmpty.string_of_uint (Pos.to_uint p)).
    { unfold NilZero.string_of_uint.
      destruct (Pos.to_uint p); [contradiction|reflexivity..]. }
    rewrite E.
    destruct (string_of_uint_bytes (Pos.to_uint p)) as [H1 H2].
    split; [exact H1|]. rewrite H2.
    apply nb_digits_to_uint.
    change (10 ^ N.of_nat 20)%N with 100000000000000000000%N.
    change (2 ^ 64) with 18446744073709551616 in Hp. lia. }
  destruct z as [|p|p].
  - vm_compute. reflexivity.
  - cbn [Z.to_int NilZero.string_of_int].
    destruct (Hpos p ltac:(lia)) as [H1 H2].
    apply fits_buf_nonzero; [exact H1|]. unfold zlength, BUFSIZE. lia.
  - cbn [Z.to_int NilZero.string_of_int].
    destruct (Hpos p ltac:(lia)) as [H1 H2].
    apply fits_buf_nonzero.
    + unfold bytes_of_string, list_byte_of_string in *.
      cbn [list_ascii_of_string map].
      constructor; [discriminate|exact H1].
    + unfold zlength, BUFSIZE, bytes_of_string, list_byte_of_string in *.
      cbn [list_ascii_of_string map length]. lia.
Qed.

Lemma signed_value_range (bits z : Z) :
  1 <= bits ->
  - 2 ^ (bits - 1) <= signed_value bits z < 2 ^ (bits - 1).
Proof.
  intros Hb. unfold signed_value.
  assert (Hp : 0 < 2 ^ (bits - 1)) by (apply Z.pow_pos_nonneg; lia).
  assert (E : 2 ^ bits = 2 * 2 ^ (bits - 1)).
  { replace bits with (Z.succ (bits - 1)) at 1 by lia.
    apply Z.pow_succ_r. lia. }
  pose proof (Z.mod_pos_bound (z + 2 ^ (bits - 1)) (2 ^ bits) ltac:(lia)).
  lia.
Qed.

Lemma arg_text_fits (z : Z) :
  fits_buf (decimal (int_value z))
  /\ fits_buf (decimal (long_long_value z))
  /\ fits_buf (decimal (unsigned_long_long_value z)).
Proof.
  pose proof (signed_value_range 32 z ltac:(lia)) as H32.
  pose proof (signed_value_range 64 z ltac:(lia)) as H64.
  pose proof (Z.mod_pos_bound z (2 ^ 64) ltac:(lia)) as Hu.
  change (2 ^ (32 - 1)) with 2147483648 in H32.
  change (2 ^ (64 - 1)) with 9223372036854775808 in H64.
  change (2 ^ 64) with 18446744073709551616 in *.
  repeat split; apply decimal_fits;
    change (2 ^ 64) with 18446744073709551616;
    unfold int_value, long_long_value, unsigned_long_long_value; 
    change (2 ^ 64) with 18446744073709551616; lia.
Qed.

Section StrFormatLoop.
Variables (cap0 N : Z).
Hypothesis Hbig : 2 * Z.max cap0 (2 * (N + 1)) + SIZEOF_VEC_OBJ < SIZE_MODULUS.

(** One directive: [text] is appended, then the rest is rendered. *)
Lemma str_format_piece (rest' : list byte) (v : vec_obj_t) (str text : list byte)
    (ap' : list fmt_arg) (out : list byte) (h : heap) :
  renders_rest cap0 N rest' ->
  str_room cap0 v -> Forall arg_fits ap' ->
  strlen str <= VEC_INIT_CAPACITY -> cstr_bytes str = text ->
  option_map (app text) (render rest' ap') = Some out ->
  v.(count) + zlength out <= N -> no_failure h ->
  exists w h',
    (self <- on_handle (Some v) (fun v => str_append v str) ;;
     str_format_loop rest' self (size_add v.(count) (zlength text)) ap') h
    = Done (Some w, h')
    /\ no_failure h' /\ str_room cap0 w
    /\ str_bytes w = str_bytes v ++ out.
Proof.
  intros IH Hv Hap Hlen Htext Hr HN Hh.
  apply option_map_some in Hr. destruct Hr as (out' & Hr & ->).
  rewrite zlength_app in HN.
  pose proof (zlength_nonneg out') as Hnn'.
  pose proof (zlength_nonneg text) as Hnn.
  assert (Hz : zlength text = strlen str).
  { rewrite <- Htext. apply zlength_cstr_bytes. }
  assert (Hdbl : can_double v).
  { apply (str_room_can_double cap0 N); [exact Hv|lia|exact Hbig]. }
  destruct (str_append_room cap0 v str h Hv Hdbl Hlen Hh)
    as (w1 & h1 & E1 & Hh1 & Hw1 & Hc1 & Hb1).
  unfold bind. rewrite E1.
  destruct Hv as ([[_ Hc _ _ _] _] & _ & _).
  rewrite size_add_small by (unfold SIZE_MODULUS, SIZEOF_VEC_OBJ in *; lia).
  rewrite Hz, <- Hc1.
  destruct (IH w1 ap' out' h1 Hw1 Hap Hr ltac:(lia) Hh1)
    as (w & h' & E & Hh' & Hw & Hb).
  exists w, h'. split; [exact E|]. split; [exact Hh'|].
  split; [exact Hw|].
  rewrite Hb, Hb1, Htext, app_assoc. reflexivity.
Qed.

Lemma str_format_loop_renders (n : nat) :
  forall fmt, (length fmt <= n)%nat -> renders_rest cap0 N fmt.
Proof.
  induction n as [|n IH]; intros fmt Hlen.
  { destruct fmt; [|simpl in Hlen; lia].
    intros v ap out h Hv Hap Hr HN Hh. simpl in Hr. injection Hr as <-.
    exists v, h. simpl. rewrite app_nil_r. auto. }
  destruct fmt as [|c rest].
  { intros v ap out h Hv Hap Hr HN Hh. simpl in Hr. injection Hr as <-.
    exists v, h. simpl. rewrite app_nil_r. auto. }
  simpl in Hlen.
  intros v ap out h Hv Hap Hr HN Hh.
  destruct (Byte.eqb c percent) eqn:Ec.
  - (* a directive *)
    destruct rest as [|d rest'].
    { simpl in Hr. rewrite Ec in Hr. simpl in Hr. injection Hr as <-.
      exists v, h. simpl. rewrite Ec. simpl. rewrite app_nil_r. auto. }
    simpl in Hlen.
    assert (IH' : renders_rest cap0 N rest') by (apply IH; lia).
    rewrite str_format_loop_directive by exact Ec.
    rewrite render_directive in Hr by exact Ec.
    cbv zeta.
    destruct (Byte.eqb d "s"%byte).
    { destruct ap as [|[s|z|z|z|g] ap']; try discriminate Hr.
      inversion Hap as [|? ? Ha Hap']; subst. simpl in Ha.
      replace (strlen s) with (zlength (cstr_bytes s))
        by apply zlength_cstr_bytes.
      apply (str_format_piece rest' v s (cstr_bytes s)); auto. }
    destruct (Byte.eqb d "i"%byte).
    { destruct ap as [|[s|z|z|z|g] ap']; try discriminate Hr.
      inversion Hap as [|? ? _ Hap']; subst.
      destruct (arg_text_fits z) as (Ha & _ & _).
      destruct (fits_buf_text _ Ha) as [Ht Hl].
      apply (str_format_piece rest' v (snprintf_buf (decimal (int_value z)))
               (decimal (int_value z))); auto.
      rewrite Ha. unfold BUFSIZE, VEC_INIT_CAPACITY in *. lia. }
    destruct (Byte.eqb d "l"%byte).
    { destruct ap as [|[s|z|z|z|g] ap']; try discriminate Hr.
      inversion Hap as [|? ? _ Hap']; subst.
      destruct (arg_text_fits z) as (_ & Ha & _).
      destruct (fits_buf_text _ Ha) as [Ht Hl].
      apply (str_format_piece rest' v (snprintf_buf (decimal (long_long_value z)))
               (decimal (long_long_value z))); auto.
      rewrite Ha. unfold BUFSIZE, VEC_INIT_CAPACITY in *. lia. }
    destruct (Byte.eqb d "u"%byte).
    { destruct ap as [|[s|z|z|z|g] ap']; try discriminate Hr.
      inversion Hap as [|? ? _ Hap']; subst.
      destruct (arg_text_fits z) as (_ & _ & Ha).
      destruct (fits_buf_text _ Ha) as [Ht Hl].
      apply (str_format_piece rest' v (snprintf_buf (decimal (unsigned_long_long_value z)))
               (decimal (unsigned_long_long_value z))); auto.
      rewrite Ha. unfold BUFSIZE, VEC_INIT_CAPACITY in *. lia. }
    destruct (Byte.eqb d "f"%byte).
    { destruct ap as [|[s|z|z|z|g] ap']; try discriminate Hr.
      inversion Hap as [|? ? Ha Hap']; subst. simpl in Ha.
      destruct (fits_buf_text _ Ha) as [Ht Hl].
      apply (str_format_piece rest' v (snprintf_buf g) g); auto.
      rewrite Ha. unfold BUFSIZE, VEC_INIT_CAPACITY in *. lia. }
    change 3 with (zlength (bytes_of_string "???")).
    apply (str_format_piece rest' v (bytes_of_string "???")
             (bytes_of_string "???")); auto.
    by_computation.
  - (* a byte of the format *)
    assert (IH' : renders_rest cap0 N rest) by (apply IH; lia).
    rewrite str_format_loop_literal by exact Ec.
    rewrite render_literal in Hr by exact Ec.
    apply option_map_some in Hr. destruct Hr as (out' & Hr & ->).
    assert (Hzl : zlength (c :: out') = 1 + zlength out')
      by (unfold zlength; cbn [length]; lia).
    rewrite Hzl in HN.
    pose proof (zlength_nonneg out') as Hnn'.
    assert (Hdbl : can_double v).
    { apply (str_room_can_double cap0 N); [exact Hv|lia|exact Hbig]. }
    destruct (str_push_within cap0 v c (rest ++ [x00]) h Hv Hdbl Hh)
      as (s1 & h1 & w1 & h2 & E1 & E2 & Hh2 & Hw1 & Hc1 & Hb1).
    unfold bind. rewrite E1.
    change (cstr_mem (c :: rest)) with (c :: (rest ++ [x00])).
    rewrite E2.
    destruct Hv as ([[_ Hc _ _ _] _] & _ & _).
    rewrite size_add_small by (unfold SIZE_MODULUS, SIZEOF_VEC_OBJ in *; lia).
    rewrite <- Hc1.
    destruct (IH' w1 ap out' h2 Hw1 Hap Hr ltac:(lia) Hh2)
      as (w & h' & E & Hh' & Hw & Hb).
    exists w, h'. split; [exact E|]. split; [exact Hh'|].
    split; [exact Hw|].
    rewrite Hb, Hb1, <- app_assoc. reflexivity.
Qed.

End StrFormatLoop.

(** X17.  [str_format] with a format that is not empty replaces what the
    string held by the text the format stands for: the bytes of the format,
    with every directive replaced by its argument and an unknown directive
    by ["???"].  The arguments are of the kinds the directives ask for; an
    integer of any value is printed with the value it has at the type that
    [va_arg] reads; a string argument has at most [VEC_INIT_CAPACITY]
    bytes, the size of the staging buffer of [vec_copy], and the text of a
    double fits [buf].  The block of the result has room for a terminator
    behind the text, and its capacity is at most the larger of the old
    capacity and twice the length of the text plus two. *)
Theorem str_format_renders (self : vec_obj_t) (fmt : list byte)
    (ap : list fmt_arg) (out : list byte) (h : heap) :
  str_wf self -> 1 <= strlen fmt -> Forall arg_fits ap ->
  render (cstr_bytes fmt) ap = Some out ->
  2 * Z.max (vec_capacity self) (2 * (zlength out + 1)) + SIZEOF_VEC_OBJ
  < SIZE_MODULUS ->
  no_failure h ->
  exists w h',
    str_format self fmt ap h = Done (Some w, h')
    /\ str_wf w /\ str_length w = zlength out /\ str_bytes w = out
    /\ str_length w < vec_capacity w
    /\ vec_capacity w
       <= Z.max (vec_capacity self) (2 * (str_length w + 1)).
Proof.
  unfold vec_capacity, str_length, vec_count.
  intros Hself Hfmt Hap Hr Hbig Hh.
  pose proof Hself as [[Hu Hc Hcap Hd Hfit] H1].
  unfold VEC_INIT_CAPACITY in *.
  destruct (str_resize_keep_yields self 0 Hself ltac:(lia) ltac:(lia) h Hh)
    as (r & h0 & E0 & Hh0 & w0 & -> & Hw0 & Hc0 & Hcap0).
  assert (Hroom0 : str_room (capacity self) w0).
  { split; [exact Hw0|]. split; lia. }
  destruct (str_format_loop_renders (capacity self) (zlength out) Hbig
              (length (cstr_bytes fmt)) (cstr_bytes fmt) (Nat.le_refl _)
              w0 ap out h0 Hroom0 Hap Hr ltac:(lia) Hh0)
    as (w & h' & E & _ & (Hw & Hlt & Hle) & Hb).
  exists w, h'.
  assert (Eb : str_bytes w0 = []).
  { unfold str_bytes. rewrite Hc0. reflexivity. }
  rewrite Eb, app_nil_l in Hb.
  split; [|split; [exact Hw|split; [|split; [exact Hb|split;
    [exact Hlt|exact Hle]]]]].
  - unfold str_format. fold (cstr_bytes fmt).
    destruct (cstr_bytes fmt) as [|c rest] eqn:Ef.
    { pose proof (zlength_cstr_bytes fmt) as Hz. rewrite Ef in Hz.
      unfold zlength in Hz. simpl in Hz. lia. }
    unfold bind, str_clear. rewrite E0, <- Hc0. exact E.
  - rewrite <- Hb. symmetry. apply zlength_str_bytes. exact Hw.
Qed.

Lemma str_format_renders_witness :
  exists w h',
    str_format (mk_vec 1 128 0 (zeros 128)) (bytes_of_string "%s: %i|%u")
      [ArgStr (bytes_of_string "ciao"); ArgInt 2147483648; ArgULong (-1)] []
    = Done (Some w, h')
    /\ str_bytes w = bytes_of_string "ciao: -2147483648|18446744073709551615".
Proof.
  destruct (str_format_renders (mk_vec 1 128 0 (zeros 128))
              (bytes_of_string "%s: %i|%u")
              [ArgStr (bytes_of_string "ciao"); ArgInt 2147483648;
               ArgULong (-1)]
              (bytes_of_string "ciao: -2147483648|18446744073709551615") [])
    as (w & h' & E & _ & _ & Hb & _).
  - by_computation.
  - by_computation.
  - repeat constructor; by_computation.
  - reflexivity.
  - by_computation.
  - constructor.
  - exists w, h'. split; [exact E|exact Hb].
Defined.

(** ** Splitting *)

Lemma in_set_terminator (sep : list byte) : in_set sep x00 = false.
Proof.
  unfold in_set. pose proof (cstr_bytes_no_terminator sep) as H.
  induction H as [|c l Hc _ IH]; simpl; [reflexivity|].
  rewrite IH, orb_false_r. apply byte_eqb_false. congruence.
Qed.

Lemma count_while_run (f : byte -> bool) (a : list byte) (c : byte)
    (rest : list byte) :
  Forall (fun x => f x = true) a -> f c = false ->
  count_while f (a ++ c :: rest) = Done (zlength a).
Proof.
  intros Ha Hc. induction Ha as [|x a Hx _ IH]; simpl.
  - rewrite Hc. reflexivity.
  - rewrite Hx, IH. f_equal. unfold zlength. simpl length. lia.
Qed.

(** A list starts with a run of bytes that satisfy [f], which ends the list
    or is followed by a byte that does not. *)
Lemma run_split (f : byte -> bool) (l : list byte) :
  exists a b, l = a ++ b /\ Forall (fun x => f x = true) a
              /\ (b = [] \/ exists c b', b = c :: b' /\ f c = false).
Proof.
  induction l as [|x l (a & b & -> & Ha & Hb)].
  - exists [], []. auto.
  - destruct (f x) eqn:E.
    + exists (x :: a), b. auto.
    + exists [], (x :: a ++ b). split; [reflexivity|]. split; [constructor|].
      right. exists x, (a ++ b). auto.
Qed.

Lemma spec_split_separators (sep a t : list byte) :
  Forall (fun x => in_set sep x = true) a ->
  spec_split sep (a ++ t) [] = spec_split sep t [].
Proof.
  intros Ha. induction Ha as [|x a Hx _ IH]; simpl; [reflexivity|].
  rewrite Hx. exact IH.
Qed.

Lemma spec_split_run (sep a t cur : list byte) :
  Forall (fun x => in_set sep x = false) a ->
  spec_split sep (a ++ t) cur = spec_split sep t (cur ++ a).
Proof.
  intros Ha. revert cur. induction Ha as [|x a Hx _ IH]; intros cur; simpl.
  - rewrite app_nil_r. reflexivity.
  - rewrite Hx, IH, <- app_assoc. reflexivity.
Qed.

(** The first token of a text, and what is left behind the separator that
    ends it. *)
Lemma spec_split_first (sep text : list byte) :
  Forall (fun c => c <> x00) text ->
  spec_split sep text [] = []
  /\ (exists seps, text = seps
                   /\ Forall (fun x => in_set sep x = true) seps)
  \/ exists seps tok rest,
       Forall (fun x => in_set sep x = true) seps
       /\ Forall (fun x => in_set sep x = false) tok /\ tok <> []
       /\ ((text = seps ++ tok /\ rest = [])
           \/ exists c, text = seps ++ tok ++ c :: rest
                        /\ in_set sep c = true)
       /\ spec_split sep text [] = tok :: spec_split sep rest [].
Proof.
  intros Hnz.
  destruct (run_split (in_set sep) text) as (seps & b & -> & Hseps & Hb).
  rewrite spec_split_separators by exact Hseps.
  destruct Hb as [->|(c & b' & -> & Hc)].
  - left. rewrite app_nil_r. split; [reflexivity|]. exists seps. auto.
  - right.
    destruct (run_split (fun x => negb (in_set sep x)) b')
      as (run & b2 & -> & Hrun & Hb2).
    assert (Hrun' : Forall (fun x => in_set sep x = false) (c :: run)).
    { constructor; [exact Hc|].
      eapply Forall_impl; [|exact Hrun]. intros x Hx.
      simpl in Hx. apply negb_true_iff in Hx. exact Hx. }
    change (c :: run ++ b2) with ((c :: run) ++ b2).
    rewrite (spec_split_run sep (c :: run) b2 []) by exact Hrun'.
    rewrite app_nil_l.
    destruct Hb2 as [->|(c2 & b3 & -> & Hc2)].
    + exists seps, (c :: run), []. split; [exact Hseps|].
      split; [exact Hrun'|]. split; [discriminate|].
      split; [left; rewrite app_nil_r; auto|]. reflexivity.
    + exists seps, (c :: run), b3. split; [exact Hseps|].
      split; [exact Hrun'|]. split; [discriminate|].
      assert (Hin : in_set sep c2 = true)
        by (simpl in Hc2; apply negb_false_iff in Hc2; exact Hc2).
      split; [right; exists c2; auto|].
      simpl spec_split at 1. rewrite Hin. reflexivity.
Qed.

Lemma ptr_mem_app (pre r : list byte) : ptr_mem (pre ++ r) (zlength pre) = r.
Proof.
  unfold ptr_mem, zlength. rewrite Nat2Z.id.
  rewrite skipn_app, skipn_all, Nat.sub_diag. reflexivity.
Qed.

Lemma mem_get_app (pre : list byte) (c : byte) (r : list byte) :
  mem_get (pre ++ c :: r) (zlength pre) = Done c.
Proof.
  unfold mem_get, zlength.
  replace (0 <=? Z.of_nat (length pre)) with true
    by (symmetry; apply Z.leb_le; lia).
  rewrite Nat2Z.id, nth_error_app2, Nat.sub_diag by lia. reflexivity.
Qed.

Lemma mem_write_app (pre : list byte) (c b : byte) (r : list byte) :
  mem_write (pre ++ c :: r) (zlength pre) [b] = Done (pre ++ b :: r).
Proof.
  rewrite mem_write_ok.
  - unfold zlength. rewrite Nat2Z.id. f_equal.
    rewrite firstn_app, firstn_all, Nat.sub_diag. simpl firstn.
    rewrite app_nil_r. f_equal.
    rewrite skipn_app.
    rewrite skipn_all2 by (simpl length; lia).
    replace (length pre + length [b] - length pre)%nat with 1%nat
      by (simpl length; lia).
    reflexivity.
  - apply zlength_nonneg.
  - rewrite !zlength_app. unfold zlength. simpl length. lia.
Qed.

Lemma cstring_at_app (pre text tail : list byte) :
  Forall (fun c => c <> x00) text ->
  cstring_at (pre ++ text ++ x00 :: tail) (zlength pre) text.
Proof.
  intros Hnz. split; [apply zlength_nonneg|]. split; [exact Hnz|].
  exists tail. apply ptr_mem_app.
Qed.

Lemma cstring_at_inv (m : list byte) (s : Z) (text : list byte) :
  cstring_at m s text ->
  exists pre tail, m = pre ++ text ++ x00 :: tail /\ zlength pre = s.
Proof.
  intros (Hs & _ & tail & E).
  exists (firstn (Z.to_nat s) m), tail. split.
  - rewrite <- E. symmetry. apply firstn_skipn.
  - unfold zlength. rewrite length_firstn_le; [lia|].
    destruct (Nat.le_gt_cases (Z.to_nat s) (length m)) as [H|H]; [exact H|].
    rewrite skipn_all2 in E by lia. destruct text; discriminate E.
Qed.

Lemma cut_at_separators_refl (sep m : list byte) : cut_at_separators sep m m.
Proof. split; [reflexivity|]. intros i. left. reflexivity. Qed.

Lemma cut_at_separators_trans (sep m1 m2 m3 : list byte) :
  cut_at_separators sep m1 m2 -> cut_at_separators sep m2 m3 ->
  cut_at_separators sep m1 m3.
Proof.
  intros [L12 H12] [L23 H23]. split; [congruence|].
  intros i. destruct (H23 i) as [E|[E Hin]].
  - rewrite E. apply H12.
  - destruct (H12 i) as [E'|[E' Hin']].
    + right. rewrite <- E'. auto.
    + rewrite E' in Hin. rewrite in_set_terminator in Hin. discriminate.
Qed.

Lemma cut_at_separators_write (sep pre : list byte) (c : byte)
    (r : list byte) :
  in_set sep c = true ->
  cut_at_separators sep (pre ++ c :: r) (pre ++ x00 :: r).
Proof.
  intros Hc. split; [rewrite !length_app; reflexivity|].
  intros i.
  destruct (Nat.lt_ge_cases i (length pre)) as [Hlt|Hge].
  - left. rewrite !app_nth1 by exact Hlt. reflexivity.
  - rewrite !app_nth2 by exact Hge.
    destruct (i - length pre)%nat as [|k]; simpl; [right|left]; auto.
Qed.

Lemma ptr_mem_at (m pre r : list byte) :
  m = pre ++ r -> ptr_mem m (zlength pre) = r.
Proof. intros ->. apply ptr_mem_app. Qed.

Lemma mem_get_at (m pre : list byte) (c : byte) (r : list byte) :
  m = pre ++ c :: r -> mem_get m (zlength pre) = Done c.
Proof. intros ->. apply mem_get_app. Qed.

(** Both sides are the same list, up to the nesting of [++]. *)
Ltac same_list := repeat rewrite <- app_assoc; cbn [app]; reflexivity.

(** The scans of [strtok] over separators, a token and the byte [stop]
    that ends it. *)
Lemma strtok_scans (sep pre seps : list byte) (t0 : byte)
    (tok' : list byte) (stop : byte) (after : list byte) (h : heap) :
  Forall (fun c => c <> x00) (seps ++ t0 :: tok') ->
  Forall (fun x => in_set sep x = true) seps ->
  Forall (fun x => in_set sep x = false) (t0 :: tok') ->
  stop = x00 \/ in_set sep stop = true ->
  let m := pre ++ seps ++ (t0 :: tok') ++ stop :: after in
  let s := zlength (pre ++ seps) in
  let e := zlength ((pre ++ seps) ++ t0 :: tok') in
  strtok m (zlength pre) sep h
  = (if Byte.eqb stop x00 then Done ((Some s, m, e), h)
     else Done ((Some s, ((pre ++ seps) ++ t0 :: tok') ++ x00 :: after,
                 e + 1), h)).
Proof.
  intros Hnz Hseps Htok Hstop m s e.
  set (f := fun c => negb (Byte.eqb c x00) && in_set sep c).
  set (g := fun c => negb (Byte.eqb c x00) && negb (in_set sep c)).
  assert (Hnz' : forall c, c <> x00 -> negb (Byte.eqb c x00) = true).
  { intros c Hc. apply negb_true_iff, byte_eqb_false. exact Hc. }
  apply Forall_app in Hnz. destruct Hnz as [Hnz_seps Hnz_tok].
  assert (Hf_seps : Forall (fun x => f x = true) seps).
  { rewrite Forall_forall in *. intros x Hx. unfold f.
    rewrite Hnz' by (apply Hnz_seps; exact Hx). apply Hseps. exact Hx. }
  assert (Hg_tok : Forall (fun x => g x = true) (t0 :: tok')).
  { rewrite Forall_forall in *. intros x Hx. unfold g.
    rewrite Hnz' by (apply Hnz_tok; exact Hx).
    rewrite (Htok x Hx). reflexivity. }
  assert (Hft0 : f t0 = false).
  { unfold f. inversion Htok as [|? ? Ht0 _]; subst. rewrite Ht0.
    apply andb_false_r. }
  assert (Et0 : Byte.eqb t0 x00 = false).
  { apply byte_eqb_false. inversion Hnz_tok; assumption. }
  assert (Hgs : g stop = false).
  { unfold g. destruct Hstop as [->|Hin]; [reflexivity|].
    rewrite Hin. apply andb_false_r. }
  assert (E1 : strspn (ptr_mem m (zlength pre)) sep = Done (zlength seps)).
  { rewrite (ptr_mem_at m pre (seps ++ t0 :: (tok' ++ stop :: after)))
      by (unfold m; same_list).
    unfold strspn. fold f. apply count_while_run; assumption. }
  assert (Es : zlength pre + zlength seps = s)
    by (unfold s; rewrite zlength_app; reflexivity).
  assert (E2 : mem_get m s = Done t0).
  { apply (mem_get_at m (pre ++ seps) t0 (tok' ++ stop :: after)).
    unfold m. same_list. }
  assert (E3 : strcspn (ptr_mem m s) sep = Done (zlength (t0 :: tok'))).
  { unfold s.
    rewrite (ptr_mem_at m (pre ++ seps) ((t0 :: tok') ++ stop :: after))
      by (unfold m; same_list).
    unfold strcspn. fold g. apply count_while_run; assumption. }
  assert (Ee : s + zlength (t0 :: tok') = e)
    by (unfold s, e; rewrite (zlength_app (pre ++ seps)); reflexivity).
  assert (Em : m = ((pre ++ seps) ++ t0 :: tok') ++ stop :: after)
    by (unfold m; same_list).
  assert (E4 : mem_get m e = Done stop).
  { apply (mem_get_at m ((pre ++ seps) ++ t0 :: tok') stop after). exact Em. }
  unfold strtok, bind, lift.
  rewrite E1, Es, E2, Et0, E3, Ee, E4.
  destruct (Byte.eqb stop x00); [reflexivity|].
  unfold e. rewrite Em at 1. rewrite mem_write_app. reflexivity.
Qed.

(** One call of [strtok] on a block that holds the C string [text] at the
    offset where the scan starts. *)
Lemma strtok_spec (sep pre text tail : list byte) (h : heap) :
  Forall (fun c => c <> x00) text ->
  exists token m' save,
    strtok (pre ++ text ++ x00 :: tail) (zlength pre) sep h
    = Done ((token, m', save), h)
    /\ cut_at_separators sep (pre ++ text ++ x00 :: tail) m'
    /\ ((token = None /\ spec_split sep text [] = [])
        \/ exists s' tok rest,
             token = Some s' /\ cstring_at m' s' tok /\ tok <> []
             /\ cstring_at m' save rest
             /\ spec_split sep text [] = tok :: spec_split sep rest []
             /\ (length rest < length text)%nat).
Proof.
  intros Hnz.
  destruct (spec_split_first sep text Hnz)
    as [(Hspec & seps & -> & Hseps)
       |(seps & tok & rest & Hseps & Htok & Hne & Hcase & Hspec)].
  - (* nothing but separators *)
    exists None, (pre ++ seps ++ x00 :: tail), (zlength pre + zlength seps).
    split; [|split; [apply cut_at_separators_refl|left; auto]].
    assert (Hf : Forall (fun x => negb (Byte.eqb x x00) && in_set sep x = true)
                   seps).
    { rewrite Forall_forall in *. intros x Hx.
      rewrite (Hseps x Hx), andb_true_r.
      apply negb_true_iff, byte_eqb_false. apply Hnz. exact Hx. }
    unfold strtok, strspn, bind, lift. rewrite ptr_mem_app.
    rewrite count_while_run; [|exact Hf|reflexivity].
    rewrite app_assoc, <- zlength_app, mem_get_app. reflexivity.
  - (* a token *)
    destruct tok as [|t0 tok']; [contradiction|].
    destruct Hcase as [[-> ->]|(c & -> & Hc)].
    + (* the token ends the text *)
      pose proof (strtok_scans sep pre seps t0 tok' x00 tail h Hnz Hseps Htok
                    (or_introl eq_refl)) as E.
      cbv zeta in E. simpl Byte.eqb in E. cbv iota in E.
      replace (pre ++ (seps ++ t0 :: tok') ++ x00 :: tail)
        with (pre ++ seps ++ (t0 :: tok') ++ x00 :: tail) by same_list.
      rewrite E.
      eexists _, _, _. split; [reflexivity|].
      split; [apply cut_at_separators_refl|right].
      exists (zlength (pre ++ seps)), (t0 :: tok'), [].
      apply Forall_app in Hnz. destruct Hnz as [_ Hnz_tok].
      split; [reflexivity|]. split.
      { replace (pre ++ seps ++ (t0 :: tok') ++ x00 :: tail)
          with ((pre ++ seps) ++ (t0 :: tok') ++ x00 :: tail) by same_list.
        apply cstring_at_app. exact Hnz_tok. }
      split; [discriminate|]. split.
      { replace (pre ++ seps ++ (t0 :: tok') ++ x00 :: tail)
          with (((pre ++ seps) ++ t0 :: tok') ++ [] ++ x00 :: tail)
          by same_list.
        apply cstring_at_app. constructor. }
      split; [exact Hspec|].
      rewrite length_app. simpl length. lia.
    + (* a separator ends the token *)
      assert (Ec : Byte.eqb c x00 = false).
      { apply byte_eqb_false. intros ->.
        rewrite in_set_terminator in Hc. discriminate. }
      assert (Hnz1 : Forall (fun c => c <> x00) (seps ++ t0 :: tok')
                     /\ Forall (fun c => c <> x00) rest).
      { apply Forall_app in Hnz. destruct Hnz as [H1 H2].
        apply Forall_app in H2. destruct H2 as [H2 H3].
        split; [apply Forall_app; auto|]. inversion H3; assumption. }
      destruct Hnz1 as [Hnz1 Hrest].
      pose proof (strtok_scans sep pre seps t0 tok' c (rest ++ x00 :: tail) h
                    Hnz1 Hseps Htok (or_intror Hc)) as E.
      cbv zeta in E. rewrite Ec in E.
      replace (pre ++ (seps ++ (t0 :: tok') ++ c :: rest) ++ x00 :: tail)
        with (pre ++ seps ++ (t0 :: tok') ++ c :: rest ++ x00 :: tail)
        by same_list.
      rewrite E.
      eexists _, _, _. split; [reflexivity|].
      split.
      { replace (pre ++ seps ++ (t0 :: tok') ++ c :: rest ++ x00 :: tail)
          with (((pre ++ seps) ++ t0 :: tok') ++ c :: rest ++ x00 :: tail)
          by same_list.
        apply cut_at_separators_write. exact Hc. }
      right. exists (zlength (pre ++ seps)), (t0 :: tok'), rest.
      apply Forall_app in Hnz1. destruct Hnz1 as [_ Hnz_tok].
      split; [reflexivity|]. split.
      { replace (((pre ++ seps) ++ t0 :: tok') ++ x00 :: rest ++ x00 :: tail)
          with ((pre ++ seps) ++ (t0 :: tok') ++ x00 :: rest ++ x00 :: tail)
          by same_list.
        apply cstring_at_app. exact Hnz_tok. }
      split; [discriminate|]. split.
      { replace (zlength ((pre ++ seps) ++ t0 :: tok') + 1)
          with (zlength (((pre ++ seps) ++ t0 :: tok') ++ [x00]))
          by (rewrite (zlength_app _ [x00]); reflexivity).
        replace (((pre ++ seps) ++ t0 :: tok') ++ x00 :: rest ++ x00 :: tail)
          with ((((pre ++ seps) ++ t0 :: tok') ++ [x00])
                ++ rest ++ x00 :: tail) by same_list.
        apply cstring_at_app. exact Hrest. }
      split; [exact Hspec|].
      rewrite !length_app. simpl length. lia.
Qed.

Lemma strlen_nat_text (text tail : list byte) :
  Forall (fun c => c <> x00) text ->
  strlen_nat (text ++ x00 :: tail) = length text.
Proof.
  intros H. induction H as [|c text Hc _ IH]; simpl; [reflexivity|].
  replace (Byte.eqb c x00) with false
    by (symmetry; apply byte_eqb_false; exact Hc).
  rewrite IH. reflexivity.
Qed.

Lemma cstring_at_read (m : list byte) (s : Z) (text : list byte) :
  cstring_at m s text ->
  strlen (ptr_mem m s) = zlength text /\ cstr_bytes (ptr_mem m s) = text.
Proof.
  intros (_ & Hnz & tail & E). unfold ptr_mem, strlen, cstr_bytes, zlength.
  rewrite E, strlen_nat_text by exact Hnz.
  split; [reflexivity|].
  rewrite firstn_app_l by lia. apply firstn_all.
Qed.

Lemma mem_write_slot (v : vec_obj_t) (k x : Z) :
  index_wf v -> 0 <= k < v.(capacity) ->
  mem_write v.(data) (8 * k) (encode_size x) = Done (set_slot v k x).(data).
Proof.
  intros [[Hu Hc Hcap Hd Hfit] H8] Hk.
  unfold SIZEOF_SIZE_T in H8. rewrite H8 in Hd. unfold zlength in Hd.
  rewrite mem_write_ok;
    [|lia|unfold zlength; rewrite length_encode_size; lia].
  unfold set_slot, set_data. cbn [data]. rewrite length_encode_size.
  replace (Z.to_nat (8 * (k + 1))) with (Z.to_nat (8 * k) + 8)%nat by lia.
  reflexivity.
Qed.

Lemma ptrs_upto_snoc (n : nat) :
  ptrs_upto (S n) = ptrs_upto n ++ [Z.of_nat n + 1].
Proof.
  unfold ptrs_upto. rewrite seq_S, map_app. simpl. do 2 f_equal. lia.
Qed.

Lemma zlength_ptrs_upto (n : nat) : zlength (ptrs_upto n) = Z.of_nat n.
Proof. unfold zlength, ptrs_upto. rewrite length_map, length_seq. lia. Qed.

Section StrSplitLoop.
Variables (sep : list byte) (N : Z).
Hypothesis Hroom : 32 * N + 4096 < SIZE_MODULUS.

Lemma str_split_loop_spec (fuel : nat) :
  forall m tok save vec_str store tk r h,
    cstring_at m tok tk -> cstring_at m save r ->
    Forall (fun t => zlength t <= VEC_INIT_CAPACITY)
      (tk :: spec_split sep r []) ->
    index_wf vec_str -> holds_items vec_str (ptrs_upto (length store)) ->
    vec_str.(capacity) <= Z.max VEC_INIT_CAPACITY (2 * vec_str.(count)) ->
    Forall str_wf store ->
    vec_str.(count) + zlength r + 1 <= N ->
    (length r + 2 <= fuel)%nat ->
    no_failure h ->
    exists vec_str' store' m' h',
      str_split_loop fuel sep m (Some tok) save vec_str store h
      = Done ((Some (vec_str', store'), m'), h')
      /\ index_wf vec_str'
      /\ holds_items vec_str' (ptrs_upto (length store'))
      /\ map str_bytes store'
         = map str_bytes store ++ tk :: spec_split sep r []
      /\ Forall str_wf store'
      /\ cut_at_separators sep m m'.
Proof.
  induction fuel as [|fuel IH];
    intros m tok save vec_str store tk r h Htk Hr Hsmall Hvec Hitems Hcap
      Hstore HN Hfuel Hh; [lia|].
  pose proof Hvec as [[Hu Hc Hcp Hd Hfit] H8].
  pose proof Hitems as [Hcount _]. rewrite zlength_ptrs_upto in Hcount.
  pose proof (zlength_nonneg r) as Hrn.
  unfold SIZEOF_SIZE_T, VEC_INIT_CAPACITY in *.
  assert (Hdbl : can_double vec_str).
  { unfold can_double, SIZEOF_VEC_OBJ, SIZE_MODULUS in *. rewrite H8. lia. }
  cbn [str_split_loop].
  destruct (vec_extend_index vec_str Hvec Hdbl h Hh)
    as (r1 & h1 & E1 & Hh1 & v1 & -> & Hv1 & Hc1 & Hslots1 & Hcap1).
  unfold bind at 1. rewrite E1.
  (* the copy of the token *)
  destruct (cstring_at_read m tok tk Htk) as [Hlen_tk Hbytes_tk].
  apply Forall_cons_iff in Hsmall.
  destruct Hsmall as [Htk_small Hrest_small].
  destruct (str_new_within (ptr_mem m tok) h1 Hh1)
    as (w & h2 & E2 & Hh2 & Hw & Hcw & Hbw & _).
  { rewrite Hlen_tk. exact Htk_small. }
  unfold bind at 1. rewrite E2.
  cbn [str_ptr].
  (* the pointer *)
  pose proof Hv1 as [[_ Hcv1 _ _ _] _].
  unfold vec_count. rewrite Hc1.
  rewrite size_sub_small by (unfold SIZE_MODULUS in *; lia).
  unfold SIZEOF_PTR.
  rewrite size_mul_small by (unfold SIZE_MODULUS in *; lia).
  replace ((count vec_str + 1 - 1) * 8) with (8 * count vec_str) by lia.
  unfold bind at 1, lift at 1.
  rewrite (mem_write_slot v1 (count vec_str) (zlength store + 1) Hv1)
    by lia.
  change (set_data v1 (data (set_slot v1 (count vec_str) (zlength store + 1))))
    with (set_slot v1 (count vec_str) (zlength store + 1)).
  set (v2 := set_slot v1 (count vec_str) (zlength store + 1)).
  assert (Hv2 : index_wf v2) by (apply set_slot_wf; [exact Hv1|lia]).
  assert (Hitems2 : holds_items v2 (ptrs_upto (length (store ++ [w])))).
  { rewrite length_app. simpl length.
    replace (length store + 1)%nat with (S (length store)) by lia.
    rewrite ptrs_upto_snoc. unfold zlength.
    apply (holds_items_snoc vec_str v1); try assumption.
    unfold zlength in *. unfold SIZE_MODULUS in *. lia. }
  assert (Hc2 : count v2 = count vec_str + 1) by exact Hc1.
  assert (Hcap2 : capacity v2 <= Z.max 128 (2 * count v2)).
  { change (capacity v2) with (capacity v1). rewrite Hc2. lia. }
  assert (Hstore2 : Forall str_wf (store ++ [w])).
  { apply Forall_app. split; [exact Hstore|]. constructor; [exact Hw|].
    constructor. }
  (* the next token *)
  destruct (cstring_at_inv m save r Hr) as (pre & tail & -> & <-).
  destruct Hr as (_ & Hnz & _).
  destruct (strtok_spec sep pre r tail h2 Hnz)
    as (token & m' & save' & E3 & Hcut & Hcase).
  unfold bind at 1. rewrite E3.
  destruct Hcase as [[-> Hspec]
                    |(s' & tk' & r' & -> & Htk' & _ & Hr' & Hspec & Hshort)].
  - (* no further token *)
    destruct fuel as [|fuel]; [lia|]. cbn [str_split_loop]. unfold ret.
    exists v2, (store ++ [w]), m', h2.
    split; [reflexivity|]. split; [exact Hv2|]. split; [exact Hitems2|].
    split; [|split; [exact Hstore2|exact Hcut]].
    rewrite map_app, Hspec. simpl. rewrite Hbw, Hbytes_tk. reflexivity.
  - rewrite Hspec in Hrest_small.
    destruct (IH m' s' save' v2 (store ++ [w]) tk' r' h2)
      as (v3 & store3 & m3 & h3 & E4 & Hv3 & Hitems3 & Hmap3 & Hstore3
          & Hcut3); try assumption.
    + unfold zlength in *. lia.
    + lia.
    + exists v3, store3, m3, h3.
      split; [exact E4|]. split; [exact Hv3|]. split; [exact Hitems3|].
      split; [|split; [exact Hstore3|]].
      * rewrite Hmap3, map_app, Hspec. simpl.
        rewrite Hbw, Hbytes_tk, <- app_assoc. reflexivity.
      * apply (cut_at_separators_trans sep _ m'); assumption.
Qed.

End StrSplitLoop.

Lemma cstr_bytes_split (d : list byte) :
  strlen d < zlength d -> exists tail, d = cstr_bytes d ++ x00 :: tail.
Proof.
  unfold strlen, zlength, cstr_bytes.
  induction d as [|c d IH]; simpl; [lia|].
  destruct (Byte.eqb c x00) eqn:E.
  - intros _. apply byte_eqb_true in E. subst c. exists d. reflexivity.
  - intros H. destruct IH as [tail Ht]; [lia|].
    exists tail. simpl. f_equal. exact Ht.
Qed.

Lemma cstr_bytes_of_str (self : vec_obj_t) :
  str_wf self -> terminated self ->
  Forall (fun c => c <> x00) (str_bytes self) ->
  cstr_bytes self.(data) = str_bytes self
  /\ strlen self.(data) < zlength self.(data).
Proof.
  intros Hself Hterm Hnz.
  pose proof (zlength_str_bytes self Hself) as Hz. unfold zlength in Hz.
  pose proof Hself as [[_ Hc _ _ _] _].
  unfold terminated, mem_get in Hterm.
  replace (0 <=? count self) with true in Hterm
    by (symmetry; apply Z.leb_le; lia).
  destruct (nth_error (data self) (Z.to_nat (count self))) as [b|] eqn:En;
    [|discriminate].
  injection Hterm as ->.
  apply nth_error_split in En. destruct En as (l1 & l2 & Ed & Hl1).
  assert (Eb : str_bytes self = l1).
  { unfold str_bytes. rewrite Ed, <- Hl1.
    rewrite firstn_app_l by lia. apply firstn_all. }
  rewrite Eb in Hnz.
  unfold cstr_bytes, strlen, zlength. rewrite Ed.
  rewrite strlen_nat_text by exact Hnz.
  split.
  - rewrite firstn_app_l by lia. rewrite firstn_all. symmetry. exact Eb.
  - rewrite length_app. simpl length. lia.
Qed.

(** X18.  [str_split] cuts the C string in the block of [self] into its
    tokens, the longest runs of bytes that are not in [sep]: the vector it
    returns points, in order, to one new string for every token, which holds
    the bytes of that token.  The block of [self] is written to: [strtok]
    puts a terminator over the separator behind each token; nothing else of
    [self] changes.  For a terminated string without a zero byte the C
    string is what the string holds. *)
Theorem str_split_gives_the_tokens (self : vec_obj_t) (sep : list byte)
    (h : heap) :
  strlen self.(data) < zlength self.(data) ->
  Forall (fun t => zlength t <= VEC_INIT_CAPACITY)
    (spec_split sep (cstr_bytes self.(data)) []) ->
  32 * zlength self.(data) + 4096 < SIZE_MODULUS ->
  no_failure h ->
  (exists list strs self' h',
     str_split self sep h = Done ((Some (list, strs), self'), h')
     /\ index_wf list
     /\ index_items list = ptrs_upto (length strs)
     /\ map str_bytes strs = spec_split sep (cstr_bytes self.(data)) []
     /\ Forall str_wf strs
     /\ same_header self self'
     /\ cut_at_separators sep self.(data) self'.(data))
  /\ (str_wf self -> terminated self ->
      Forall (fun c => c <> x00) (str_bytes self) ->
      cstr_bytes self.(data) = str_bytes self).
Proof.
  intros Hnul Hsmall Hroom Hh.
  split; [|intros Hself Hterm Hnz;
           apply (cstr_bytes_of_str self Hself Hterm Hnz)].
  destruct (cstr_bytes_split (data self) Hnul) as [tail Ed].
  set (text := cstr_bytes (data self)) in *.
  assert (Hnz : Forall (fun c => c <> x00) text)
    by apply cstr_bytes_no_terminator.
  assert (Hlen : zlength (data self) = zlength text + 1 + zlength tail).
  { rewrite Ed at 1. rewrite zlength_app. unfold zlength. simpl length. lia. }
  pose proof (zlength_nonneg text) as Htn.
  pose proof (zlength_nonneg tail) as Htl.
  set (fresh := mk_vec SIZEOF_SIZE_T VEC_INIT_CAPACITY 0
                  (zeros (VEC_INIT_CAPACITY * SIZEOF_SIZE_T))).
  assert (Hfresh : index_wf fresh) by (apply fresh_index_wf; by_computation).
  assert (Hempty : holds_items fresh (ptrs_upto 0)).
  { split; [reflexivity|]. intros k Hk. unfold zlength in Hk. simpl in Hk. lia. }
  unfold str_split, vec_new, bind at 1.
  change SIZEOF_PTR with SIZEOF_SIZE_T.
  rewrite vec_new_len_ok by (try by_computation; exact Hh). fold fresh.
  assert (Hh1 : no_failure (tl h)) by (apply no_failure_tl; exact Hh).
  pose proof (strtok_spec sep [] text tail (tl h) Hnz) as Htok.
  cbn [app] in Htok. rewrite <- Ed in Htok.
  change (zlength (@nil byte)) with 0 in Htok.
  destruct Htok as (token & m' & save & E1 & Hcut & Hcase).
  unfold bind at 1. rewrite E1.
  destruct Hcase as [[-> Hspec]
                    |(s' & tk & r & -> & Htk & _ & Hr & Hspec & Hshort)].
  - (* no token at all *)
    replace (length (data self) + 1)%nat with (S (length (data self)))
      by lia.
    cbn [str_split_loop]. unfold bind, ret.
    exists fresh, [], (set_data self m'), (tl h).
    split; [reflexivity|]. split; [exact Hfresh|].
    split; [reflexivity|]. split; [symmetry; exact Hspec|].
    split; [constructor|]. split; [repeat split|exact Hcut].
  - rewrite Hspec in Hsmall.
    destruct (str_split_loop_spec sep (zlength (data self)) Hroom
                (length (data self) + 1) m' s' save fresh [] tk r (tl h))
      as (list & strs & m2 & h2 & E2 & Hlist & Hitems & Hmap & Hstrs & Hcut2);
      try assumption.
    + reflexivity.
    + constructor.
    + cbn [count fresh]. unfold zlength in *. lia.
    + unfold zlength in *. lia.
    + unfold bind, ret. rewrite E2.
      exists list, strs, (set_data self m2), h2.
      split; [reflexivity|]. split; [exact Hlist|].
      split.
      { apply index_items_holds; [|exact Hitems].
        destruct Hlist as [[_ Hc _ _ _] _]. lia. }
      split; [rewrite Hmap, Hspec; reflexivity|].
      split; [exact Hstrs|]. split; [repeat split|].
      apply (cut_at_separators_trans sep _ m'); assumption.
Qed.

Lemma str_split_gives_the_tokens_witness :
  exists list strs self' h',
    str_split (mk_vec 1 128 20 (bytes_of_string "hi this is a message"
                                ++ zeros 108))
      (bytes_of_string " ") [] = Done ((Some (list, strs), self'), h')
    /\ index_items list = ptrs_upto (length strs)
    /\ map str_bytes strs
       = [bytes_of_string "hi"; bytes_of_string "this"; bytes_of_string "is";
          bytes_of_string "a"; bytes_of_string "message"].
Proof.
  destruct (str_split_gives_the_tokens
              (mk_vec 1 128 20 (bytes_of_string "hi this is a message"
                                ++ zeros 108))
              (bytes_of_string " ") [])
    as [(list & strs & self' & h' & E & _ & Hi & Hm & _) _].
  - by_computation.
  - repeat constructor; by_computation.
  - by_computation.
  - constructor.
  - exists list, strs, self', h'. split; [exact E|]. split; [exact Hi|exact Hm].
Defined.





(** ** Operations in a row *)

(** X20.  [str_range] over the place where [str_insert] has put a text
    gives back that text, in a new terminated string.  The insertion is
    within the limits of [str_insert]: the text and the bytes behind [pos]
    have at most [VEC_INIT_CAPACITY] bytes each, the size of the staging
    buffer of [vec_copy], and the length of the result is below twice the
    capacity. *)
Theorem str_range_after_str_insert (self : vec_obj_t) (pos : Z)
    (str : list byte) (h : heap) :
  str_wf self -> can_double self -> 0 <= pos <= str_length self ->
  strlen str <= VEC_INIT_CAPACITY ->
  str_length self - pos <= VEC_INIT_CAPACITY ->
  str_length self + strlen str < 2 * vec_capacity self ->
  no_failure h ->
  exists w h1 r h2,
    str_insert self pos str h = Done (Some w, h1)
    /\ str_range w pos (pos + strlen str) h1 = Done (Some r, h2)
    /\ str_bytes r = cstr_bytes str
    /\ terminated r.
Proof.
  unfold str_length, vec_count, vec_capacity.
  intros Hself Hdbl Hpos Hlen Htail Hroom Hh.
  pose proof (strlen_nonneg str) as Hnn.
  destruct (str_insert_within self pos str h Hself Hdbl Hpos Hlen Htail
              Hroom Hh)
    as (w & h1 & E1 & Hh1 & Hw & Hcw & _ & _ & _ & Hbw).
  assert (Hlo : Z.min (Z.min pos (pos + strlen str)) (str_length w) = pos)
    by (unfold str_length, vec_count; lia).
  assert (Hhi : Z.min (Z.max pos (pos + strlen str)) (str_length w)
                = pos + strlen str)
    by (unfold str_length, vec_count; lia).
  destruct (str_range_within w pos (pos + strlen str) h1 Hw)
    as (r & h2 & E2 & _ & Ht & _ & Hb); try lia; try assumption.
  exists w, h1, r, h2.
  split; [exact E1|]. split; [exact E2|]. split; [|exact Ht].
  rewrite Hb, Hlo, Hhi, Hbw.
  replace (pos + strlen str - pos) with (strlen str) by lia.
  pose proof (zlength_str_bytes self Hself) as Hz. unfold zlength in Hz.
  rewrite skipn_app, skipn_all2 by (rewrite length_firstn; lia).
  rewrite length_firstn_le, Nat.sub_diag, app_nil_l by lia.
  simpl skipn. rewrite <- length_cstr_bytes.
  rewrite firstn_app_l by lia. apply firstn_all.
Qed.

Lemma str_range_after_str_insert_witness :
  exists w h1 r h2,
    str_insert (mk_vec 1 128 4 (bytes_of_string "ciao" ++ zeros 124)) 2
      (bytes_of_string "mondo") [] = Done (Some w, h1)
    /\ str_range w 2 (2 + strlen (bytes_of_string "mondo")) h1
       = Done (Some r, h2)
    /\ str_bytes r = cstr_bytes (bytes_of_string "mondo").
Proof.
  destruct (str_range_after_str_insert
              (mk_vec 1 128 4 (bytes_of_string "ciao" ++ zeros 124)) 2
              (bytes_of_string "mondo") [])
    as (w & h1 & r & h2 & E1 & E2 & Hb & _).
  - by_computation.
  - by_computation.
  - by_computation.
  - by_computation.
  - by_computation.
  - by_computation.
  - constructor.
  - exists w, h1, r, h2. split; [exact E1|]. split; [exact E2|exact Hb].
Defined.

Lemma same_header_trans (a b c : vec_obj_t) :
  same_header a b -> same_header b c -> same_header a c.
Proof.
  intros (H1 & H2 & H3) (H4 & H5 & H6). repeat split; congruence.
Qed.

Lemma write_new_keeps (self : vec_obj_t) (index len_new : Z)
    (new_str : list byte) (h : heap) (w : vec_obj_t) (h' : heap) :
  str_wf self ->
  write_new self index len_new new_str h = Done (w, h') ->
  str_wf w /\ same_header self w /\ (terminated self -> terminated w).
Proof.
  intros Hself E. unfold write_new, for_loop in E.
  apply (for_range_invariant _
           (fun s => str_wf s /\ same_header self s
                     /\ (terminated self -> terminated s))
           _) in E; [exact E| |].
  - intros i s h0 s' h0' (Hs & Hsame & Ht) Es. unfold vec_set in Es.
    destruct (vec_copy_keeps_terminator s (size_add index i)
                (ptr_mem (cstr_mem new_str) i) 1 h0 s' h0' Hs)
      as (Hs' & Hsame' & Ht'); [apply wrap_range|lia|exact Es|].
    split; [exact Hs'|].
    split; [apply (same_header_trans self s s'); assumption|auto].
  - split; [exact Hself|]. split; [repeat split|auto].
Qed.

Lemma str_replace_loop_keeps (k : nat) :
  forall i self pos pos_count len_old len_new new_str cnt h w h',
    str_wf self ->
    str_replace_loop k i self pos pos_count len_old len_new 0 new_str cnt h
    = Done (Some w, h') ->
    str_wf w /\ same_header self w /\ (terminated self -> terminated w).
Proof.
  induction k as [|k IH];
    intros i self pos pos_count len_old len_new new_str cnt h w h' Hself E.
  - injection E as <- _. split; [exact Hself|]. split; [repeat split|auto].
  - cbn [str_replace_loop] in E.
    destruct (i >=? size_of_int cnt).
    { injection E as <- _. split; [exact Hself|]. split; [repeat split|auto]. }
    unfold bind at 1, lift in E.
    destruct (vec_get pos i) as [item|]; [|discriminate].
    change (negb (0 =? 0)) with false in E. cbv iota in E.
    unfold bind at 1 in E.
    destruct (write_new self (decode_size item) len_new new_str h)
      as [[s1 h1]|] eqn:Ew; [|discriminate].
    destruct (write_new_keeps _ _ _ _ _ _ _ Hself Ew) as (Hs1 & Hsame1 & Ht1).
    destruct (IH _ _ _ _ _ _ _ _ _ _ _ Hs1 E) as (Hw & Hsame & Ht).
    split; [exact Hw|].
    split; [apply (same_header_trans self s1 w); assumption|auto].
Qed.

(** X21.  For an [old_str] of at least one byte that is not longer than the
    string and has at most [VEC_INIT_CAPACITY] bytes (the items of the
    table of [kmp_compute_lps]), a replacement by a text of the same length
    leaves the length and the capacity of the string as they are and keeps
    its terminator. *)
Theorem str_replace_same_length_in_place (self : vec_obj_t)
    (old_str new_str : list byte) (cnt : Z) (h : heap) :
  str_wf self ->
  1 <= strlen old_str <= str_length self ->
  strlen old_str <= VEC_INIT_CAPACITY ->
  32 * self.(count) + 4096 < SIZE_MODULUS ->
  - 2147483648 <= cnt < 2147483648 ->
  strlen new_str = strlen old_str ->
  no_failure h ->
  exists w h',
    str_replace self old_str new_str cnt h = Done (Some w, h')
    /\ str_wf w
    /\ str_length w = str_length self
    /\ vec_capacity w = vec_capacity self
    /\ (terminated self -> terminated w).
Proof.
  intros Hself Hold Hsmall Hroom Hcnt Hsame Hh.
  destruct (str_replace_correct self old_str new_str cnt Hself Hold Hsmall
              Hroom Hcnt (or_introl Hsame) h Hh)
    as (r & h' & E & _ & w & -> & Hw & _).
  exists w, h'. split; [exact E|]. split; [exact Hw|].
  unfold str_length, vec_count, vec_capacity in *.
  assert (Hkeep : same_header self w /\ (terminated self -> terminated w)).
  { unfold str_replace, str_length, vec_count in E.
    rewrite gtb_false in E by lia.
    unfold bind in E.
    destruct (str_find self old_str h) as [[[pos|] h1]|]; try discriminate.
    revert E. destruct (count pos =? 0); intros E.
    - unfold ret in E. injection E as <- _. split; [repeat split|auto].
    - rewrite Hsame in E.
      replace (size_sub (strlen old_str) (strlen old_str)) with 0 in E
        by (unfold size_sub; rewrite Z.sub_diag; reflexivity).
      destruct (str_replace_loop_keeps _ _ _ _ _ _ _ _ _ _ _ _ Hself E)
        as (_ & Hs & Ht).
      auto. }
  destruct Hkeep as [(_ & Hcap & Hc) Ht]. auto.
Qed.

Lemma str_replace_same_length_in_place_witness :
  exists w h',
    str_replace (mk_vec 1 128 10 (bytes_of_string "ABABACCABA" ++ zeros 118))
      (bytes_of_string "A") (bytes_of_string "F") (-1) [] = Done (Some w, h')
    /\ str_length w = 10.
Proof.
  destruct (str_replace_same_length_in_place
              (mk_vec 1 128 10 (bytes_of_string "ABABACCABA" ++ zeros 118))
              (bytes_of_string "A") (bytes_of_string "F") (-1) [])
    as (w & h' & E & _ & Hl & _).
  - by_computation.
  - by_computation.
  - by_computation.
  - by_computation.
  - by_computation.
  - reflexivity.
  - constructor.
  - exists w, h'. split; [exact E|exact Hl].
Defined.

(** ** Replacement by a shorter text: the call completes *)




Section StrReplaceShrinks.
Variables (pos_count len_old d : Z) (new_str : list byte) (cnt : Z).
Hypothesis Hd : 1 <= d.
Hypothesis Hold : len_old = strlen new_str + d.
Hypothesis Hfit : len_old < SIZE_MODULUS.


End StrReplaceShrinks.




